(** * Promise-pipelined RPC over a WebSocket: the worker and its browser peer

    A shallow embedding of [src/worker.js] (the resolving side) and of the
    script of the demo page (the issuing side), at the granularity of the
    JavaScript event loop: one transition per macrotask (an inbound message
    or an elapsed timer), with the microtasks it triggers run to completion
    inside the transition. *)

From stdpp Require Import gmap strings list fin_maps pretty.

(** ** JavaScript values

    The values that [JSON.parse] produces, plus [undefined] (a missing
    property) and [NaN] (which [+] can produce).  Numbers are integers: the
    identifiers of the protocol are, and a number with a fraction has no
    value here.  [VNum n] stands for the double [n]; on the integers of the
    safe range ([safe_integer] below) the arithmetic and the printing of
    doubles are those of [Z]; beyond it they are not: there [js_add] and
    [to_string] are exact where the code rounds.  A theorem that names
    what a method gives takes the arguments of the method in that range
    ([exact], [in_range]).  An object is the list of its own properties
    ([JSON.parse] yields each key once; a lookup takes the first
    binding). *)

#[warnings="-register-all"]
Inductive value : Type :=
| VUndef
| VNull
| VBool (b : bool)
| VNum (n : Z)
| VNaN
| VStr (s : string)
| VArr (items : list value)
| VObj (fields : list (string * value)).

(** [o.name] on a value that is neither [null] nor [undefined]. *)
Fixpoint assoc (name : string) (fields : list (string * value)) : option value :=
  match fields with
  | [] => None
  | (k, v) :: rest => if decide (k = name) then Some v else assoc name rest
  end.

Definition get_field (name : string) (v : value) : value :=
  match v with
  | VObj fields => default VUndef (assoc name fields)
  | _ => VUndef
  end.

(** [name in o] for an object that [JSON.parse] built. *)
Definition has_field (name : string) (v : value) : bool :=
  match v with
  | VObj fields => bool_decide (is_Some (assoc name fields))
  | _ => false
  end.

(** The one-character string holding a double quote. *)
Definition dquote : string := String (Ascii.ascii_of_nat 34) EmptyString.

(** [String(v)], as template literals and string concatenation apply it;
    a number is printed digit by digit, as the code prints the integers of
    the safe range. *)
Fixpoint to_string (v : value) : string :=
  match v with
  | VUndef => "undefined"
  | VNull => "null"
  | VBool true => "true"
  | VBool false => "false"
  | VNum n => pretty n
  | VNaN => "NaN"
  | VStr s => s
  | VArr items =>
      (fix join (l : list value) : string :=
         match l with
         | [] => EmptyString
         | x :: rest =>
             let sx := match x with
                       | VUndef | VNull => EmptyString
                       | _ => to_string x
                       end in
             match rest with
             | [] => sx
             | _ :: _ => sx +:+ "," +:+ join rest
             end
         end) items
  | VObj _ => "[object Object]"
  end.

(** Whether [String(v)] returns: on an object with an own property named
    [toString], which is never callable here, it throws a [TypeError], and
    so does the [join] of an array with such an element. *)
Fixpoint convertible (v : value) : bool :=
  match v with
  | VArr items =>
      (fix all (l : list value) : bool :=
         match l with
         | [] => true
         | x :: rest => convertible x && all rest
         end) items
  | VObj fields => negb (bool_decide (is_Some (assoc "toString" fields)))
  | _ => true
  end.

(** The message of that [TypeError] (the text V8 gives). *)
Definition primitive_error : string := "Cannot convert object to primitive value".

(** ToPrimitive: arrays and plain objects go through [toString]. *)
Definition to_primitive (v : value) : value :=
  match v with
  | VArr _ | VObj _ => VStr (to_string v)
  | _ => v
  end.

(** ToNumber on the primitives that are not strings; [None] is [NaN]. *)
Definition to_number (v : value) : option Z :=
  match v with
  | VNull => Some 0%Z
  | VBool true => Some 1%Z
  | VBool false => Some 0%Z
  | VNum n => Some n
  | _ => None
  end.

(** The binary [+] of JavaScript, on operands whose conversion returns
    ([appendSuffix] has logged them when it adds them); two numbers are
    added in [Z], as the code adds integers of the safe range whose sum is
    in that range. *)
Definition js_add (a b : value) : value :=
  let a' := to_primitive a in
  let b' := to_primitive b in
  match a', b' with
  | VStr s, _ => VStr (s +:+ to_string b')
  | _, VStr t => VStr (to_string a' +:+ t)
  | _, _ =>
      match to_number a', to_number b' with
      | Some x, Some y => VNum (x + y)%Z
      | _, _ => VNaN
      end
  end.

(** The integers [Number.isSafeInteger] accepts: each is a double and so
    are its neighbours, so that sums within the range and the digits
    printed are exact. *)
Definition safe_integer (n : Z) : bool := bool_decide (- 2 ^ 53 < n < 2 ^ 53)%Z.

(** Every number in [v] is a safe integer. *)
Fixpoint exact (v : value) : bool :=
  match v with
  | VNum n => safe_integer n
  | VArr items =>
      (fix all (l : list value) : bool :=
         match l with
         | [] => true
         | x :: rest => exact x && all rest
         end) items
  | VObj fields =>
      (fix all (l : list (string * value)) : bool :=
         match l with
         | [] => true
         | (_, x) :: rest => exact x && all rest
         end) fields
  | _ => true
  end.

(** ** Keys of a [Map]

    A [Map] compares keys with SameValueZero: primitives by value, objects
    and arrays by identity.  [KRef n] is the identity of the [n]-th object
    that was used as a key. *)

Inductive key : Type :=
| KUndef
| KNull
| KBool (b : bool)
| KNum (n : Z)
| KNaN
| KStr (s : string)
| KRef (n : nat).

Global Instance key_eq_dec : EqDecision key.
Proof. solve_decision. Defined.

Global Instance key_countable : Countable key.
Proof.
  refine (inj_countable'
    (λ k, match k with
          | KUndef => inl (inl 0)
          | KNull => inl (inl 1)
          | KNaN => inl (inl 2)
          | KBool b => inl (inr b)
          | KNum n => inr (inl n)
          | KStr s => inr (inr (inl s))
          | KRef n => inr (inr (inr n))
          end)
    (λ x, match x with
          | inl (inl 0) => KUndef
          | inl (inl 1) => KNull
          | inl (inl _) => KNaN
          | inl (inr b) => KBool b
          | inr (inl n) => KNum n
          | inr (inr (inl s)) => KStr s
          | inr (inr (inr n)) => KRef n
          end) _).
  intros []; reflexivity.
Defined.

(** The key a primitive denotes; an object or array denotes itself. *)
Definition prim_key (v : value) : option key :=
  match v with
  | VUndef => Some KUndef
  | VNull => Some KNull
  | VBool b => Some (KBool b)
  | VNum n => Some (KNum n)
  | VNaN => Some KNaN
  | VStr s => Some (KStr s)
  | VArr _ | VObj _ => None
  end.

(** ** The worker: one WebSocket connection

    [questionsInFlight] maps a question id to its entry
    [{done, result, promise, resolve, reject}].  The three fields [promise],
    [resolve] and [reject] are set together, so one field records them:
    no promise yet, a promise that is pending, or one that [resolve] settled. *)

Inductive promise_state : Type :=
| PromiseNull
| PromisePending
| PromiseResolved (v : value).

Record entry : Type := Entry {
  done : bool;
  result : value;
  promise : promise_state
}.

(** What one call of [maybeResolveParam] has come to when the synchronous
    part of the handler ends: a value, a wait on the promise of an entry, or
    an exception carrying a message. *)
Inductive outcome : Type :=
| Resolved (v : value)
| Awaiting (k : key)
| Thrown (message : string).

Inductive slot : Type :=
| Ready (v : value)
| Waiting (k : key).

Inductive handler : Type := MakeGreeting | AppendSuffix.

(** A handler invocation suspended in [await Promise.all(...)]. *)
Record task : Type := Task {
  t_questionId : value;
  t_key : key;
  t_method : value;
  t_slots : list slot
}.

(** A handler invocation suspended in the [setTimeout] of its method. *)
Record timer : Type := Timer {
  tm_questionId : value;
  tm_key : key;
  tm_handler : handler;
  tm_args : list value
}.

Record state : Type := State {
  questionsInFlight : gmap key entry;
  suspended : list task;
  timers : list timer;
  objects : nat
}.

(** The frame of a message event: [JSON.parse] throws or gives a value. *)
Inductive frame : Type :=
| Undecodable
| Decoded (msg : value).

(** The object given to [JSON.stringify] and sent. *)
Inductive reply : Type :=
| Return (answerId : value) (result : value)
| Exception (answerId : value) (error : string).

(** The macrotasks: a message event, or the [i]-th pending timer elapses.
    Timers may elapse in any order, which covers the order that their equal
    delays give them. *)
Inductive event : Type :=
| Message (f : frame)
| Timeout (i : nat).

Definition init : state :=
  {| questionsInFlight := ∅; suspended := []; timers := []; objects := 0 |}.

Definition fresh_entry : entry :=
  {| done := false; result := VNull; promise := PromiseNull |}.

(** The key under which the handler stores [questionId]. *)
Definition question_key (objs : nat) (questionId : value) : key :=
  default (KRef objs) (prim_key questionId).

(** [if (!questionsInFlight.has(questionId)) questionsInFlight.set(...)] *)
Definition register (k : key) (tbl : gmap key entry) : gmap key entry :=
  match tbl !! k with
  | Some _ => tbl
  | None => <[k := fresh_entry]> tbl
  end.

Definition is_reference (param : value) : bool :=
  match param with
  | VObj _ => has_field "resultOf" param
  | _ => false
  end.

(** [questionsInFlight.get(refId)]: no object that arrives in a parameter
    is a key of the map. *)
Definition find_question (tbl : gmap key entry) (refId : value) : option (key * entry) :=
  k ← prim_key refId; q ← tbl !! k; Some (k, q).

Definition maybeResolveParam (tbl : gmap key entry) (param : value)
  : gmap key entry * outcome :=
  if is_reference param then
    let refId := get_field "resultOf" param in
    if convertible refId then
      match find_question tbl refId with
      | None => (tbl, Thrown ("Reference to unknown call #" +:+ to_string refId))
      | Some (k, q) =>
          if done q then (tbl, Resolved (result q))
          else
            match promise q with
            | PromiseNull =>
                (<[k := {| done := done q; result := result q;
                           promise := PromisePending |}]> tbl, Awaiting k)
            | PromisePending => (tbl, Awaiting k)
            | PromiseResolved v => (tbl, Resolved v)
            end
      end
    else (tbl, Thrown primitive_error)
  else (tbl, Resolved param).

(** [params.map(p => maybeResolveParam(p))]: the calls run in order, each to
    its first [await]. *)
Fixpoint resolve_params (tbl : gmap key entry) (params : list value)
  : gmap key entry * list outcome :=
  match params with
  | [] => (tbl, [])
  | p :: rest =>
      let '(tbl1, o) := maybeResolveParam tbl p in
      let '(tbl2, os) := resolve_params tbl1 rest in
      (tbl2, o :: os)
  end.

(** [Promise.all]: rejected with the reason of the first rejected promise,
    else one slot per parameter. *)
Definition cons_slot (s : slot) (r : string + list slot) : string + list slot :=
  match r with
  | inl message => inl message
  | inr slots => inr (s :: slots)
  end.

Fixpoint promise_all (os : list outcome) : string + list slot :=
  match os with
  | [] => inr []
  | Thrown message :: _ => inl message
  | Resolved v :: rest => cons_slot (Ready v) (promise_all rest)
  | Awaiting k :: rest => cons_slot (Waiting k) (promise_all rest)
  end.

Fixpoint all_ready (slots : list slot) : option (list value) :=
  match slots with
  | [] => Some []
  | Ready v :: rest => vs ← all_ready rest; Some (v :: vs)
  | Waiting _ :: _ => None
  end.

(** The message of the [TypeError] that [params.map] throws when [params]
    is not an array (the text V8 gives). *)
Definition map_type_error (params : value) : string :=
  match params with
  | VUndef => "Cannot read properties of undefined (reading 'map')"
  | VNull => "Cannot read properties of null (reading 'map')"
  | _ => "params.map is not a function"
  end.

Definition method_handler (method : value) : option handler :=
  match method with
  | VStr name =>
      if decide (name = "makeGreeting") then Some MakeGreeting
      else if decide (name = "appendSuffix") then Some AppendSuffix
      else None
  | _ => None
  end.

Definition arg (i : nat) (args : list value) : value := default VUndef (args !! i).

Definition makeGreeting (name : value) : value :=
  VStr ("Hello, " +:+ to_string name +:+ "!").

Definition appendSuffix (text suffix : value) : value := js_add text suffix.

(** What the method returns once its timer has elapsed. *)
Definition run_handler (h : handler) (args : list value) : value :=
  match h with
  | MakeGreeting => makeGreeting (arg 0 args)
  | AppendSuffix => appendSuffix (arg 0 args) (arg 1 args)
  end.

(** The arguments on which the method computes in the safe range: what it
    prints or adds is exact, and so is what it gives. *)
Definition in_range (h : handler) (args : list value) : bool :=
  match h with
  | MakeGreeting => exact (arg 0 args)
  | AppendSuffix =>
      exact (arg 0 args) && exact (arg 1 args) &&
      exact (js_add (arg 0 args) (arg 1 args))
  end.

(** Whether the [console.log] at the head of the method returns: its
    template literal converts the arguments to strings. *)
Definition logs (h : handler) (args : list value) : bool :=
  match h with
  | MakeGreeting => convertible (arg 0 args)
  | AppendSuffix => convertible (arg 0 args) && convertible (arg 1 args)
  end.

(** Step 3 of the handler, up to the first [await] of the method: a known
    method starts its timer, unless its log throws; a throwing or an
    unknown method goes to step 4 at once. *)
Definition dispatch (questionId : value) (k : key) (method : value)
    (args : list value) (st : state) : state * list reply :=
  match method_handler method with
  | Some h =>
      if logs h args then
        ({| questionsInFlight := questionsInFlight st;
            suspended := suspended st;
            timers := timers st ++ [Timer questionId k h args];
            objects := objects st |}, [])
      else (st, [Exception questionId primitive_error])
  | None =>
      (st, [Exception questionId
              ("Unknown method " +:+ dquote +:+ to_string method +:+ dquote)])
  end.

Definition with_table (tbl : gmap key entry) (st : state) : state :=
  {| questionsInFlight := tbl; suspended := suspended st;
     timers := timers st; objects := objects st |}.

Definition suspend (t : task) (st : state) : state :=
  {| questionsInFlight := questionsInFlight st;
     suspended := suspended st ++ [t];
     timers := timers st; objects := objects st |}.

(** Steps 1 and 2 of the handler on a message whose [type] is ["call"]. *)
Definition on_call (msg : value) (st : state) : state * list reply :=
  let questionId := get_field "questionId" msg in
  let method := get_field "method" msg in
  let params := get_field "params" msg in
  let k := question_key (objects st) questionId in
  let objs := match prim_key questionId with
              | Some _ => objects st
              | None => S (objects st)
              end in
  let st0 := {| questionsInFlight := register k (questionsInFlight st);
                suspended := suspended st; timers := timers st;
                objects := objs |} in
  match params with
  | VArr ps =>
      let '(tbl1, os) := resolve_params (questionsInFlight st0) ps in
      let st1 := with_table tbl1 st0 in
      match promise_all os with
      | inl message => (st1, [Exception questionId message])
      | inr slots =>
          match all_ready slots with
          | Some args => dispatch questionId k method args st1
          | None => (suspend (Task questionId k method slots) st1, [])
          end
      end
  | _ => (st0, [Exception questionId (map_type_error params)])
  end.

(** [msg.type === "call"]; on [null] the property access throws and the
    handler ends without any effect, as it does on any other type. *)
Definition is_call (msg : value) : bool :=
  match get_field "type" msg with
  | VStr t => bool_decide (t = "call")
  | _ => false
  end.

(** Whether the [console.log] at the head of the branch returns: its
    template literal converts [questionId] and [method] to strings.  When it
    throws, the handler ends before it has registered anything. *)
Definition announced (msg : value) : bool :=
  convertible (get_field "questionId" msg) && convertible (get_field "method" msg).

Definition on_message (f : frame) (st : state) : state * list reply :=
  match f with
  | Undecodable => (st, [Exception (VNum 0%Z) "Invalid JSON"])
  | Decoded msg =>
      if is_call msg && announced msg then on_call msg st else (st, [])
  end.

(** [finalizeQuestion]: [None] is the [TypeError] of a missing entry; the
    boolean tells whether [entry.resolve] settled a pending promise. *)
Definition finalizeQuestion (tbl : gmap key entry) (qId : key) (res : value)
  : option (gmap key entry * bool) :=
  match tbl !! qId with
  | None => None
  | Some q =>
      match promise q with
      | PromisePending =>
          Some (<[qId := {| done := true; result := res;
                            promise := PromiseResolved res |}]> tbl, true)
      | p =>
          Some (<[qId := {| done := true; result := res; promise := p |}]> tbl,
                false)
      end
  end.

Definition settle_slot (k : key) (v : value) (s : slot) : slot :=
  match s with
  | Waiting k' => if decide (k' = k) then Ready v else s
  | Ready _ => s
  end.

(** The microtasks after the promise of [k] is resolved with [v]: its
    waiters resume in the order in which they began to wait, and a handler
    whose [Promise.all] is thereby fulfilled goes on to step 3.  The frames
    are collected handler by handler; [in_order_of_sending] below gives
    the order in which they leave. *)
Fixpoint resume (k : key) (v : value) (waiting : list task) (st : state)
  : state * list reply :=
  match waiting with
  | [] => (st, [])
  | t :: rest =>
      let slots := settle_slot k v <$> t_slots t in
      let '(st1, out1) :=
        match all_ready slots with
        | Some args => dispatch (t_questionId t) (t_key t) (t_method t) args st
        | None =>
            (suspend (Task (t_questionId t) (t_key t) (t_method t) slots) st, [])
        end in
      let '(st2, out2) := resume k v rest st1 in
      (st2, out1 ++ out2)
  end.

(** Whether the frame is the Exception of a method that threw in its log:
    among the frames of woken handlers it is the one with this text, an
    unknown method gives another. *)
Definition thrown_in_log (r : reply) : bool :=
  match r with
  | Exception _ message => bool_decide (message = primitive_error)
  | Return _ _ => false
  end.

(** The frames of the handlers woken in one turn, in the order of sending.
    Each handler goes on to step 3 in its turn; one whose method is unknown
    is answered there and then, one whose method threw in its log only one
    job later, since [await makeGreeting(...)] takes the rejection through
    one more job: its Exception follows the frames of the others. *)
Definition in_order_of_sending (out : list reply) : list reply :=
  filter (λ r, thrown_in_log r = false) out ++
  filter (λ r, thrown_in_log r = true) out.

(** The [i]-th pending timer elapses: the method returns, step 4 runs. *)
Definition on_timeout (i : nat) (st : state) : state * list reply :=
  match timers st !! i with
  | None => (st, [])
  | Some t =>
      let res := run_handler (tm_handler t) (tm_args t) in
      let rest := delete i (timers st) in
      match finalizeQuestion (questionsInFlight st) (tm_key t) res with
      | None =>
          ({| questionsInFlight := questionsInFlight st;
              suspended := suspended st; timers := rest;
              objects := objects st |}, [])
      | Some (tbl, woken) =>
          let '(st1, out) :=
            if woken then
              resume (tm_key t) res (suspended st)
                {| questionsInFlight := tbl; suspended := []; timers := rest;
                   objects := objects st |}
            else
              ({| questionsInFlight := tbl; suspended := suspended st;
                  timers := rest; objects := objects st |}, []) in
          (st1, Return (tm_questionId t) res :: in_order_of_sending out)
      end
  end.

Definition step (st : state) (e : event) : state * list reply :=
  match e with
  | Message f => on_message f st
  | Timeout i => on_timeout i st
  end.

(** A run: the events in order, and all the frames sent. *)
Fixpoint run (st : state) (evs : list event) : state * list reply :=
  match evs with
  | [] => (st, [])
  | e :: rest =>
      let '(st1, out1) := step st e in
      let '(st2, out2) := run st1 rest in
      (st2, out1 ++ out2)
  end.

(** Let the pending timers elapse, oldest first, at most [fuel] of them. *)
Fixpoint drain (fuel : nat) (st : state) : state * list reply :=
  match fuel, timers st with
  | S fuel', _ :: _ =>
      let '(st1, out1) := on_timeout 0 st in
      let '(st2, out2) := drain fuel' st1 in
      (st2, out1 ++ out2)
  | _, _ => (st, [])
  end.

(** ** The frames of the protocol *)

Definition call (questionId : value) (method : string) (params : list value)
  : frame :=
  Decoded (VObj [("type", VStr "call"); ("questionId", questionId);
                 ("method", VStr method); ("params", VArr params)]).

Definition reference (id : value) : value := VObj [("resultOf", id)].

(** ** Schedules of timeouts *)

(** At most one timer is pending, now and after any number of timeouts. *)
Definition calm (st : state) : Prop :=
  ∀ n, length (timers (drain n st).1) ≤ 1.

(** ** Failures of parameter resolution *)

(** The exception [maybeResolveParam] throws on [param], if any: it depends
    on the keys of the table only. *)
Definition resolution_error (tbl : gmap key entry) (param : value) : option string :=
  if is_reference param then
    if convertible (get_field "resultOf" param) then
      match find_question tbl (get_field "resultOf" param) with
      | None =>
          Some ("Reference to unknown call #" +:+
                to_string (get_field "resultOf" param))
      | Some _ => None
      end
    else Some primitive_error
  else None.

Definition first_error (tbl : gmap key entry) (params : list value) : option string :=
  head (omap (resolution_error tbl) params).

(** [p] is a plain value or a reference to the question [id]. *)
Definition refers_only_to (id : value) (p : value) : Prop :=
  is_reference p = true → get_field "resultOf" p = id.

(** The errors that [maybeResolveParam] gives for an unregistered id. *)
Definition unknown_reference_error (error : string) : Prop :=
  ∃ refId, error = "Reference to unknown call #" +:+ to_string refId.

(** ** Invariants of the worker *)

(** The entry of [k] has a pending promise: some handler waits for it. *)
Definition awaited_pending (tbl : gmap key entry) (k : key) : Prop :=
  ∃ q, tbl !! k = Some q ∧ done q = false ∧ promise q = PromisePending.

(** What holds of every state the worker reaches: the question of every
    handler in flight is registered, a suspended handler waits for at least
    one promise, each promise it waits for is pending, and a resolved
    promise belongs to a done entry. *)
Record wf (st : state) : Prop := {
  wf_timers : ∀ t, t ∈ timers st → is_Some (questionsInFlight st !! tm_key t);
  wf_tasks : ∀ t, t ∈ suspended st → is_Some (questionsInFlight st !! t_key t);
  wf_waiting : ∀ t k, t ∈ suspended st → Waiting k ∈ t_slots t →
               awaited_pending (questionsInFlight st) k;
  wf_blocked : ∀ t, t ∈ suspended st → all_ready (t_slots t) = None;
  wf_settled : ∀ k q v, questionsInFlight st !! k = Some q →
               promise q = PromiseResolved v → done q = true
}.

(** [tbl'] is [tbl] but for promises created on entries that had none. *)
Definition promoted (tbl tbl' : gmap key entry) : Prop :=
  ∀ k, tbl' !! k = tbl !! k ∨
       ∃ q, tbl !! k = Some q ∧ done q = false ∧ promise q = PromiseNull ∧
            tbl' !! k = Some {| done := false; result := result q;
                                promise := PromisePending |}.

(** The entry of [k] is neither done nor resolved. *)
Definition unfinished (tbl : gmap key entry) (k : key) : Prop :=
  ∃ q, tbl !! k = Some q ∧ done q = false ∧ ∀ v, promise q ≠ PromiseResolved v.

(** The task [t] after the promise of [k] has given [v] to its waiters. *)
Definition resumed (k : key) (v : value) (t : task) : task :=
  Task (t_questionId t) (t_key t) (t_method t) (settle_slot k v <$> t_slots t).

(** ** States that differ by a rejected Call *)

(** Every answer stored in [tbl] is stored in [tbl'] too; [tbl'] may have
    more keys, and promises where [tbl] has none. *)
Definition agrees (tbl tbl' : gmap key entry) : Prop :=
  ∀ k q, tbl !! k = Some q →
    ∃ q', tbl' !! k = Some q' ∧ done q' = done q ∧ result q' = result q ∧
          (promise q' = promise q ∨ promise q = PromiseNull).

(** The same handlers are suspended and the same timers run. *)
Record similar (st st' : state) : Prop := {
  sim_suspended : suspended st' = suspended st;
  sim_timers : timers st' = timers st;
  sim_table : agrees (questionsInFlight st) (questionsInFlight st')
}.

(** ** A question that nobody will finalize *)

Definition answer_id (r : reply) : value :=
  match r with
  | Return answerId _ => answerId
  | Exception answerId _ => answerId
  end.

(** The [questionId] of the Call an event delivers, if it delivers one. *)
Definition call_id (e : event) : option value :=
  match e with
  | Message (Decoded msg) =>
      if is_call msg then Some (get_field "questionId" msg) else None
  | _ => None
  end.

(** The event delivers no Call under one of [ids]. *)
Definition avoids (ids : list value) (e : event) : Prop :=
  ∀ id, call_id e = Some id → id ∉ ids.



(** A handler of the Call [questionId] is suspended, waiting for [k]. *)
Definition stuck_on (k : key) (questionId : value) (st : state) : Prop :=
  ∃ t, t ∈ suspended st ∧ t_questionId t = questionId ∧ Waiting k ∈ t_slots t.






(** ** The pipelined scenario of the demo page *)

Module Pipelined.

Definition call_greeting : frame :=
  call (VNum 1) "makeGreeting" [VStr "Alice"].

Definition call_suffix : frame :=
  call (VNum 2) "appendSuffix" [reference (VNum 1); VStr "!!!"].

Definition return_greeting : reply := Return (VNum 1) (VStr "Hello, Alice!").

(** Call #1 has arrived and its timer runs. *)
Definition greeting_running : state := (step init (Message call_greeting)).1.
(** Call #1 has returned before call #2 arrives. *)
Definition greeting_done : state := (drain 1 greeting_running).1.
(** Call #2 has arrived while call #1 runs: it waits for the result. *)
Definition suffix_waiting : state := (step greeting_running (Message call_suffix)).1.
(** Call #2 has arrived after call #1 returned: its timer runs. *)
Definition suffix_running : state := (step greeting_done (Message call_suffix)).1.

End Pipelined.

(** ** The issuing side: the script of the demo page

    [callsInFlight] maps a question id to [{resolve, reject, done, result,
    promise}].  [resolve] and [reject] always belong to one promise: the one
    [callRPC] returned, or the one [awaitResult] made and stored in
    [promise]. *)

Module Issuer.

Inductive ready_state : Type := CONNECTING | OPEN | CLOSING | CLOSED.

Global Instance ready_state_eq_dec : EqDecision ready_state.
Proof. solve_decision. Defined.

Inductive promise_ref : Type :=
| CallPromise (k : key)
| AwaitPromise (k : key).

Record entry : Type := Entry {
  done : bool;
  result : value;
  settles : option promise_ref;
  promise : bool
}.

Record state : Type := State {
  callsInFlight : gmap key entry;
  nextQuestionId : Z;
  ws : option ready_state
}.

Inductive effect : Type :=
| Send (payload : value)
| Fulfil (p : promise_ref) (v : value)
| Reject (p : promise_ref) (message : string).

(** What an [async] function or a promise-returning one hands back. *)
Inductive completion : Type :=
| Returns (v : value)
| Throws (message : string)
| Pends (p : promise_ref).

Definition init : state :=
  {| callsInFlight := ∅; nextQuestionId := 1; ws := None |}.

(** [ws && ws.readyState === WebSocket.OPEN] *)
Definition socket_open (st : state) : bool := bool_decide (ws st = Some OPEN).

Definition call_payload (questionId : Z) (method : value) (params : value) : value :=
  VObj [("type", VStr "call"); ("questionId", VNum questionId);
        ("method", method); ("params", params)].

Definition callRPC (method params : value) (st : state)
  : state * completion * list effect :=
  if socket_open st then
    let questionId := nextQuestionId st in
    ({| callsInFlight :=
          <[KNum questionId :=
              {| done := false; result := VUndef;
                 settles := Some (CallPromise (KNum questionId));
                 promise := false |}]> (callsInFlight st);
        nextQuestionId := (questionId + 1)%Z; ws := ws st |},
     Pends (CallPromise (KNum questionId)),
     [Send (call_payload questionId method params)])
  else (st, Throws "WebSocket not OPEN", []).

Definition callPipelined (method params : value) (st : state)
  : state * value * list effect :=
  if socket_open st then
    let questionId := nextQuestionId st in
    ({| callsInFlight :=
          <[KNum questionId :=
              {| done := false; result := VNull; settles := None;
                 promise := false |}]> (callsInFlight st);
        nextQuestionId := (questionId + 1)%Z; ws := ws st |},
     reference (VNum questionId),
     [Send (call_payload questionId method params)])
  else (st, reference (VNum (-1)), []).

(** [callsInFlight.get(id)] *)
Definition find_call (tbl : gmap key entry) (id : value) : option (key * entry) :=
  k ← prim_key id; q ← tbl !! k; Some (k, q).

Definition awaitResult (ref : value) (st : state) : state * completion :=
  if is_reference ref then
    let qId := get_field "resultOf" ref in
    match find_call (callsInFlight st) qId with
    | None =>
        (st, Throws (if convertible qId
                     then "No call in flight for #" +:+ to_string qId
                     else primitive_error))
    | Some (k, q) =>
        if done q then (st, Returns (result q))
        else if promise q then (st, Pends (AwaitPromise k))
        else
          ({| callsInFlight :=
                <[k := {| done := done q; result := result q;
                          settles := Some (AwaitPromise k);
                          promise := true |}]> (callsInFlight st);
              nextQuestionId := nextQuestionId st; ws := ws st |},
           Pends (AwaitPromise k))
    end
  else (st, Throws "Not a pipeline reference").

(** The message of [new Error(x)], when [String(x)] returns. *)
Definition error_message (x : value) : string :=
  match x with
  | VUndef => EmptyString
  | _ => to_string x
  end.

Definition forget (k : key) (st : state) : state :=
  {| callsInFlight := delete k (callsInFlight st);
     nextQuestionId := nextQuestionId st; ws := ws st |}.

(** [ws.onmessage]; in the exception branch [new Error(msg.error)] is
    evaluated only when the entry has a [reject], and when it throws the
    entry is not deleted. *)
Definition onmessage (f : frame) (st : state) : state * list effect :=
  match f with
  | Undecodable => (st, [])
  | Decoded msg =>
      match get_field "type" msg with
      | VStr t =>
          if decide (t = "return") then
            match find_call (callsInFlight st) (get_field "answerId" msg) with
            | Some (k, q) =>
                (forget k st,
                 match settles q with
                 | Some p => [Fulfil p (get_field "result" msg)]
                 | None => []
                 end)
            | None => (st, [])
            end
          else if decide (t = "exception") then
            match find_call (callsInFlight st) (get_field "answerId" msg) with
            | Some (k, q) =>
                match settles q with
                | Some p =>
                    if convertible (get_field "error" msg) then
                      (forget k st,
                       [Reject p (error_message (get_field "error" msg))])
                    else (st, [])
                | None => (forget k st, [])
                end
            | None => (st, [])
            end
          else (st, [])
      | _ => (st, [])
      end
  end.

Inductive event : Type :=
| InitWebSocket
| ReadyState (r : ready_state)
| Receive (f : frame)
| CallRPC (method params : value)
| CallPipelined (method params : value)
| AwaitResult (ref : value).

Definition step (st : state) (e : event) : state * list effect :=
  match e with
  | InitWebSocket =>
      ({| callsInFlight := callsInFlight st;
          nextQuestionId := nextQuestionId st; ws := Some CONNECTING |}, [])
  | ReadyState r =>
      ({| callsInFlight := callsInFlight st;
          nextQuestionId := nextQuestionId st;
          ws := match ws st with Some _ => Some r | None => None end |}, [])
  | Receive f => onmessage f st
  | CallRPC method params =>
      let '(st1, _, out) := callRPC method params st in (st1, out)
  | CallPipelined method params =>
      let '(st1, _, out) := callPipelined method params st in (st1, out)
  | AwaitResult ref => ((awaitResult ref st).1, [])
  end.

Fixpoint run (st : state) (evs : list event) : state * list effect :=
  match evs with
  | [] => (st, [])
  | e :: rest =>
      let '(st1, out1) := step st e in
      let '(st2, out2) := run st1 rest in
      (st2, out1 ++ out2)
  end.

(** Every key of [callsInFlight] is a number that [nextQuestionId] has
    already passed. *)
Definition ids_allocated (st : state) : Prop :=
  (1 ≤ nextQuestionId st)%Z ∧
  ∀ k, is_Some (callsInFlight st !! k) →
       ∃ n, k = KNum n ∧ (1 ≤ n < nextQuestionId st)%Z.

End Issuer.

(** ** States and frames of the scenarios *)

(** A table in which question 1 is awaited by a later Call, and the same
    table once [finalizeQuestion] has stored ["first"]. *)
Definition awaited : gmap key entry :=
  <[KNum 1 := {| done := false; result := VNull; promise := PromisePending |}]> ∅.

Definition awaited_once : gmap key entry :=
  <[KNum 1 := {| done := true; result := VStr "first";
                 promise := PromiseResolved (VStr "first") |}]> awaited.

(** The page after [callPipelined("makeGreeting", ["Alice"])] on an open
    socket. *)
Definition greeting_issued : Issuer.state :=
  (Issuer.run Issuer.init
     [Issuer.InitWebSocket; Issuer.ReadyState Issuer.OPEN;
      Issuer.CallPipelined (VStr "makeGreeting") (VArr [VStr "Alice"])]).1.

Definition greeting_returned : value :=
  VObj [("type", VStr "return"); ("answerId", VNum 1);
        ("result", VStr "Hello, Alice!")].


Definition call_dependent : value :=
  VObj [("type", VStr "call"); ("questionId", VNum 2);
        ("method", VStr "appendSuffix");
        ("params", VArr [reference (VNum 1); VStr "!!!"])].



(** Call #1 has returned and Call #3, a greeting for Bob, is in its
    method. *)
Definition second_greeting_running : list event :=
  [Message (call (VNum 1) "makeGreeting" [VStr "Alice"]); Timeout 0;
   Message (call (VNum 3) "makeGreeting" [VStr "Bob"])].

(** Call #2 has a reference to Call #1, one to Call #3 and an array that
    holds one. *)
Definition call_mixed : value :=
  VObj [("type", VStr "call"); ("questionId", VNum 2);
        ("method", VStr "appendSuffix");
        ("params", VArr [reference (VNum 1); reference (VNum 3);
                         VArr [reference (VNum 1)]])].


(** ** Counting and classifying frames *)

(** The results the two methods can give: a string, a number or [NaN]. *)
Definition scalar (v : value) : bool :=
  match v with
  | VStr _ | VNum _ | VNaN => true
  | _ => false
  end.

Definition is_exception (r : reply) : bool :=
  match r with
  | Exception _ _ => true
  | Return _ _ => false
  end.


(** ** The requests behind the frames *)

(** A Call with this [questionId] is among the events. *)
Definition requested (evs : list event) (questionId : value) : Prop :=
  ∃ msg, Message (Decoded msg) ∈ evs ∧ is_call msg = true ∧
         get_field "questionId" msg = questionId.

(** Every handler in flight belongs to a Call among the events. *)
Definition in_flight_requested (evs : list event) (st : state) : Prop :=
  (∀ t, t ∈ suspended st → requested evs (t_questionId t)) ∧
  (∀ t, t ∈ timers st → requested evs (tm_questionId t)).

(** ** References to questions that are done *)

(** The parameter is no reference, or refers to a question that is done. *)
Definition settled_reference (tbl : gmap key entry) (param : value) : bool :=
  if is_reference param then
    match find_question tbl (get_field "resultOf" param) with
    | Some (_, q) => done q
    | None => false
    end
  else true.

(** The parameter with the stored result in place of a reference. *)
Definition substitute (tbl : gmap key entry) (param : value) : value :=
  if is_reference param then
    match find_question tbl (get_field "resultOf" param) with
    | Some (_, q) => result q
    | None => param
    end
  else param.

(** ** A handler that is woken *)

(** What a slot holds once the awaited result [v] has come. *)
Definition slot_value (v : value) (s : slot) : value :=
  match s with
  | Ready x => x
  | Waiting _ => v
  end.

(** ** A Call that refers to itself *)

(** The key of every handler in flight is the one its [questionId]
    denotes. *)
Definition keyed (st : state) : Prop :=
  (∀ t k, t ∈ suspended st → prim_key (t_questionId t) = Some k → t_key t = k) ∧
  (∀ t k, t ∈ timers st → prim_key (tm_questionId t) = Some k → tm_key t = k).

(** The invariant of a Call [questionId] that waits for its own question
    [k]: the entry is not finished, every handler of that question is
    suspended on it, and none runs its method. *)
Definition self_waiting (k : key) (questionId : value) (st : state) : Prop :=
  unfinished (questionsInFlight st) k ∧
  (∀ t, t ∈ suspended st → t_key t = k ∨ t_questionId t = questionId →
        Waiting k ∈ t_slots t) ∧
  (∀ t, t ∈ timers st → tm_key t ≠ k ∧ tm_questionId t ≠ questionId).

(** [appendSuffix({resultOf: 1}, "!")] sent as question 1. *)
Definition call_self : value :=
  VObj [("type", VStr "call"); ("questionId", VNum 1);
        ("method", VStr "appendSuffix");
        ("params", VArr [reference (VNum 1); VStr "!"])].

(** ** The life of a question on the page *)

(** The [questionId] of a frame the page sends. *)
Definition sent_id (e : Issuer.effect) : option value :=
  match e with
  | Issuer.Send payload => Some (get_field "questionId" payload)
  | _ => None
  end.

(** The promise an effect settles. *)
Definition settled (e : Issuer.effect) : option Issuer.promise_ref :=
  match e with
  | Issuer.Fulfil p _ | Issuer.Reject p _ => Some p
  | Issuer.Send _ => None
  end.

(** The event delivers a frame whose [answerId] is [n]. *)
Definition answers (n : Z) (e : Issuer.event) : Prop :=
  match e with
  | Issuer.Receive (Decoded msg) => get_field "answerId" msg = VNum n
  | _ => False
  end.

(** The event is an [awaitResult] on question [n]. *)
Definition awaits (n : Z) (e : Issuer.event) : Prop :=
  match e with
  | Issuer.AwaitResult ref => get_field "resultOf" ref = VNum n
  | _ => False
  end.

(** What holds of every entry of [callsInFlight] the page reaches: it is
    not done, and its [resolve] and [reject], if any, belong to a promise of
    its own question; [promise] is set exactly when they are the ones
    [awaitResult] made. *)
Definition owned (st : Issuer.state) : Prop :=
  ∀ k q, Issuer.callsInFlight st !! k = Some q →
    Issuer.done q = false ∧
    match Issuer.settles q with
    | None => Issuer.promise q = false
    | Some (Issuer.CallPromise k') => k' = k ∧ Issuer.promise q = false
    | Some (Issuer.AwaitPromise k') => k' = k ∧ Issuer.promise q = true
    end.

(** The entry of question [n] once [awaitResult] has made its promise. *)
Definition awaited_entry (n : Z) (q : Issuer.entry) : Issuer.entry :=
  {| Issuer.done := Issuer.done q; Issuer.result := Issuer.result q;
     Issuer.settles := Some (Issuer.AwaitPromise (KNum n));
     Issuer.promise := true |}.

(** No entry holds the [resolve] and [reject] of the promise that [callRPC]
    returned for question [n], and [n] will not be given out again. *)
Definition orphaned (n : Z) (st : Issuer.state) : Prop :=
  (n < Issuer.nextQuestionId st)%Z ∧
  ∀ q, Issuer.callsInFlight st !! KNum n = Some q →
       Issuer.settles q ≠ Some (Issuer.CallPromise (KNum n)).

(** ** The wire

    Both sides send [JSON.stringify] of an object and read what arrives
    with [JSON.parse]. *)

(** [JSON.parse(JSON.stringify(v))] for an object, an array or a value in
    one: a property whose value is [undefined] is left out, [undefined] in
    an array becomes [null], and so does [NaN]. *)
Fixpoint jsonify (v : value) : value :=
  match v with
  | VNaN => VNull
  | VArr items =>
      VArr ((fix each (l : list value) : list value :=
               match l with
               | [] => []
               | x :: rest =>
                   match x with
                   | VUndef => VNull
                   | _ => jsonify x
                   end :: each rest
               end) items)
  | VObj fields =>
      VObj ((fix each (l : list (string * value)) : list (string * value) :=
               match l with
               | [] => []
               | (k, x) :: rest =>
                   match x with
                   | VUndef => each rest
                   | _ => (k, jsonify x) :: each rest
                   end
               end) fields)
  | _ => v
  end.

(** The object the worker passes to [JSON.stringify] for a frame. *)
Definition encode (r : reply) : value :=
  match r with
  | Return answerId result =>
      VObj [("type", VStr "return"); ("answerId", answerId); ("result", result)]
  | Exception answerId error =>
      VObj [("type", VStr "exception"); ("answerId", answerId);
            ("error", VStr error)]
  end.

(** What the other side reads when [v] is sent. *)
Definition delivered (v : value) : frame := Decoded (jsonify v).


(** ** A Call and the Call that is pipelined on it *)

(** The parameter with [v] in place of a reference. *)
Definition with_result (v : value) (p : value) : value :=
  if is_reference p then v else p.

(** The timer [t] is the only handler of question [k], which is not
    finished. *)
Definition sole_timer (k : key) (t : timer) (st : state) : Prop :=
  (∀ t', t' ∈ suspended st → t_key t' ≠ k) ∧
  unfinished (questionsInFlight st) k ∧
  ∃ l1 l2, timers st = l1 ++ t :: l2 ∧ ∀ t', t' ∈ l1 ++ l2 → tm_key t' ≠ k.

(** Question [k] is done with result [v] and has no handler any more. *)
Definition answered_with (k : key) (v : value) (st : state) : Prop :=
  (∀ t', t' ∈ suspended st → t_key t' ≠ k) ∧
  (∀ t', t' ∈ timers st → tm_key t' ≠ k) ∧
  ∃ q, questionsInFlight st !! k = Some q ∧ done q = true ∧ result q = v.

(** The slot of a parameter that is plain or refers to question [k], which
    is pending. *)
Definition reference_slot (k : key) (p : value) : slot :=
  if is_reference p then Waiting k else Ready p.

(** ** Parameters of a Call that waits for one question *)

(** The slot of a parameter of a Call whose references name questions that
    are done, or else the question of key [k]: the stored result, the
    parameter itself, or the wait for [k]. *)
Definition pipelined_slot (tbl : gmap key entry) (k : key) (p : value) : slot :=
  if settled_reference tbl p then Ready (substitute tbl p) else Waiting k.

(** The parameter with the stored result in place of a reference to a
    question that is done, and [v] in place of any other reference. *)
Definition with_results (tbl : gmap key entry) (v : value) (p : value) : value :=
  if settled_reference tbl p then substitute tbl p else v.

(** ** Where the arguments of a method come from *)

(** The argument [a] that a method gets for the parameter [p], given the
    frames [out] sent so far: a reference stands for a value that was
    returned for the question it names, anything else stands for itself. *)
Definition argument_of (out : list reply) (p a : value) : Prop :=
  if is_reference p then Return (get_field "resultOf" p) a ∈ out else a = p.

(** The slot of the parameter [p] while its handler is suspended: it waits
    only for the question that [p] names. *)
Definition slot_of (out : list reply) (p : value) (s : slot) : Prop :=
  match s with
  | Ready a => argument_of out p a
  | Waiting k =>
      is_reference p = true ∧ prim_key (get_field "resultOf" p) = Some k
  end.

Definition outcome_of (out : list reply) (p : value) (o : outcome) : Prop :=
  match o with
  | Resolved a => argument_of out p a
  | Awaiting k =>
      is_reference p = true ∧ prim_key (get_field "resultOf" p) = Some k
  | Thrown _ => True
  end.

(** A Call with this id, method and parameter list is among the events. *)
Definition call_of (evs : list event) (questionId method : value)
    (ps : list value) : Prop :=
  ∃ msg, Message (Decoded msg) ∈ evs ∧ is_call msg = true ∧
         get_field "questionId" msg = questionId ∧
         get_field "method" msg = method ∧
         get_field "params" msg = VArr ps.

(** Every result stored in the table, and every value a promise was
    resolved with, was returned for that question. *)
Definition results_returned (out : list reply) (tbl : gmap key entry) : Prop :=
  ∀ id k q, prim_key id = Some k → tbl !! k = Some q →
    (done q = true → Return id (result q) ∈ out) ∧
    (∀ v, promise q = PromiseResolved v → Return id v ∈ out).

Definition task_traced (evs : list event) (out : list reply) (t : task) : Prop :=
  (∃ ps, call_of evs (t_questionId t) (t_method t) ps ∧
         Forall2 (slot_of out) ps (t_slots t)) ∧
  ∀ id, prim_key id = Some (t_key t) → t_questionId t = id.

Definition timer_traced (evs : list event) (out : list reply) (t : timer) : Prop :=
  (∃ method ps, call_of evs (tm_questionId t) method ps ∧
                method_handler method = Some (tm_handler t) ∧
                Forall2 (argument_of out) ps (tm_args t)) ∧
  ∀ id, prim_key id = Some (tm_key t) → tm_questionId t = id.

(** Every handler in flight comes from a Call among the events [evs], and
    holds for each parameter of that Call what [out] makes of it. *)
Definition traced (evs : list event) (out : list reply) (st : state) : Prop :=
  (∀ t, t ∈ suspended st → task_traced evs out t) ∧
  (∀ t, t ∈ timers st → timer_traced evs out t) ∧
  results_returned out (questionsInFlight st).

(** ** The pipelined test of the page *)

(** [runPipelined] up to its [await]: both Calls are issued in one turn,
    the second with the reference of the first as a parameter, and the
    second reference is awaited. *)
Definition runPipelined (st : Issuer.state)
  : Issuer.state * Issuer.completion * list Issuer.effect :=
  let '(st1, greetingRef, out1) :=
    Issuer.callPipelined (VStr "makeGreeting") (VArr [VStr "Alice"]) st in
  let '(st2, finalRef, out2) :=
    Issuer.callPipelined (VStr "appendSuffix")
      (VArr [greetingRef; VStr "!!!"]) st1 in
  let '(st3, finalVal) := Issuer.awaitResult finalRef st2 in
  (st3, finalVal, out1 ++ out2).

(** * Properties *)

(** ** Runs, timers and schedules *)

Lemma run_app st evs1 evs2 :
  run st (evs1 ++ evs2) =
  let '(st1, out1) := run st evs1 in
  let '(st2, out2) := run st1 evs2 in
  (st2, out1 ++ out2).
Proof.
  revert st. induction evs1 as [|e evs1 IH]; intros st; simpl.
  - by destruct (run st evs2).
  - destruct (step st e) as [st1 out1]. rewrite IH.
    destruct (run st1 evs1) as [st2 out2].
    destruct (run st2 evs2) as [st3 out3]. by rewrite app_assoc.
Qed.

Lemma in_order_of_sending_perm out : in_order_of_sending out ≡ₚ out.
Proof.
  unfold in_order_of_sending. induction out as [|r out IH]; [done|].
  destruct (thrown_in_log r) eqn:E.
  - rewrite filter_cons_False, filter_cons_True by (by rewrite ?E).
    by rewrite <-Permutation_middle, IH.
  - rewrite filter_cons_True, filter_cons_False by (by rewrite ?E).
    simpl. by rewrite IH.
Qed.

Lemma elem_of_in_order_of_sending r out : r ∈ in_order_of_sending out ↔ r ∈ out.
Proof. by rewrite in_order_of_sending_perm. Qed.

Lemma length_in_order_of_sending out :
  length (in_order_of_sending out) = length out.
Proof. by rewrite in_order_of_sending_perm. Qed.

Lemma on_timeout_ge i st : length (timers st) ≤ i → on_timeout i st = (st, []).
Proof.
  intros Hi. unfold on_timeout. by rewrite (lookup_ge_None_2 _ _ Hi).
Qed.

Lemma drain_quiet fuel st : timers st = [] → drain fuel st = (st, []).
Proof. intros H. destruct fuel; simpl; by rewrite ?H. Qed.

Lemma drain_S fuel st :
  timers st ≠ [] →
  drain (S fuel) st =
  let '(st1, out1) := on_timeout 0 st in
  let '(st2, out2) := drain fuel st1 in
  (st2, out1 ++ out2).
Proof. intros H. simpl. by destruct (timers st). Qed.

(** Once no timer is left, more fuel changes nothing. *)
Lemma drain_saturated n m st :
  timers (drain n st).1 = [] → n ≤ m → drain m st = drain n st.
Proof.
  revert m st. induction n as [|n IH]; intros m st Hq Hle.
  - simpl in Hq. by rewrite drain_quiet.
  - destruct m as [|m]; [lia|].
    destruct (timers st) as [|t ts] eqn:Ht.
    + by rewrite !drain_quiet.
    + assert (timers st ≠ []) as Hne by (by rewrite Ht).
      rewrite !drain_S by done. rewrite drain_S in Hq by done.
      destruct (on_timeout 0 st) as [st1 out1].
      rewrite (IH m st1); [done| |lia].
      by destruct (drain n st1).
Qed.

Lemma calm_next st :
  calm st → timers st ≠ [] → calm (on_timeout 0 st).1.
Proof.
  intros Hc Hne n. specialize (Hc (S n)). rewrite drain_S in Hc by done.
  destruct (on_timeout 0 st) as [st1 out1]. simpl.
  by destruct (drain n st1).
Qed.

(** In a calm state every schedule of timeouts amounts to letting some
    number of timers elapse in order. *)
Lemma run_timeouts_drain st (l : list nat) :
  calm st → ∃ n, run st (Timeout <$> l) = drain n st.
Proof.
  revert st. induction l as [|i l IH]; intros st Hc.
  - by exists 0.
  - destruct (decide (length (timers st) ≤ i)) as [Hi|Hi].
    + destruct (IH st Hc) as [n Hn]. exists n.
      rewrite fmap_cons. cbn [run step]. rewrite on_timeout_ge by done.
      rewrite Hn. by destruct (drain n st).
    + assert (timers st ≠ []) as Hne by (destruct (timers st); simpl in *; [lia|done]).
      assert (i = 0) as -> by (specialize (Hc 0); simpl in Hc; lia).
      destruct (IH _ (calm_next st Hc Hne)) as [n Hn]. exists (S n).
      rewrite drain_S by done. rewrite fmap_cons. cbn [run step].
      destruct (on_timeout 0 st) as [st1 out1]. simpl in Hn. by rewrite Hn.
Qed.

Lemma run_timeouts_bounded st (l : list nat) k :
  calm st → timers (drain k st).1 = [] →
  ∃ n, n ≤ k ∧ run st (Timeout <$> l) = drain n st.
Proof.
  intros Hc Hk. destruct (run_timeouts_drain st l Hc) as [n Hn].
  destruct (decide (n ≤ k)) as [Hle|Hgt]; [by exists n|].
  exists k. split; [done|]. rewrite Hn. apply drain_saturated; [done|lia].
Qed.

Lemma calm_bounded st k :
  timers (drain k st).1 = [] →
  (∀ n, n < k → length (timers (drain n st).1) ≤ 1) → calm st.
Proof.
  intros Hk Hlt n. destruct (decide (n < k)) as [Hn|Hn]; [by apply Hlt|].
  rewrite (drain_saturated k n) by (done || lia). rewrite Hk. simpl. lia.
Qed.

(** ** How the table evolves *)

Lemma register_is_Some k tbl : is_Some (register k tbl !! k).
Proof.
  unfold register. destruct (tbl !! k) eqn:E; [by rewrite E|].
  rewrite lookup_insert_eq. by eexists.
Qed.

Lemma register_lookup_Some k k' tbl q :
  tbl !! k' = Some q → register k tbl !! k' = Some q.
Proof.
  intros Hq. unfold register. destruct (tbl !! k) eqn:E; [done|].
  rewrite lookup_insert_ne; [done|]. intros ->. congruence.
Qed.

Lemma register_dom k tbl : dom (register k tbl) = {[k]} ∪ dom tbl.
Proof.
  unfold register. destruct (tbl !! k) eqn:E.
  - assert (k ∈ dom tbl) by (apply elem_of_dom; by rewrite E). set_solver.
  - by rewrite dom_insert_L.
Qed.

Lemma find_question_Some tbl refId k q :
  find_question tbl refId = Some (k, q) ↔ prim_key refId = Some k ∧ tbl !! k = Some q.
Proof.
  unfold find_question. destruct (prim_key refId) as [k'|]; simpl.
  - destruct (tbl !! k') as [q'|] eqn:E; simpl; naive_solver.
  - naive_solver.
Qed.

Lemma find_question_None tbl refId :
  find_question tbl refId = None ↔
  ∀ k, prim_key refId = Some k → tbl !! k = None.
Proof.
  unfold find_question. destruct (prim_key refId) as [k'|]; simpl.
  - destruct (tbl !! k') as [q'|] eqn:E; simpl; naive_solver.
  - naive_solver.
Qed.

(** Resolving a parameter never adds or removes a key ... *)
Lemma maybeResolveParam_dom tbl param :
  dom (maybeResolveParam tbl param).1 = dom tbl.
Proof.
  unfold maybeResolveParam. destruct (is_reference param); [|done].
  destruct (convertible _); [|done].
  destruct (find_question tbl _) as [[k q]|] eqn:E; [|done].
  apply find_question_Some in E as [_ Hk].
  destruct (done q); [done|]. destruct (promise q); try done.
  simpl. rewrite dom_insert_L.
  assert (k ∈ dom tbl) by (apply elem_of_dom; by rewrite Hk). set_solver.
Qed.

(** ... and changes no [done] and no [result]. *)
Lemma maybeResolveParam_lookup tbl param k :
  (maybeResolveParam tbl param).1 !! k = tbl !! k ∨
  ∃ q, tbl !! k = Some q ∧ done q = false ∧ promise q = PromiseNull ∧
       (maybeResolveParam tbl param).1 !! k =
       Some {| done := false; result := result q; promise := PromisePending |}.
Proof.
  unfold maybeResolveParam. destruct (is_reference param); [|by left].
  destruct (convertible _); [|by left].
  destruct (find_question tbl _) as [[k' q]|] eqn:E; [|by left].
  apply find_question_Some in E as [_ Hk].
  destruct (done q) eqn:Hd; [by left|].
  destruct (promise q) eqn:Hp; try by left.
  simpl. destruct (decide (k' = k)) as [->|Hne].
  - right. exists q. by rewrite lookup_insert_eq.
  - left. by rewrite lookup_insert_ne.
Qed.

Lemma resolve_params_dom tbl params :
  dom (resolve_params tbl params).1 = dom tbl.
Proof.
  revert tbl. induction params as [|p ps IH]; intros tbl; [done|].
  simpl. destruct (maybeResolveParam tbl p) as [tbl1 o] eqn:E1.
  specialize (IH tbl1). destruct (resolve_params tbl1 ps) as [tbl2 os].
  simpl in *. rewrite IH. by rewrite <-(maybeResolveParam_dom tbl p), E1.
Qed.

Lemma dispatch_table questionId k method args st :
  questionsInFlight (dispatch questionId k method args st).1 = questionsInFlight st.
Proof.
  unfold dispatch. destruct (method_handler method) as [h|]; [|done].
  by destruct (logs h args).
Qed.

Lemma resume_table k v waiting st :
  questionsInFlight (resume k v waiting st).1 = questionsInFlight st.
Proof.
  revert st. induction waiting as [|t ts IH]; intros st; [done|].
  simpl. destruct (all_ready _) as [args|].
  - destruct (dispatch _ _ _ args st) as [st1 out1] eqn:E.
    specialize (IH st1). destruct (resume k v ts st1) as [st2 out2].
    simpl in *. rewrite IH.
    by rewrite <-(dispatch_table (t_questionId t) (t_key t) (t_method t) args st), E.
  - specialize (IH (suspend (Task (t_questionId t) (t_key t) (t_method t)
                                   (settle_slot k v <$> t_slots t)) st)).
    destruct (resume k v ts _) as [st2 out2]. simpl in *. by rewrite IH.
Qed.

Lemma finalizeQuestion_dom tbl k res tbl' woken :
  finalizeQuestion tbl k res = Some (tbl', woken) → dom tbl' = dom tbl.
Proof.
  unfold finalizeQuestion. destruct (tbl !! k) as [q|] eqn:E; [|done].
  assert (k ∈ dom tbl) by (apply elem_of_dom; by rewrite E).
  destruct (promise q); intros [= <- <-]; rewrite dom_insert_L; set_solver.
Qed.

Lemma on_call_dom msg st :
  dom (questionsInFlight (on_call msg st).1) =
  {[question_key (objects st) (get_field "questionId" msg)]} ∪
  dom (questionsInFlight st).
Proof.
  unfold on_call.
  set (k := question_key _ _). set (objs := match prim_key _ with Some _ => _ | None => _ end).
  destruct (get_field "params" msg) as [| | | | | |ps|]; simpl;
    try apply register_dom.
  pose proof (resolve_params_dom (register k (questionsInFlight st)) ps) as Hd.
  destruct (resolve_params _ ps) as [tbl1 os]. simpl in Hd.
  destruct (promise_all os) as [message|slots]; simpl.
  - by rewrite Hd, register_dom.
  - destruct (all_ready slots) as [args|]; simpl.
    + rewrite dispatch_table. simpl. by rewrite Hd, register_dom.
    + by rewrite Hd, register_dom.
Qed.

Lemma on_timeout_dom i st :
  dom (questionsInFlight (on_timeout i st).1) = dom (questionsInFlight st).
Proof.
  unfold on_timeout. destruct (timers st !! i) as [t|]; [|done].
  destruct (finalizeQuestion _ _ _) as [[tbl woken]|] eqn:E; [|done].
  apply finalizeQuestion_dom in E. destruct woken.
  - pose proof (resume_table (tm_key t) (run_handler (tm_handler t) (tm_args t))
      (suspended st) {| questionsInFlight := tbl; suspended := [];
                        timers := delete i (timers st); objects := objects st |}) as Hr.
    destruct (resume _ _ _ _) as [st1 out]. simpl in *. by rewrite Hr.
  - done.
Qed.

Lemma step_dom st e :
  dom (questionsInFlight st) ⊆ dom (questionsInFlight (step st e).1).
Proof.
  destruct e as [[|msg]|i]; simpl.
  - done.
  - destruct (is_call msg && announced msg); [|done].
    rewrite on_call_dom. set_solver.
  - by rewrite on_timeout_dom.
Qed.

Lemma run_dom st evs :
  dom (questionsInFlight st) ⊆ dom (questionsInFlight (run st evs).1).
Proof.
  revert st. induction evs as [|e evs IH]; intros st; [done|].
  simpl. pose proof (step_dom st e) as H1.
  destruct (step st e) as [st1 out1]. specialize (IH st1).
  destruct (run st1 evs) as [st2 out2]. simpl in *. set_solver.
Qed.

(** ** Failures of parameter resolution *)

Lemma find_question_dom tbl tbl' refId :
  dom tbl = dom tbl' →
  find_question tbl refId = None → find_question tbl' refId = None.
Proof.
  intros Hd. rewrite !find_question_None. intros H k Hk.
  apply not_elem_of_dom. rewrite <-Hd. apply not_elem_of_dom. by apply H.
Qed.

Lemma resolution_error_dom tbl tbl' param :
  dom tbl = dom tbl' → resolution_error tbl param = resolution_error tbl' param.
Proof.
  intros Hd. unfold resolution_error. destruct (is_reference param); [|done].
  destruct (convertible _); [|done].
  destruct (find_question tbl _) eqn:E, (find_question tbl' _) eqn:E'; try done.
  - by rewrite (find_question_dom tbl' tbl) in E.
  - by rewrite (find_question_dom tbl tbl') in E'.
Qed.

Lemma maybeResolveParam_thrown tbl param :
  match (maybeResolveParam tbl param).2 with
  | Thrown message => resolution_error tbl param = Some message
  | _ => resolution_error tbl param = None
  end.
Proof.
  unfold maybeResolveParam, resolution_error.
  destruct (is_reference param); [|done].
  destruct (convertible _); [|done].
  destruct (find_question tbl _) as [[k q]|]; [|done].
  destruct (done q); [done|]. by destruct (promise q).
Qed.

Lemma first_error_cons tbl p ps :
  first_error tbl (p :: ps) =
  match resolution_error tbl p with
  | Some message => Some message
  | None => first_error tbl ps
  end.
Proof. unfold first_error. simpl. by destruct (resolution_error tbl p). Qed.

Lemma first_error_dom tbl tbl' params :
  dom tbl = dom tbl' → first_error tbl params = first_error tbl' params.
Proof.
  intros Hd. induction params as [|p ps IH]; [done|].
  by rewrite !first_error_cons, IH, (resolution_error_dom tbl tbl').
Qed.

(** [Promise.all] rejects exactly when some parameter throws, with the
    message of the first that does. *)
Lemma promise_all_first_error tbl params :
  match promise_all (resolve_params tbl params).2 with
  | inl message => first_error tbl params = Some message
  | inr _ => first_error tbl params = None
  end.
Proof.
  revert tbl. induction params as [|p ps IH]; intros tbl; [done|].
  simpl. rewrite first_error_cons.
  pose proof (maybeResolveParam_thrown tbl p) as Hp.
  pose proof (maybeResolveParam_dom tbl p) as Hd.
  destruct (maybeResolveParam tbl p) as [tbl1 o]. simpl in Hp, Hd.
  specialize (IH tbl1). rewrite (first_error_dom tbl1 tbl) in IH by done.
  destruct (resolve_params tbl1 ps) as [tbl2 os]. simpl in *.
  destruct o as [v|k|message]; rewrite Hp; simpl; [| |done];
    by destruct (promise_all os).
Qed.


Lemma first_error_None tbl params :
  first_error tbl params = None ↔
  Forall (λ p, resolution_error tbl p = None) params.
Proof.
  induction params as [|p ps IH]; [by split; [constructor|]|].
  rewrite first_error_cons, Forall_cons.
  destruct (resolution_error tbl p); [naive_solver|]. rewrite IH. naive_solver.
Qed.

(** ** The pipelined scenario *)

Module PipelinedFacts.
Import Pipelined.

Lemma calm_init : calm init.
Proof. apply (calm_bounded _ 0); [done|lia]. Qed.

Lemma calm_greeting_running : calm greeting_running.
Proof.
  apply (calm_bounded _ 1); [by vm_compute|].
  intros n Hn. assert (n = 0) as -> by lia. vm_compute. lia.
Qed.

Lemma calm_suffix_waiting : calm suffix_waiting.
Proof.
  apply (calm_bounded _ 2); [by vm_compute|].
  intros n Hn. assert (n = 0 ∨ n = 1) as [-> | ->] by lia; vm_compute; lia.
Qed.

Lemma calm_suffix_running : calm suffix_running.
Proof.
  apply (calm_bounded _ 1); [by vm_compute|].
  intros n Hn. assert (n = 0) as -> by lia. vm_compute. lia.
Qed.

Lemma before_greeting (pre : list nat) : run init (Timeout <$> pre) = (init, []).
Proof.
  destruct (run_timeouts_bounded init pre 0 calm_init eq_refl) as (n & Hn & ->).
  by apply drain_quiet.
Qed.

Lemma between_calls (mid : list nat) :
  run greeting_running (Timeout <$> mid) = (greeting_running, []) ∨
  run greeting_running (Timeout <$> mid) = (greeting_done, [return_greeting]).
Proof.
  destruct (run_timeouts_bounded greeting_running mid 1 calm_greeting_running)
    as (n & Hn & ->); [by vm_compute|].
  assert (n = 0 ∨ n = 1) as [-> | ->] by lia; [by left|by right].
Qed.

End PipelinedFacts.

(** ** What the handler does with a Call *)

Lemma on_call_rejected msg st params message :
  get_field "params" msg = VArr params →
  first_error
    (register (question_key (objects st) (get_field "questionId" msg))
       (questionsInFlight st)) params = Some message →
  (on_call msg st).2 = [Exception (get_field "questionId" msg) message] ∧
  suspended (on_call msg st).1 = suspended st ∧
  timers (on_call msg st).1 = timers st.
Proof.
  intros Hps Herr. unfold on_call. rewrite Hps. simpl.
  pose proof (promise_all_first_error
    (register (question_key (objects st) (get_field "questionId" msg))
       (questionsInFlight st)) params) as Hall.
  destruct (resolve_params _ params) as [tbl1 os]. simpl in Hall.
  destruct (promise_all os) as [m|slots]; [|congruence].
  rewrite Herr in Hall. by injection Hall as ->.
Qed.

(** Without a failure of resolution the Call is suspended or dispatched:
    an Exception can only come from the method. *)
Lemma on_call_unrejected msg st params r :
  get_field "params" msg = VArr params →
  first_error
    (register (question_key (objects st) (get_field "questionId" msg))
       (questionsInFlight st)) params = None →
  r ∈ (on_call msg st).2 →
  r = Exception (get_field "questionId" msg) primitive_error ∨
  r = Exception (get_field "questionId" msg)
        ("Unknown method " +:+ dquote +:+ to_string (get_field "method" msg)
         +:+ dquote).
Proof.
  intros Hps Herr. unfold on_call. rewrite Hps. simpl.
  pose proof (promise_all_first_error
    (register (question_key (objects st) (get_field "questionId" msg))
       (questionsInFlight st)) params) as Hall.
  destruct (resolve_params _ params) as [tbl1 os]. simpl in Hall.
  destruct (promise_all os) as [m|slots]; [congruence|].
  destruct (all_ready slots) as [args|]; [|by intros ?%elem_of_nil].
  unfold dispatch. destruct (method_handler _) as [h|].
  - destruct (logs h args); simpl; [by intros ?%elem_of_nil|].
    intros ->%list_elem_of_singleton. by left.
  - simpl. intros ->%list_elem_of_singleton. by right.
Qed.

(** A parameter that is not a reference resolves to itself. *)
Lemma resolve_params_plain tbl params :
  Forall (λ p, is_reference p = false) params →
  resolve_params tbl params = (tbl, Resolved <$> params).
Proof.
  induction 1 as [|p ps Hp _ IH]; [done|].
  simpl. unfold maybeResolveParam. rewrite Hp, IH. done.
Qed.

Lemma promise_all_resolved (vs : list value) :
  promise_all (Resolved <$> vs) = inr (Ready <$> vs).
Proof.
  induction vs as [|v vs IH]; [done|].
  rewrite !fmap_cons. cbn [promise_all]. by rewrite IH.
Qed.

Lemma all_ready_ready (vs : list value) : all_ready (Ready <$> vs) = Some vs.
Proof.
  induction vs as [|v vs IH]; [done|].
  rewrite !fmap_cons. cbn [all_ready]. by rewrite IH.
Qed.

(** ** The claims *)

(** C9. On an undecodable frame the worker sends exactly one
    [Exception{answerId: 0, error: "Invalid JSON"}] and changes nothing else:
    every later event is handled as if the frame had not come, and a
    well-formed Call sent after it is answered with its Return. *)
Theorem undecodable_frame_is_answered_and_harmless :
  (∀ st, step st (Message Undecodable) =
         (st, [Exception (VNum 0) "Invalid JSON"])) ∧
  (∀ st evs, run st (Message Undecodable :: evs) =
             ((run st evs).1, Exception (VNum 0) "Invalid JSON" :: (run st evs).2)) ∧
  (run init [Message Undecodable;
             Message (call (VNum 1) "makeGreeting" [VStr "Alice"]);
             Timeout 0]).2 =
    [Exception (VNum 0) "Invalid JSON"; Return (VNum 1) (VStr "Hello, Alice!")].
Proof.
  split; [done|]. split; [|by vm_compute].
  intros st evs. simpl. by destruct (run st evs).
Qed.

Lemma first_error_split tbl params message :
  first_error tbl params = Some message →
  ∃ before p after,
    params = before ++ p :: after ∧
    Forall (λ x, resolution_error tbl x = None) before ∧
    resolution_error tbl p = Some message.
Proof.
  induction params as [|p ps IH]; [done|]. rewrite first_error_cons.
  destruct (resolution_error tbl p) as [m|] eqn:E.
  - intros [= ->]. by exists [], p, ps.
  - intros H. destruct (IH H) as (before & p' & after & -> & Hb & Hp').
    exists (p :: before), p', after. split; [done|]. split; [by constructor|done].
Qed.

Lemma first_error_elem tbl params p message :
  p ∈ params → resolution_error tbl p = Some message →
  is_Some (first_error tbl params).
Proof.
  intros Hin Hp. destruct (first_error tbl params) eqn:E; [by eexists|].
  apply first_error_None in E. rewrite Forall_forall in E.
  rewrite (E p Hin) in Hp. done.
Qed.

Lemma thrown_resolution_error tbl p message :
  (maybeResolveParam tbl p).2 = Thrown message ↔
  resolution_error tbl p = Some message.
Proof.
  pose proof (maybeResolveParam_thrown tbl p) as H.
  destruct ((maybeResolveParam tbl p).2); split; intros; simplify_eq; congruence.
Qed.

Lemma not_thrown_resolution_error tbl p :
  (∀ message, (maybeResolveParam tbl p).2 ≠ Thrown message) ↔
  resolution_error tbl p = None.
Proof.
  pose proof (maybeResolveParam_thrown tbl p) as H.
  destruct ((maybeResolveParam tbl p).2); split; intros; try done; try congruence.
  by destruct (H0 message).
Qed.

(** C8. If [maybeResolveParam] throws on some parameter of a Call (one
    whose id and method name the handler could log), the worker sends
    exactly one Exception, for the id of that Call, carrying the message
    thrown for the first failing parameter; the Call is neither suspended
    nor given a timer, so its method never runs. *)
Theorem failed_resolution_aborts_call st msg params p message :
  is_call msg = true →
  announced msg = true →
  get_field "params" msg = VArr params →
  p ∈ params →
  (maybeResolveParam
     (register (question_key (objects st) (get_field "questionId" msg))
        (questionsInFlight st)) p).2 = Thrown message →
  ∃ before p' after message',
    params = before ++ p' :: after ∧
    Forall (λ x, ∀ m,
      (maybeResolveParam
         (register (question_key (objects st) (get_field "questionId" msg))
            (questionsInFlight st)) x).2 ≠ Thrown m) before ∧
    (maybeResolveParam
       (register (question_key (objects st) (get_field "questionId" msg))
          (questionsInFlight st)) p').2 = Thrown message' ∧
    (step st (Message (Decoded msg))).2 =
      [Exception (get_field "questionId" msg) message'] ∧
    suspended (step st (Message (Decoded msg))).1 = suspended st ∧
    timers (step st (Message (Decoded msg))).1 = timers st.
Proof.
  intros Hcall Hann Hps Hin Hp. apply thrown_resolution_error in Hp.
  destruct (first_error_elem _ _ _ _ Hin Hp) as [message' Hfirst].
  destruct (first_error_split _ _ _ Hfirst) as (before & p' & after & Heq & Hb & Hp').
  exists before, p', after, message'. split; [done|]. split.
  { eapply Forall_impl; [exact Hb|]. intros x Hx.
    by apply not_thrown_resolution_error. }
  split; [by apply thrown_resolution_error|].
  simpl. rewrite Hcall, Hann. by apply (on_call_rejected msg st params).
Qed.

Lemma failed_resolution_aborts_call_witness :
  ∃ before p' after message',
    [reference (VNum 1); reference (VNum 99); VStr "!"] = before ++ p' :: after ∧
    Forall (λ x, ∀ m,
      (maybeResolveParam (register (KNum 2) (questionsInFlight Pipelined.greeting_running)) x).2
      ≠ Thrown m) before ∧
    (maybeResolveParam (register (KNum 2) (questionsInFlight Pipelined.greeting_running)) p').2
      = Thrown message' ∧
    (step Pipelined.greeting_running
       (Message (call (VNum 2) "appendSuffix"
          [reference (VNum 1); reference (VNum 99); VStr "!"]))).2 =
      [Exception (VNum 2) message'] ∧
    suspended (step Pipelined.greeting_running
       (Message (call (VNum 2) "appendSuffix"
          [reference (VNum 1); reference (VNum 99); VStr "!"]))).1 = [] ∧
    timers (step Pipelined.greeting_running
       (Message (call (VNum 2) "appendSuffix"
          [reference (VNum 1); reference (VNum 99); VStr "!"]))).1 =
      timers Pipelined.greeting_running.
Proof.
  apply (failed_resolution_aborts_call Pipelined.greeting_running
           (VObj [("type", VStr "call"); ("questionId", VNum 2);
                  ("method", VStr "appendSuffix");
                  ("params", VArr [reference (VNum 1); reference (VNum 99); VStr "!"])])
           [reference (VNum 1); reference (VNum 99); VStr "!"]
           (reference (VNum 99)) "Reference to unknown call #99").
  - reflexivity.
  - reflexivity.
  - reflexivity.
  - right. left.
  - vm_compute. reflexivity.
Defined.

Lemma is_reference_shape p :
  is_reference p = true ↔
  ∃ fields id, p = VObj fields ∧ assoc "resultOf" fields = Some id.
Proof.
  destruct p as [| | | | | | |fields]; simpl; try (split; [done|naive_solver]).
  rewrite bool_decide_eq_true. split.
  - intros [id Hid]. by exists fields, id.
  - intros (fields' & id & [= <-] & Hid). by eexists.
Qed.

Lemma prim_key_convertible id k : prim_key id = Some k → convertible id = true.
Proof. by destruct id. Qed.

Lemma on_call_plain_params st questionId method params :
  convertible questionId = true →
  Forall (λ p, is_reference p = false) params →
  step st (Message (call questionId method params)) =
  dispatch questionId (question_key (objects st) questionId) (VStr method) params
    {| questionsInFlight :=
         register (question_key (objects st) questionId) (questionsInFlight st);
       suspended := suspended st;
       timers := timers st;
       objects := match prim_key questionId with
                  | Some _ => objects st
                  | None => S (objects st)
                  end |}.
Proof.
  intros Hid Hplain. simpl. unfold announced. simpl. rewrite Hid. simpl.
  unfold on_call. simpl. rewrite resolve_params_plain by done.
  by rewrite promise_all_resolved, all_ready_ready.
Qed.

(** C4 as the code has it: a second [finalizeQuestion] for the same id does
    not fail; it leaves the entry done, stores the second value as its
    result and leaves the promise as the first invocation left it. *)
Theorem second_finalize_replaces_result tbl k v1 v2 tbl1 woken :
  finalizeQuestion tbl k v1 = Some (tbl1, woken) →
  ∃ tbl2 q1 q2,
    tbl1 !! k = Some q1 ∧ done q1 = true ∧ result q1 = v1 ∧
    finalizeQuestion tbl1 k v2 = Some (tbl2, false) ∧
    tbl2 !! k = Some q2 ∧ done q2 = true ∧ result q2 = v2 ∧
    promise q2 = promise q1 ∧
    (woken = true → promise q2 = PromiseResolved v1).
Proof.
  unfold finalizeQuestion. destruct (tbl !! k) as [q|] eqn:E; [|done].
  destruct (promise q) eqn:Hp; intros [= <- <-]; rewrite lookup_insert_eq;
    simpl; eexists _, _, _; rewrite lookup_insert_eq; naive_solver.
Qed.

Lemma second_finalize_replaces_result_witness :
  ∃ tbl2 q1 q2,
    awaited_once !! KNum 1 = Some q1 ∧
    done q1 = true ∧ result q1 = VStr "first" ∧
    finalizeQuestion awaited_once (KNum 1) (VStr "second") = Some (tbl2, false) ∧
    tbl2 !! KNum 1 = Some q2 ∧ done q2 = true ∧ result q2 = VStr "second" ∧
    promise q2 = promise q1 ∧
    (true = true → promise q2 = PromiseResolved (VStr "first")).
Proof.
  apply (second_finalize_replaces_result awaited (KNum 1) (VStr "first")
           (VStr "second")).
  reflexivity.
Defined.

(** C4 as stated fails: with two Calls under one id the second
    [finalizeQuestion] succeeds, both Returns are sent, and the stored
    result is the second value. *)
Lemma second_resolve_is_not_rejected :
  let duplicate :=
    run init [Message (call (VNum 1) "makeGreeting" [VStr "A"]);
              Message (call (VNum 1) "makeGreeting" [VStr "B"]);
              Timeout 0; Timeout 0] in
  duplicate.2 = [Return (VNum 1) (VStr "Hello, A!");
                 Return (VNum 1) (VStr "Hello, B!")] ∧
  result <$> questionsInFlight duplicate.1 !! KNum 1 = Some (VStr "Hello, B!") ∧
  ∃ tbl1 tbl2,
    finalizeQuestion (register (KNum 1) ∅) (KNum 1) (VStr "Hello, A!") =
      Some (tbl1, false) ∧
    finalizeQuestion tbl1 (KNum 1) (VStr "Hello, B!") = Some (tbl2, false) ∧
    result <$> tbl2 !! KNum 1 = Some (VStr "Hello, B!").
Proof.
  split; [by vm_compute|]. split; [by vm_compute|].
  eexists _, _. split; [by vm_compute|]. split; by vm_compute.
Qed.

Lemma resolution_error_registered tbl id k p :
  prim_key id = Some k → is_Some (tbl !! k) → refers_only_to id p →
  resolution_error tbl p = None.
Proof.
  intros Hk [q Hq] Hp. unfold resolution_error.
  destruct (is_reference p) eqn:E; [|done]. rewrite (Hp E).
  rewrite (prim_key_convertible id k Hk).
  unfold find_question. rewrite Hk. simpl. by rewrite Hq.
Qed.

(** A Call whose references all resolve is not answered with an
    unknown-reference error. *)
Lemma on_call_no_unknown_reference msg st answerId error :
  (∀ params, get_field "params" msg = VArr params →
     first_error
       (register (question_key (objects st) (get_field "questionId" msg))
          (questionsInFlight st)) params = None) →
  Exception answerId error ∈ (on_call msg st).2 →
  ¬ unknown_reference_error error.
Proof.
  intros Hfirst Hin [refId Herr].
  destruct (get_field "params" msg) as [| | | | | |ps|] eqn:Eps.
  7:{ destruct (on_call_unrejected msg st ps _ Eps (Hfirst ps eq_refl) Hin)
        as [[= _ ->]|[= _ ->]]; discriminate Herr. }
  all: unfold on_call in Hin; rewrite Eps in Hin;
    apply list_elem_of_singleton in Hin; injection Hin as _ ->; discriminate Herr.
Qed.

Lemma register_keeps k k' tbl : is_Some (tbl !! k') → is_Some (register k tbl !! k').
Proof. intros [q Hq]. exists q. by apply register_lookup_Some. Qed.

Lemma run_keeps st evs k :
  is_Some (questionsInFlight st !! k) →
  is_Some (questionsInFlight (run st evs).1 !! k).
Proof. rewrite <-!elem_of_dom. apply run_dom. Qed.

Lemma on_call_registers msg st :
  is_Some (questionsInFlight (on_call msg st).1
             !! question_key (objects st) (get_field "questionId" msg)).
Proof. apply elem_of_dom. rewrite on_call_dom. set_solver. Qed.

(** C2. The handler of a Call stores the entry of its question before it
    resolves any parameter: the Call's own references to its id already find
    the entry, and so does every later Call, whatever happened in between;
    none of them is answered with an unknown-reference Exception. *)
Theorem question_registered_before_resolution st msg k :
  is_call msg = true →
  announced msg = true →
  prim_key (get_field "questionId" msg) = Some k →
  is_Some (questionsInFlight (step st (Message (Decoded msg))).1 !! k) ∧
  (∀ p, refers_only_to (get_field "questionId" msg) p → ∀ message,
     (maybeResolveParam (register k (questionsInFlight st)) p).2 ≠ Thrown message) ∧
  (∀ answerId error,
     (∀ params, get_field "params" msg = VArr params →
        Forall (refers_only_to (get_field "questionId" msg)) params) →
     Exception answerId error ∈ (step st (Message (Decoded msg))).2 →
     ¬ unknown_reference_error error) ∧
  (∀ evs,
     let later := (run (step st (Message (Decoded msg))).1 evs).1 in
     is_Some (questionsInFlight later !! k) ∧
     (∀ tbl p, dom (questionsInFlight later) ⊆ dom tbl →
        refers_only_to (get_field "questionId" msg) p → ∀ message,
        (maybeResolveParam tbl p).2 ≠ Thrown message) ∧
     (∀ msg2 answerId error,
        (∀ params2, get_field "params" msg2 = VArr params2 →
           Forall (refers_only_to (get_field "questionId" msg)) params2) →
        Exception answerId error ∈ (step later (Message (Decoded msg2))).2 →
        ¬ unknown_reference_error error)).
Proof.
  intros Hcall Hann Hk.
  assert (∀ st', question_key (objects st') (get_field "questionId" msg) = k)
    as Hkey by (intros st'; unfold question_key; by rewrite Hk).
  assert (is_Some (questionsInFlight (step st (Message (Decoded msg))).1 !! k))
    as Hreg.
  { simpl. rewrite Hcall, Hann. simpl. rewrite <-(Hkey st). apply on_call_registers. }
  assert (∀ tbl params, is_Some (tbl !! k) →
            Forall (refers_only_to (get_field "questionId" msg)) params →
            first_error tbl params = None) as Hnone.
  { intros tbl params Hin Hrefs. apply first_error_None.
    eapply Forall_impl; [exact Hrefs|]. intros p Hp.
    by eapply resolution_error_registered. }
  split; [done|]. split.
  { intros p Hp. apply not_thrown_resolution_error.
    eapply resolution_error_registered; [done| |done]. apply register_is_Some. }
  split.
  { intros answerId error Hrefs. simpl. rewrite Hcall, Hann. simpl.
    apply on_call_no_unknown_reference. intros params Hps.
    apply Hnone; [|by apply Hrefs]. rewrite Hkey. apply register_is_Some. }
  intros evs later.
  assert (is_Some (questionsInFlight later !! k)) as Hlater
    by by apply run_keeps.
  split; [done|]. split.
  { intros tbl p Hdom Hp. apply not_thrown_resolution_error.
    eapply resolution_error_registered; [done| |done].
    apply elem_of_dom, Hdom, elem_of_dom, Hlater. }
  intros msg2 answerId error Hrefs. simpl.
  destruct (is_call msg2 && announced msg2); [|by intros ?%elem_of_nil].
  apply on_call_no_unknown_reference. intros params2 Hps2.
  apply Hnone; [|by apply Hrefs]. by apply register_keeps.
Qed.

(** Call #1 of the pipelined scenario: question 1 is registered at once,
    and Call #2, which arrives while #1 runs, is not rejected. *)
Lemma question_registered_before_resolution_witness :
  is_Some (questionsInFlight Pipelined.greeting_running !! KNum 1) ∧
  ∀ answerId error,
    Exception answerId error ∈
      (step (run Pipelined.greeting_running []).1
         (Message Pipelined.call_suffix)).2 →
    ¬ unknown_reference_error error.
Proof.
  destruct (question_registered_before_resolution init
              (VObj [("type", VStr "call"); ("questionId", VNum 1);
                     ("method", VStr "makeGreeting");
                     ("params", VArr [VStr "Alice"])]) (KNum 1))
    as (Hreg & _ & _ & Hlater); [reflexivity|reflexivity|reflexivity|].
  split; [exact Hreg|].
  destruct (Hlater []) as (_ & _ & Hcall).
  intros answerId error.
  apply (Hcall (VObj [("type", VStr "call"); ("questionId", VNum 2);
                      ("method", VStr "appendSuffix");
                      ("params", VArr [reference (VNum 1); VStr "!!!"])])).
  intros params2 [= <-].
  repeat constructor; intros H; try reflexivity; discriminate H.
Defined.

(** ** The issuing side *)

Module IssuerFacts.
Import Issuer.

Lemma find_call_Some tbl id k q :
  find_call tbl id = Some (k, q) ↔ prim_key id = Some k ∧ tbl !! k = Some q.
Proof.
  unfold find_call. destruct (prim_key id) as [k'|]; simpl.
  - destruct (tbl !! k') as [q'|] eqn:E; simpl; naive_solver.
  - naive_solver.
Qed.

Lemma onmessage_table f st :
  callsInFlight (onmessage f st).1 = callsInFlight st ∨
  ∃ msg k q,
    f = Decoded msg ∧
    (get_field "type" msg = VStr "return" ∨
     get_field "type" msg = VStr "exception") ∧
    find_call (callsInFlight st) (get_field "answerId" msg) = Some (k, q) ∧
    callsInFlight (onmessage f st).1 = delete k (callsInFlight st).
Proof.
  destruct f as [|msg]; [by left|]. simpl.
  destruct (get_field "type" msg) as [| | | | |t| |] eqn:Et; try by left.
  destruct (decide (t = "return")) as [->|Hr].
  - destruct (find_call _ _) as [[k q]|] eqn:E; [|by left].
    right. exists msg, k, q. naive_solver.
  - destruct (decide (t = "exception")) as [->|He]; [|by left].
    destruct (find_call _ _) as [[k q]|] eqn:E; [|by left].
    destruct (settles q) as [p|].
    + destruct (convertible _); [|by left]. right. exists msg, k, q. naive_solver.
    + right. exists msg, k, q. naive_solver.
Qed.

Lemma onmessage_counter f st :
  nextQuestionId (onmessage f st).1 = nextQuestionId st.
Proof.
  destruct f as [|msg]; [done|]. simpl.
  destruct (get_field "type" msg) as [| | | | |t| |]; try done.
  repeat case_decide; try done; destruct (find_call _ _) as [[k q]|]; try done.
  destruct (settles q); [|done]. by destruct (convertible _).
Qed.

Lemma awaitResult_table ref st k :
  is_Some (callsInFlight (awaitResult ref st).1 !! k) ↔
  is_Some (callsInFlight st !! k).
Proof.
  unfold awaitResult. destruct (is_reference ref); [|done].
  destruct (find_call _ _) as [[k' q]|] eqn:E; [|done].
  apply find_call_Some in E as [_ Hq].
  destruct (done q); [done|]. destruct (promise q); [done|]. simpl.
  destruct (decide (k' = k)) as [->|Hne].
  - rewrite lookup_insert_eq, Hq. by split; eexists.
  - by rewrite lookup_insert_ne.
Qed.

Lemma awaitResult_counter ref st :
  nextQuestionId (awaitResult ref st).1 = nextQuestionId st.
Proof.
  unfold awaitResult. destruct (is_reference ref); [|done].
  destruct (find_call _ _) as [[k' q]|]; [|done].
  destruct (done q); [done|]. by destruct (promise q).
Qed.

Lemma step_ids_allocated st e : ids_allocated st → ids_allocated (step st e).1.
Proof.
  intros [Hpos Hkeys]. destruct e as [|r|f|method params|method params|ref]; simpl.
  - done.
  - done.
  - split; [by rewrite onmessage_counter|]. intros k Hk.
    rewrite onmessage_counter. apply Hkeys.
    destruct (onmessage_table f st) as [Heq|(msg & k' & q & _ & _ & _ & Heq)];
      rewrite Heq in Hk; [done|].
    destruct (decide (k' = k)) as [->|Hne].
    + rewrite lookup_delete_eq in Hk. by destruct Hk.
    + by rewrite lookup_delete_ne in Hk.
  - unfold callRPC. destruct (socket_open st); simpl; [|done].
    split; simpl; [lia|]. intros k Hk.
    destruct (decide (KNum (nextQuestionId st) = k)) as [<-|Hne].
    + exists (nextQuestionId st). split; [done|lia].
    + rewrite lookup_insert_ne in Hk by done.
      destruct (Hkeys k Hk) as (n & -> & Hn). exists n. split; [done|lia].
  - unfold callPipelined. destruct (socket_open st); simpl; [|done].
    split; simpl; [lia|]. intros k Hk.
    destruct (decide (KNum (nextQuestionId st) = k)) as [<-|Hne].
    + exists (nextQuestionId st). split; [done|lia].
    + rewrite lookup_insert_ne in Hk by done.
      destruct (Hkeys k Hk) as (n & -> & Hn). exists n. split; [done|lia].
  - split; [by rewrite awaitResult_counter|]. intros k Hk.
    rewrite awaitResult_counter. apply Hkeys. by apply awaitResult_table in Hk.
Qed.

Lemma run_ids_allocated st evs : ids_allocated st → ids_allocated (run st evs).1.
Proof.
  revert st. induction evs as [|e evs IH]; intros st Hst; [done|].
  simpl. pose proof (step_ids_allocated st e Hst) as H1.
  destruct (step st e) as [st1 out1]. specialize (IH st1 H1).
  by destruct (run st1 evs).
Qed.

Lemma init_ids_allocated : ids_allocated init.
Proof. split; [done|]. intros k [q Hq]. simpl in Hq. by rewrite lookup_empty in Hq. Qed.

Lemma issuer_run_app st evs1 evs2 :
  (run st (evs1 ++ evs2)).1 = (run (run st evs1).1 evs2).1.
Proof.
  revert st. induction evs1 as [|e evs1 IH]; intros st; simpl.
  - done.
  - destruct (step st e) as [st1 out1]. specialize (IH st1).
    destruct (run st1 (evs1 ++ evs2)), (run st1 evs1) as [st2 out2]. simpl in *.
    by destruct (run st2 evs2).
Qed.

Lemma sentinel_not_in_flight st :
  ids_allocated st →
  awaitResult (reference (VNum (-1))) st = (st, Throws "No call in flight for #-1").
Proof.
  intros [_ Hkeys]. unfold awaitResult. simpl.
  destruct (find_call _ _) as [[k q]|] eqn:E; [|done].
  apply find_call_Some in E as [[= <-] Hq].
  destruct (Hkeys (KNum (-1))) as (n & [= <-] & Hn); [by rewrite Hq|lia].
Qed.

End IssuerFacts.

(** C10. While the socket is not open, [callPipelined] sends nothing,
    registers nothing and returns [{resultOf: -1}]; whatever the page does
    afterwards, [awaitResult] on that reference throws "No call in flight"
    at once instead of waiting. *)
Theorem callPipelined_on_closed_socket evs method params :
  Issuer.socket_open (Issuer.run Issuer.init evs).1 = false →
  Issuer.callPipelined method params (Issuer.run Issuer.init evs).1 =
    ((Issuer.run Issuer.init evs).1, reference (VNum (-1)), []) ∧
  ∀ evs',
    Issuer.awaitResult (reference (VNum (-1)))
      (Issuer.run (Issuer.run Issuer.init evs).1 evs').1 =
    ((Issuer.run (Issuer.run Issuer.init evs).1 evs').1,
     Issuer.Throws "No call in flight for #-1").
Proof.
  intros Hclosed. split.
  - unfold Issuer.callPipelined. by rewrite Hclosed.
  - intros evs'. apply IssuerFacts.sentinel_not_in_flight.
    rewrite <-IssuerFacts.issuer_run_app.
    apply IssuerFacts.run_ids_allocated, IssuerFacts.init_ids_allocated.
Qed.

(** The page calls before the socket has opened; the socket opens and two
    Calls are issued before the sentinel is awaited. *)
Lemma callPipelined_on_closed_socket_witness :
  Issuer.callPipelined (VStr "makeGreeting") (VArr [VStr "Alice"])
    (Issuer.run Issuer.init [Issuer.InitWebSocket]).1 =
    ((Issuer.run Issuer.init [Issuer.InitWebSocket]).1, reference (VNum (-1)), []) ∧
  Issuer.awaitResult (reference (VNum (-1)))
    (Issuer.run (Issuer.run Issuer.init [Issuer.InitWebSocket]).1
       [Issuer.ReadyState Issuer.OPEN;
        Issuer.CallPipelined (VStr "makeGreeting") (VArr [VStr "Alice"]);
        Issuer.CallRPC (VStr "appendSuffix") (VArr [VStr "a"; VStr "b"])]).1 =
    ((Issuer.run (Issuer.run Issuer.init [Issuer.InitWebSocket]).1
        [Issuer.ReadyState Issuer.OPEN;
         Issuer.CallPipelined (VStr "makeGreeting") (VArr [VStr "Alice"]);
         Issuer.CallRPC (VStr "appendSuffix") (VArr [VStr "a"; VStr "b"])]).1,
     Issuer.Throws "No call in flight for #-1").
Proof.
  destruct (callPipelined_on_closed_socket [Issuer.InitWebSocket]
              (VStr "makeGreeting") (VArr [VStr "Alice"])) as [Hcall Hawait];
    [reflexivity|].
  split; [exact Hcall|]. apply Hawait.
Defined.

Lemma issuer_entry_removed_only_by_answer (ist : Issuer.state) e k :
  is_Some (Issuer.callsInFlight ist !! k) →
  Issuer.callsInFlight (Issuer.step ist e).1 !! k = None →
  ∃ msg, e = Issuer.Receive (Decoded msg) ∧
         (get_field "type" msg = VStr "return" ∨
          get_field "type" msg = VStr "exception") ∧
         prim_key (get_field "answerId" msg) = Some k.
Proof.
  intros [q Hq] Hgone.
  destruct e as [|r|f|method params|method params|ref]; simpl in Hgone.
  - congruence.
  - congruence.
  - destruct (IssuerFacts.onmessage_table f ist)
      as [Heq|(msg & k' & q' & -> & Htype & Hfind & Heq)];
      rewrite Heq in Hgone; [congruence|].
    apply IssuerFacts.find_call_Some in Hfind as [Hk' _].
    destruct (decide (k' = k)) as [->|Hne]; [by exists msg|].
    rewrite lookup_delete_ne in Hgone by done. congruence.
  - unfold Issuer.callRPC in Hgone.
    destruct (Issuer.socket_open ist); simpl in Hgone; [|congruence].
    destruct (decide (KNum (Issuer.nextQuestionId ist) = k)) as [<-|Hne].
    + by rewrite lookup_insert_eq in Hgone.
    + rewrite lookup_insert_ne in Hgone by done. congruence.
  - unfold Issuer.callPipelined in Hgone.
    destruct (Issuer.socket_open ist); simpl in Hgone; [|congruence].
    destruct (decide (KNum (Issuer.nextQuestionId ist) = k)) as [<-|Hne].
    + by rewrite lookup_insert_eq in Hgone.
    + rewrite lookup_insert_ne in Hgone by done. congruence.
  - assert (is_Some (Issuer.callsInFlight (Issuer.awaitResult ref ist).1 !! k))
      as [q' Hq'] by (apply IssuerFacts.awaitResult_table; by eexists).
    congruence.
Qed.

Lemma issuer_entry_removed_by_answer (ist : Issuer.state) msg k :
  get_field "type" msg = VStr "return" ∨
  (get_field "type" msg = VStr "exception" ∧
   convertible (get_field "error" msg) = true) →
  prim_key (get_field "answerId" msg) = Some k →
  Issuer.callsInFlight (Issuer.step ist (Issuer.Receive (Decoded msg))).1 !! k = None.
Proof.
  intros Htype Hk.
  assert (Issuer.find_call (Issuer.callsInFlight ist) (get_field "answerId" msg)
          = match Issuer.callsInFlight ist !! k with
            | Some q => Some (k, q)
            | None => None
            end) as Hfind.
  { unfold Issuer.find_call. rewrite Hk. simpl.
    by destruct (Issuer.callsInFlight ist !! k). }
  simpl. destruct Htype as [-> | [-> Herr]]; simpl; rewrite Hfind;
    destruct (Issuer.callsInFlight ist !! k) as [q|] eqn:E; simpl;
    try done; try by rewrite lookup_delete_eq.
  rewrite Herr. destruct (Issuer.settles q); simpl; by rewrite lookup_delete_eq.
Qed.

(** C5 as the code has it: the worker never removes an entry of
    [questionsInFlight], whatever it receives and whichever timers elapse;
    the page keeps an entry of [callsInFlight] through every event except
    the arrival of the Return or Exception carrying its id, and that
    arrival deletes it (for an Exception, provided its [error] can be made
    the message of an [Error], as the string the worker sends can). *)
Theorem entries_persist_on_worker_and_until_answer_on_issuer :
  (∀ st evs k,
     is_Some (questionsInFlight st !! k) →
     is_Some (questionsInFlight (run st evs).1 !! k)) ∧
  (∀ (ist : Issuer.state) e k,
     is_Some (Issuer.callsInFlight ist !! k) →
     Issuer.callsInFlight (Issuer.step ist e).1 !! k = None →
     ∃ msg, e = Issuer.Receive (Decoded msg) ∧
            (get_field "type" msg = VStr "return" ∨
             get_field "type" msg = VStr "exception") ∧
            prim_key (get_field "answerId" msg) = Some k) ∧
  (∀ (ist : Issuer.state) msg k,
     get_field "type" msg = VStr "return" ∨
     (get_field "type" msg = VStr "exception" ∧
      convertible (get_field "error" msg) = true) →
     prim_key (get_field "answerId" msg) = Some k →
     Issuer.callsInFlight (Issuer.step ist (Issuer.Receive (Decoded msg))).1 !! k
     = None).
Proof.
  split; [intros st evs k; apply run_keeps|].
  split; [exact issuer_entry_removed_only_by_answer|].
  exact issuer_entry_removed_by_answer.
Qed.

Lemma entries_persist_on_worker_and_until_answer_on_issuer_witness :
  is_Some (questionsInFlight
             (run Pipelined.greeting_running [Timeout 0; Message Undecodable]).1
           !! KNum 1) ∧
  Issuer.callsInFlight
    (Issuer.step greeting_issued (Issuer.Receive (Decoded greeting_returned))).1
    !! KNum 1 = None.
Proof.
  destruct entries_persist_on_worker_and_until_answer_on_issuer
    as (Hworker & _ & Hissuer).
  split.
  - apply (Hworker Pipelined.greeting_running
             [Timeout 0; Message Undecodable] (KNum 1)).
    vm_compute. eexists. reflexivity.
  - apply (Hissuer greeting_issued greeting_returned (KNum 1)).
    + left. reflexivity.
    + reflexivity.
Defined.

(** C5 as stated fails on the issuing side: the entry of question 1 is in
    [callsInFlight] once the Call is sent and is gone once its Return has
    been processed. *)
Lemma issuer_entry_destroyed_by_return :
  is_Some (Issuer.callsInFlight greeting_issued !! KNum 1) ∧
  Issuer.callsInFlight
    (Issuer.step greeting_issued (Issuer.Receive (Decoded greeting_returned))).1
    !! KNum 1 = None.
Proof. split; [vm_compute; by eexists|by vm_compute]. Qed.

(** C1 as the code has it: Call #1 [makeGreeting("Alice")] and Call #2
    [appendSuffix({resultOf: 1}, "!!!")] arrive in this order, with any
    timeouts before, between and after them.  Once the timers have elapsed
    nothing is pending, and the frames sent are the Return of #1 with
    "Hello, Alice!" and the Return of #2 with "Hello, Alice!!!!": the
    greeting, which ends in one mark, followed by the three of the suffix. *)
Theorem pipelined_calls_return (pre mid post : list nat) :
  let '(st, out) :=
    run init ((Timeout <$> pre) ++ Message Pipelined.call_greeting ::
              (Timeout <$> mid) ++ Message Pipelined.call_suffix ::
              (Timeout <$> post)) in
  let '(st', out') := drain 2 st in
  timers st' = [] ∧ suspended st' = [] ∧
  out ++ out' = [Return (VNum 1) (VStr "Hello, Alice!");
                 Return (VNum 2) (VStr "Hello, Alice!!!!")].
Proof.
  rewrite run_app, PipelinedFacts.before_greeting. cbn [run].
  change (step init (Message Pipelined.call_greeting)) with (Pipelined.greeting_running, @nil reply).
  cbv beta iota zeta. rewrite run_app.
  destruct (PipelinedFacts.between_calls mid) as [-> | ->]; cbn [run]; cbv beta iota zeta.
  - change (step Pipelined.greeting_running (Message Pipelined.call_suffix))
      with (Pipelined.suffix_waiting, @nil reply). cbv beta iota zeta.
    destruct (run_timeouts_bounded Pipelined.suffix_waiting post 2 PipelinedFacts.calm_suffix_waiting)
      as (n & Hn & ->); [by vm_compute|].
    assert (n = 0 ∨ n = 1 ∨ n = 2) as [-> | [-> | ->]] by lia; by vm_compute.
  - change (step Pipelined.greeting_done (Message Pipelined.call_suffix))
      with (Pipelined.suffix_running, @nil reply). cbv beta iota zeta.
    destruct (run_timeouts_bounded Pipelined.suffix_running post 1 PipelinedFacts.calm_suffix_running)
      as (n & Hn & ->); [by vm_compute|].
    assert (n = 0 ∨ n = 1) as [-> | ->] by lia; by vm_compute.
Qed.

(** C1 as stated fails: both Calls are answered and nothing is left
    pending, yet no Return carries "Hello, Alice!!!". *)
Lemma pipelined_suffix_has_four_marks :
  let '(st, out) :=
    run init [Message Pipelined.call_greeting; Message Pipelined.call_suffix;
              Timeout 0; Timeout 0] in
  timers st = [] ∧ suspended st = [] ∧
  out = [Return (VNum 1) (VStr "Hello, Alice!");
         Return (VNum 2) (VStr "Hello, Alice!!!!")] ∧
  Return (VNum 2) (VStr "Hello, Alice!!!") ∉ out.
Proof.
  vm_compute. split; [done|]. split; [done|]. split; [done|].
  intros H. repeat (apply elem_of_cons in H as [H|H]; [discriminate H|]).
  by apply elem_of_nil in H.
Qed.

(** ** Invariants of the worker *)

Lemma promoted_refl tbl : promoted tbl tbl.
Proof. intros k. by left. Qed.

Lemma promoted_trans tbl1 tbl2 tbl3 :
  promoted tbl1 tbl2 → promoted tbl2 tbl3 → promoted tbl1 tbl3.
Proof.
  intros H12 H23 k. destruct (H23 k) as [->|(q & Hq & Hd & Hp & Hq')]; [apply H12|].
  destruct (H12 k) as [Heq|(q0 & Hq0 & _ & _ & Heq)].
  - right. exists q. by rewrite <-Heq.
  - rewrite Heq in Hq. injection Hq as <-. done.
Qed.

Lemma promoted_is_Some tbl tbl' k :
  promoted tbl tbl' → is_Some (tbl !! k) → is_Some (tbl' !! k).
Proof.
  intros H Hk. destruct (H k) as [->|(q & _ & _ & _ & ->)]; [done|by eexists].
Qed.

Lemma promoted_awaited tbl tbl' k :
  promoted tbl tbl' → awaited_pending tbl k → awaited_pending tbl' k.
Proof.
  intros H (q & Hq & Hd & Hp). destruct (H k) as [Heq|(q0 & Hq0 & _ & Hp0 & _)].
  - exists q. by rewrite Heq.
  - rewrite Hq in Hq0. injection Hq0 as <-. congruence.
Qed.

Lemma promoted_settled tbl tbl' :
  promoted tbl tbl' →
  (∀ k q v, tbl !! k = Some q → promise q = PromiseResolved v → done q = true) →
  ∀ k q v, tbl' !! k = Some q → promise q = PromiseResolved v → done q = true.
Proof.
  intros H Hs k q v Hq Hp. destruct (H k) as [Heq|(q0 & _ & _ & _ & Heq)].
  - rewrite Heq in Hq. by eapply Hs.
  - rewrite Heq in Hq. injection Hq as <-. done.
Qed.

Lemma maybeResolveParam_promoted tbl param :
  promoted tbl (maybeResolveParam tbl param).1.
Proof.
  intros k. destruct (maybeResolveParam_lookup tbl param k) as [?|(q & ? & ? & ? & ?)];
    [by left|right; by exists q].
Qed.

Lemma resolve_params_promoted tbl params :
  promoted tbl (resolve_params tbl params).1.
Proof.
  revert tbl. induction params as [|p ps IH]; intros tbl; [apply promoted_refl|].
  simpl. pose proof (maybeResolveParam_promoted tbl p) as H1.
  destruct (maybeResolveParam tbl p) as [tbl1 o]. specialize (IH tbl1).
  destruct (resolve_params tbl1 ps) as [tbl2 os]. simpl in *.
  by eapply promoted_trans.
Qed.

Lemma maybeResolveParam_awaiting tbl param k :
  (maybeResolveParam tbl param).2 = Awaiting k →
  awaited_pending (maybeResolveParam tbl param).1 k.
Proof.
  unfold maybeResolveParam. destruct (is_reference param); [|done].
  destruct (convertible _); [|done].
  destruct (find_question tbl _) as [[k' q]|] eqn:E; [|done].
  apply find_question_Some in E as [_ Hq].
  destruct (done q) eqn:Hd; [done|]. destruct (promise q) eqn:Hp; [| |done].
  - intros [= <-]. simpl. eexists. by rewrite lookup_insert_eq.
  - intros [= <-]. by exists q.
Qed.

Lemma resolve_params_awaiting tbl params k :
  Awaiting k ∈ (resolve_params tbl params).2 →
  awaited_pending (resolve_params tbl params).1 k.
Proof.
  revert tbl. induction params as [|p ps IH]; intros tbl; simpl.
  - intros H. by apply elem_of_nil in H.
  - pose proof (maybeResolveParam_awaiting tbl p k) as H1.
    destruct (maybeResolveParam tbl p) as [tbl1 o]. specialize (IH tbl1).
    pose proof (resolve_params_promoted tbl1 ps) as H2.
    destruct (resolve_params tbl1 ps) as [tbl2 os]. simpl in *.
    intros [<-|Hin]%elem_of_cons; [|by apply IH].
    eapply promoted_awaited; [exact H2|]. by apply H1.
Qed.

Lemma promise_all_waiting os slots k :
  promise_all os = inr slots → Waiting k ∈ slots → Awaiting k ∈ os.
Proof.
  revert slots. induction os as [|o os IH]; intros slots; simpl.
  - intros [= <-] H. by apply elem_of_nil in H.
  - destruct o as [v|k'|m]; [| |done];
      destruct (promise_all os) as [m'|slots']; simpl; try done;
      intros [= <-] [H|H]%elem_of_cons; try done;
      try (right; by eapply IH).
    injection H as ->. left.
Qed.

Lemma all_ready_None slots :
  all_ready slots = None ↔ ∃ k, Waiting k ∈ slots.
Proof.
  induction slots as [|[v|k] slots IH]; simpl.
  - split; [done|]. intros [k H]. by apply elem_of_nil in H.
  - destruct (all_ready slots) as [vs|]; simpl.
    + split; [done|]. intros [k [H|H]%elem_of_cons]; [done|].
      assert (∃ k, Waiting k ∈ slots) as H' by eauto. by apply IH in H'.
    + split; [|done]. intros _. destruct IH as [[k Hk] _]; [done|].
      exists k. by right.
  - split; [|done]. intros _. exists k. left.
Qed.

Lemma settle_slot_waiting k v (slots : list slot) k' :
  Waiting k' ∈ settle_slot k v <$> slots ↔ k' ≠ k ∧ Waiting k' ∈ slots.
Proof.
  rewrite list_elem_of_fmap. split.
  - intros ([v'|k''] & Heq & Hin); simpl in Heq; [done|].
    destruct (decide (k'' = k)); [done|]. by injection Heq as ->.
  - intros [Hne Hin]. exists (Waiting k'). split; [|done].
    simpl. by destruct (decide (k' = k)).
Qed.

Lemma settle_slot_id k v (slots : list slot) :
  Waiting k ∉ slots → settle_slot k v <$> slots = slots.
Proof.
  induction slots as [|[v'|k'] slots IH]; intros Hnot; [done|..];
    rewrite fmap_cons, IH by (intros H; apply Hnot; by right); simpl; [done|].
  destruct (decide (k' = k)) as [->|]; [|done]. destruct Hnot. left.
Qed.

Lemma dispatch_cases questionId k method args st :
  (∃ h, method_handler method = Some h ∧ logs h args = true ∧
        dispatch questionId k method args st =
          ({| questionsInFlight := questionsInFlight st;
              suspended := suspended st;
              timers := timers st ++ [Timer questionId k h args];
              objects := objects st |}, [])) ∨
  (∃ message,
     dispatch questionId k method args st = (st, [Exception questionId message])).
Proof.
  unfold dispatch. destruct (method_handler method) as [h|]; [|right; by eexists].
  destruct (logs h args) eqn:E; [left; by exists h|right; by eexists].
Qed.

Lemma resume_step k v t ts st :
  resume k v (t :: ts) st =
  let '(st1, out1) :=
    match all_ready (t_slots (resumed k v t)) with
    | Some args => dispatch (t_questionId t) (t_key t) (t_method t) args st
    | None => (suspend (resumed k v t) st, [])
    end in
  let '(st2, out2) := resume k v ts st1 in
  (st2, out1 ++ out2).
Proof. done. Qed.

Lemma resume_suspended k v ts st t' :
  t' ∈ suspended (resume k v ts st).1 ↔
  t' ∈ suspended st ∨
  ∃ t, t ∈ ts ∧ t' = resumed k v t ∧ all_ready (t_slots (resumed k v t)) = None.
Proof.
  revert st. induction ts as [|t ts IH]; intros st.
  - simpl. split; [by left|]. intros [?|(t & Hin & _)]; [done|].
    by apply elem_of_nil in Hin.
  - rewrite resume_step.
    destruct (all_ready (t_slots (resumed k v t))) as [args|] eqn:E.
    + destruct (dispatch _ _ _ args st) as [st1 out1] eqn:Ed.
      assert (suspended st1 = suspended st) as Hs.
      { destruct (dispatch_cases (t_questionId t) (t_key t) (t_method t) args st)
          as [(h & _ & _ & Hd)|(m & Hd)]; rewrite Hd in Ed; by injection Ed as <- <-. }
      specialize (IH st1). destruct (resume k v ts st1) as [st2 out2].
      simpl in *. rewrite IH, Hs. split.
      * intros [?|(t0 & Hin & ? & ?)]; [by left|]. right. exists t0.
        split; [by right|done].
      * intros [?|(t0 & [->|Hin]%elem_of_cons & ? & ?)]; [by left|congruence|].
        right. by exists t0.
    + specialize (IH (suspend (resumed k v t) st)).
      destruct (resume k v ts _) as [st2 out2]. simpl in *.
      rewrite IH, elem_of_app, list_elem_of_singleton. split.
      * intros [[?| ->]|(t0 & Hin & ? & ?)]; [by left| |].
        -- right. exists t. split; [left|done].
        -- right. exists t0. split; [by right|done].
      * intros [?|(t0 & [->|Hin]%elem_of_cons & -> & ?)]; [by left;left|by left;right|].
        right. by exists t0.
Qed.

Lemma resume_timers k v ts st tm :
  tm ∈ timers (resume k v ts st).1 →
  tm ∈ timers st ∨
  ∃ t h args, t ∈ ts ∧ all_ready (t_slots (resumed k v t)) = Some args ∧
              method_handler (t_method t) = Some h ∧
              tm = Timer (t_questionId t) (t_key t) h args.
Proof.
  revert st. induction ts as [|t ts IH]; intros st.
  - simpl. by left.
  - rewrite resume_step.
    destruct (all_ready (t_slots (resumed k v t))) as [args|] eqn:E.
    + destruct (dispatch_cases (t_questionId t) (t_key t) (t_method t) args st)
        as [(h & Em & _ & ->)|(m & ->)].
      * specialize (IH {| questionsInFlight := questionsInFlight st;
                          suspended := suspended st;
                          timers := timers st ++
                            [Timer (t_questionId t) (t_key t) h args];
                          objects := objects st |}).
        destruct (resume k v ts _) as [st2 out2]. simpl in *.
        intros [[?| ->%list_elem_of_singleton]%elem_of_app|(t0 & h0 & a0 & Hin & ?)]%IH.
        -- by left.
        -- right. exists t, h, args. split; [left|done].
        -- right. exists t0, h0, a0. split; [by right|done].
      * specialize (IH st). destruct (resume k v ts st) as [st2 out2]. simpl in *.
        intros [?|(t0 & h0 & a0 & Hin & ?)]%IH; [by left|].
        right. exists t0, h0, a0. split; [by right|done].
    + specialize (IH (suspend (resumed k v t) st)).
      destruct (resume k v ts _) as [st2 out2]. simpl in *.
      intros [?|(t0 & h0 & a0 & Hin & ?)]%IH; [by left|].
      right. exists t0, h0, a0. split; [by right|done].
Qed.

Lemma resume_replies k v ts st r :
  r ∈ (resume k v ts st).2 →
  ∃ t args message,
    t ∈ ts ∧ all_ready (t_slots (resumed k v t)) = Some args ∧
    r = Exception (t_questionId t) message.
Proof.
  revert st. induction ts as [|t ts IH]; intros st.
  - simpl. intros H. by apply elem_of_nil in H.
  - rewrite resume_step.
    destruct (all_ready (t_slots (resumed k v t))) as [args|] eqn:E.
    + destruct (dispatch_cases (t_questionId t) (t_key t) (t_method t) args st)
        as [(h & Em & _ & ->)|(m0 & ->)].
      * specialize (IH {| questionsInFlight := questionsInFlight st;
                          suspended := suspended st;
                          timers := timers st ++
                            [Timer (t_questionId t) (t_key t) h args];
                          objects := objects st |}).
        destruct (resume k v ts _) as [st2 out2]. simpl in *.
        intros (t0 & a0 & m & Hin & ?)%IH. exists t0, a0, m. split; [by right|done].
      * specialize (IH st). destruct (resume k v ts st) as [st2 out2]. simpl in *.
        intros [->|(t0 & a0 & m & Hin & ?)%IH]%elem_of_cons.
        -- eexists t, args, _. split; [left|done].
        -- exists t0, a0, m. split; [by right|done].
    + specialize (IH (suspend (resumed k v t) st)).
      destruct (resume k v ts _) as [st2 out2]. simpl in *.
      intros (t0 & a0 & m & Hin & ?)%IH. exists t0, a0, m. split; [by right|done].
Qed.

(** Nothing happens when no suspended handler waits for [k]. *)
Lemma resume_no_waiter k v ts st :
  (∀ t, t ∈ ts → (Waiting k ∉ t_slots t) ∧ all_ready (t_slots t) = None) →
  resume k v ts st =
  ({| questionsInFlight := questionsInFlight st;
      suspended := suspended st ++ ts;
      timers := timers st; objects := objects st |}, []).
Proof.
  revert st. induction ts as [|t ts IH]; intros st Hts.
  - simpl. rewrite app_nil_r. by destruct st.
  - rewrite resume_step. destruct (Hts t) as [Hnot Hblocked]; [left|].
    assert (resumed k v t = t) as ->.
    { unfold resumed. rewrite settle_slot_id by done. by destruct t. }
    rewrite Hblocked. rewrite IH by (intros t0 Hin; apply Hts; by right).
    simpl. by rewrite <-app_assoc.
Qed.

(** A handler that was blocked and is ready once [k] has given its result
    was waiting for [k]. *)
Lemma settle_slot_wakes k v (slots : list slot) args :
  all_ready slots = None →
  all_ready (settle_slot k v <$> slots) = Some args →
  Waiting k ∈ slots.
Proof.
  revert args. induction slots as [|[x|k'] slots IH]; intros args; [done|..].
  - rewrite fmap_cons. simpl.
    destruct (all_ready slots) as [vs|]; [done|]. intros _.
    destruct (all_ready (settle_slot k v <$> slots)) as [vs'|] eqn:E; [|done].
    intros _. right. by eapply IH.
  - intros _. rewrite fmap_cons. simpl.
    destruct (decide (k' = k)) as [->|Hne]; [left|done].
Qed.

(** The frames of woken handlers, with the reason of each. *)
Lemma resume_failures k v ts st r :
  r ∈ (resume k v ts st).2 →
  ∃ t args,
    t ∈ ts ∧ all_ready (t_slots (resumed k v t)) = Some args ∧
    ((method_handler (t_method t) = None ∧
      r = Exception (t_questionId t)
            ("Unknown method " +:+ dquote +:+ to_string (t_method t) +:+ dquote)) ∨
     (∃ h, method_handler (t_method t) = Some h ∧ logs h args = false ∧
           r = Exception (t_questionId t) primitive_error)).
Proof.
  revert st. induction ts as [|t ts IH]; intros st.
  - simpl. intros H. by apply elem_of_nil in H.
  - rewrite resume_step.
    destruct (all_ready (t_slots (resumed k v t))) as [args|] eqn:E.
    + destruct (dispatch (t_questionId t) (t_key t) (t_method t) args st)
        as [st1 out1] eqn:Ed.
      specialize (IH st1). destruct (resume k v ts st1) as [st2 out2].
      simpl in *. intros [Hr|Hr]%elem_of_app.
      * exists t, args. split; [left|]. split; [done|].
        unfold dispatch in Ed.
        destruct (method_handler (t_method t)) as [h|] eqn:Em.
        -- destruct (logs h args) eqn:El; injection Ed as <- <-.
           ++ by apply elem_of_nil in Hr.
           ++ apply list_elem_of_singleton in Hr as ->. right. by exists h.
        -- injection Ed as <- <-. apply list_elem_of_singleton in Hr as ->.
           by left.
      * destruct (IH Hr) as (t0 & a0 & Hin & ?). exists t0, a0.
        split; [by right|done].
    + specialize (IH (suspend (resumed k v t) st)).
      destruct (resume k v ts _) as [st2 out2]. simpl in *. intros Hr.
      destruct (IH Hr) as (t0 & a0 & Hin & ?). exists t0, a0.
      split; [by right|done].
Qed.


Lemma wf_init : wf init.
Proof.
  split; simpl; try (intros t H; by apply elem_of_nil in H);
    try (intros t k H; by apply elem_of_nil in H).
  intros k q v H. by rewrite lookup_empty in H.
Qed.

(** A step that only adds keys and promises keeps the invariant, provided
    what it adds to the timers and to the suspended handlers is sound. *)
Lemma wf_change st st' :
  wf st →
  (∀ k, is_Some (questionsInFlight st !! k) → is_Some (questionsInFlight st' !! k)) →
  (∀ k, awaited_pending (questionsInFlight st) k →
        awaited_pending (questionsInFlight st') k) →
  (∀ k q v, questionsInFlight st' !! k = Some q →
            promise q = PromiseResolved v → done q = true) →
  (∀ t, t ∈ timers st' →
        t ∈ timers st ∨ is_Some (questionsInFlight st' !! tm_key t)) →
  (∀ t, t ∈ suspended st' →
        t ∈ suspended st ∨
        (is_Some (questionsInFlight st' !! t_key t) ∧
         (∀ k, Waiting k ∈ t_slots t → awaited_pending (questionsInFlight st') k) ∧
         all_ready (t_slots t) = None)) →
  wf st'.
Proof.
  intros [Htm Hts Hw Hb Hs] Hkeep Hawait Hsettled Htimers Htasks. split.
  - intros t [Hin|Hnew]%Htimers; [|done]. by apply Hkeep, Htm.
  - intros t [Hin|(Hnew & _)]%Htasks; [|done]. by apply Hkeep, Hts.
  - intros t k [Hin|(_ & Hnew & _)]%Htasks Hk; [|by apply Hnew].
    by eapply Hawait, Hw.
  - intros t [Hin|(_ & _ & Hnew)]%Htasks; [|done]. by apply Hb.
  - done.
Qed.

Lemma register_awaited k k' tbl :
  awaited_pending tbl k' → awaited_pending (register k tbl) k'.
Proof. intros (q & Hq & ?). exists q. split; [|done]. by apply register_lookup_Some. Qed.

Lemma register_settled k tbl :
  (∀ k' q v, tbl !! k' = Some q → promise q = PromiseResolved v → done q = true) →
  ∀ k' q v, register k tbl !! k' = Some q → promise q = PromiseResolved v →
            done q = true.
Proof.
  intros Hs k' q v. unfold register. destruct (tbl !! k) eqn:E; [apply Hs|].
  destruct (decide (k = k')) as [->|Hne].
  - rewrite lookup_insert_eq. by intros [= <-].
  - rewrite lookup_insert_ne by done. apply Hs.
Qed.

Lemma on_call_wf msg st : wf st → wf (on_call msg st).1.
Proof.
  intros Hwf. unfold on_call.
  set (k := question_key _ _).
  set (objs := match prim_key _ with Some _ => _ | None => _ end).
  set (tbl0 := register k (questionsInFlight st)).
  assert (∀ tbl', promoted tbl0 tbl' →
    (∀ k', is_Some (questionsInFlight st !! k') → is_Some (tbl' !! k')) ∧
    (∀ k', awaited_pending (questionsInFlight st) k' → awaited_pending tbl' k') ∧
    (∀ k' q v, tbl' !! k' = Some q → promise q = PromiseResolved v → done q = true) ∧
    is_Some (tbl' !! k)) as Htbl.
  { intros tbl' Hp. split; [|split; [|split]].
    - intros k' Hk'. by eapply promoted_is_Some, register_keeps.
    - intros k' Hk'. by eapply promoted_awaited, register_awaited.
    - eapply promoted_settled; [done|]. apply register_settled, Hwf.
    - eapply promoted_is_Some; [done|]. apply register_is_Some. }
  destruct (get_field "params" msg) as [| | | | | |ps|];
    try (destruct (Htbl tbl0 (promoted_refl _)) as (H1 & H2 & H3 & _);
         apply (wf_change st); simpl; [done|done|done|done|by left|by left]).
  pose proof (resolve_params_promoted tbl0 ps) as Hp.
  pose proof (resolve_params_awaiting tbl0 ps) as Ha.
  simpl. destruct (resolve_params tbl0 ps) as [tbl1 os]. simpl in Hp, Ha.
  destruct (Htbl tbl1 Hp) as (H1 & H2 & H3 & H4).
  destruct (promise_all os) as [message|slots] eqn:Eall.
  { apply (wf_change st); simpl; [done|done|done|done|by left|by left]. }
  destruct (all_ready slots) as [args|] eqn:Eready.
  - match goal with
    | |- context [dispatch ?a ?b ?c ?d ?e] =>
        destruct (dispatch_cases a b c d e) as [(h & _ & _ & ->)|(m & ->)]
    end; apply (wf_change st); simpl; try done; try (by left).
    intros t [?| ->%list_elem_of_singleton]%elem_of_app; [by left|by right].
  - apply (wf_change st); simpl; try done; try (by left).
    intros t [?| ->%list_elem_of_singleton]%elem_of_app; [by left|right].
    simpl. split; [done|]. split; [|done].
    intros k' Hk'. apply Ha. by eapply promise_all_waiting.
Qed.

Lemma finalizeQuestion_Some tbl k res tbl' woken :
  finalizeQuestion tbl k res = Some (tbl', woken) →
  ∃ q p,
    tbl !! k = Some q ∧
    tbl' = <[k := {| done := true; result := res; promise := p |}]> tbl ∧
    ((woken = true ∧ promise q = PromisePending ∧ p = PromiseResolved res) ∨
     (woken = false ∧ promise q ≠ PromisePending ∧ p = promise q)).
Proof.
  unfold finalizeQuestion. destruct (tbl !! k) as [q|]; [|done].
  destruct (promise q) eqn:Hp; intros [= <- <-]; eexists q, _;
    (split; [done|]); (split; [done|]); [right|left|right]; by rewrite ?Hp.
Qed.

Lemma on_timeout_wf i st : wf st → wf (on_timeout i st).1.
Proof.
  intros Hwf. unfold on_timeout.
  destruct (timers st !! i) as [t|] eqn:Et; [|done].
  assert (∀ tm, tm ∈ delete i (timers st) → tm ∈ timers st) as Hrest
    by (intros tm; apply list_elem_of_delete_inv).
  destruct (finalizeQuestion _ _ _) as [[tbl' woken]|] eqn:Ef.
  2:{ apply (wf_change st); simpl; try done; try apply Hwf; [|by left].
      intros tm Htm. left. by apply Hrest. }
  pose proof (finalizeQuestion_dom _ _ _ _ _ Ef) as Hdom.
  apply finalizeQuestion_Some in Ef as (q & p & Hq & -> & Hwoken).
  set (res := run_handler (tm_handler t) (tm_args t)) in *.
  set (tbl' := <[tm_key t := _]> (questionsInFlight st)) in *.
  assert (∀ k, is_Some (questionsInFlight st !! k) → is_Some (tbl' !! k)) as Hkeep.
  { intros k. rewrite <-!elem_of_dom. by rewrite Hdom. }
  assert (∀ k, k ≠ tm_key t → awaited_pending (questionsInFlight st) k →
               awaited_pending tbl' k) as Hawait.
  { intros k Hne (q0 & Hq0 & ?). exists q0. split; [|done].
    unfold tbl'. by rewrite lookup_insert_ne. }
  assert (∀ k q0 v, tbl' !! k = Some q0 → promise q0 = PromiseResolved v →
                    done q0 = true) as Hsettled.
  { intros k q0 v. unfold tbl'. destruct (decide (tm_key t = k)) as [<-|Hne].
    - rewrite lookup_insert_eq. by intros [= <-].
    - rewrite lookup_insert_ne by done. apply Hwf. }
  destruct Hwoken as [(-> & Hp & ->)|(-> & Hp & ->)].
  - pose proof (resume_table (tm_key t) res (suspended st)
      {| questionsInFlight := tbl'; suspended := [];
         timers := delete i (timers st); objects := objects st |}) as Htable.
    pose proof (resume_suspended (tm_key t) res (suspended st)
      {| questionsInFlight := tbl'; suspended := [];
         timers := delete i (timers st); objects := objects st |}) as Hsusp.
    pose proof (resume_timers (tm_key t) res (suspended st)
      {| questionsInFlight := tbl'; suspended := [];
         timers := delete i (timers st); objects := objects st |}) as Htimers.
    destruct (resume _ _ _ _) as [st1 out]. simpl in *.
    split; rewrite ?Htable.
    + intros tm [Hin|(t0 & h & args & Hin & _ & _ & ->)]%Htimers; simpl.
      * by apply Hkeep, Hwf, Hrest.
      * by apply Hkeep, Hwf.
    + intros t1 [Hin|(t0 & Hin & -> & _)]%Hsusp; [by apply elem_of_nil in Hin|].
      simpl. by apply Hkeep, Hwf.
    + intros t1 k [Hin|(t0 & Hin & -> & _)]%Hsusp Hk; [by apply elem_of_nil in Hin|].
      simpl in Hk. apply settle_slot_waiting in Hk as [Hne Hk].
      apply Hawait; [done|]. by eapply (wf_waiting st).
    + intros t1 [Hin|(t0 & Hin & -> & Hb)]%Hsusp; [by apply elem_of_nil in Hin|done].
    + done.
  - simpl. split; simpl.
    + intros tm Htm. by apply Hkeep, Hwf, Hrest.
    + intros t1 Hin. by apply Hkeep, Hwf.
    + intros t1 k Hin Hk. pose proof (wf_waiting st Hwf t1 k Hin Hk) as Hpend.
      apply Hawait; [|done]. intros ->.
      destruct Hpend as (q0 & Hq0 & _ & Hp0). congruence.
    + apply Hwf.
    + done.
Qed.

Lemma step_wf st e : wf st → wf (step st e).1.
Proof.
  destruct e as [[|msg]|i]; simpl; [done| |apply on_timeout_wf].
  destruct (is_call msg && announced msg); [apply on_call_wf|done].
Qed.

Lemma run_wf st evs : wf st → wf (run st evs).1.
Proof.
  revert st. induction evs as [|e evs IH]; intros st Hwf; [done|].
  simpl. pose proof (step_wf st e Hwf) as H1.
  destruct (step st e) as [st1 out1]. specialize (IH st1 H1).
  by destruct (run st1 evs).
Qed.

(** ** A rejected Call leaves the others as they were *)

Lemma promoted_agrees tbl tbl' : promoted tbl tbl' → agrees tbl tbl'.
Proof.
  intros H k q Hq. destruct (H k) as [Heq|(q0 & Hq0 & Hd & Hp & Heq)].
  - exists q. rewrite Heq. auto.
  - rewrite Hq in Hq0. injection Hq0 as <-. eexists. split; [done|].
    simpl. rewrite Hd. auto.
Qed.

Lemma register_agrees k tbl : agrees tbl (register k tbl).
Proof. intros k' q Hq. exists q. split; [by apply register_lookup_Some|auto]. Qed.

Lemma agrees_trans tbl1 tbl2 tbl3 :
  agrees tbl1 tbl2 → agrees tbl2 tbl3 → agrees tbl1 tbl3.
Proof.
  intros H12 H23 k q Hq.
  destruct (H12 k q Hq) as (q2 & Hq2 & Hd2 & Hr2 & Hp2).
  destruct (H23 k q2 Hq2) as (q3 & Hq3 & Hd3 & Hr3 & Hp3).
  exists q3. split; [done|]. split; [congruence|]. split; [congruence|].
  destruct Hp2 as [Hp2|Hp2]; [|by right].
  destruct Hp3 as [Hp3|Hp3]; [left|right]; congruence.
Qed.

Lemma on_call_agrees msg st :
  agrees (questionsInFlight st) (questionsInFlight (on_call msg st).1).
Proof.
  unfold on_call. set (k := question_key _ _).
  destruct (get_field "params" msg) as [| | | | | |ps|]; simpl;
    try apply register_agrees.
  pose proof (resolve_params_promoted (register k (questionsInFlight st)) ps) as Hp.
  destruct (resolve_params _ ps) as [tbl1 os]. simpl in Hp.
  assert (agrees (questionsInFlight st) tbl1) as Ha.
  { eapply agrees_trans; [apply register_agrees|by apply promoted_agrees]. }
  destruct (promise_all os) as [message|slots]; [done|].
  destruct (all_ready slots) as [args|]; [|done].
  by rewrite dispatch_table.
Qed.

(** What [resume] sends, suspends and starts does not depend on the table. *)
Lemma resume_similar k v ts st st' :
  suspended st' = suspended st → timers st' = timers st →
  (resume k v ts st').2 = (resume k v ts st).2 ∧
  suspended (resume k v ts st').1 = suspended (resume k v ts st).1 ∧
  timers (resume k v ts st').1 = timers (resume k v ts st).1.
Proof.
  revert st st'. induction ts as [|t ts IH]; intros st st' Hs Ht; [done|].
  rewrite !resume_step.
  destruct (all_ready (t_slots (resumed k v t))) as [args|].
  - unfold dispatch. destruct (method_handler (t_method t)) as [h|];
      [destruct (logs h args)|].
    + destruct (IH {| questionsInFlight := questionsInFlight st;
                      suspended := suspended st;
                      timers := timers st ++
                        [Timer (t_questionId t) (t_key t) h args];
                      objects := objects st |}
                   {| questionsInFlight := questionsInFlight st';
                      suspended := suspended st';
                      timers := timers st' ++
                        [Timer (t_questionId t) (t_key t) h args];
                      objects := objects st' |})
        as (H1 & H2 & H3); [done|simpl; by rewrite Ht|].
      do 2 destruct (resume k v ts _). simpl in *. by rewrite H1.
    + destruct (IH st st') as (H1 & H2 & H3); [done..|].
      destruct (resume k v ts st), (resume k v ts st'). simpl in *. by rewrite H1.
    + destruct (IH st st') as (H1 & H2 & H3); [done..|].
      destruct (resume k v ts st), (resume k v ts st'). simpl in *. by rewrite H1.
  - destruct (IH (suspend (resumed k v t) st) (suspend (resumed k v t) st'))
      as (H1 & H2 & H3); [simpl; by rewrite Hs|done|].
    do 2 destruct (resume k v ts _). simpl in *. by rewrite H1.
Qed.

Lemma on_timeout_similar i st st' :
  wf st → similar st st' →
  (on_timeout i st').2 = (on_timeout i st).2 ∧
  similar (on_timeout i st).1 (on_timeout i st').1.
Proof.
  intros Hwf [Hs Ht Ha]. unfold on_timeout. rewrite Ht.
  destruct (timers st !! i) as [t|] eqn:Et; [|done].
  assert (t ∈ timers st) as Hin by by eapply list_elem_of_lookup_2.
  destruct (wf_timers st Hwf t Hin) as [q Hq].
  destruct (Ha _ _ Hq) as (q' & Hq' & Hd & Hr & Hp).
  set (res := run_handler (tm_handler t) (tm_args t)).
  assert (∀ p p', (p' = p ∨ p = PromiseNull) →
    agrees (<[tm_key t := {| done := true; result := res; promise := p |}]>
              (questionsInFlight st))
           (<[tm_key t := {| done := true; result := res; promise := p' |}]>
              (questionsInFlight st'))) as Hins.
  { intros p p' Hpp k q0. destruct (decide (tm_key t = k)) as [<-|Hne].
    - rewrite !lookup_insert_eq. intros [= <-]. eexists. split; [done|]. auto.
    - rewrite !lookup_insert_ne by done. apply Ha. }
  unfold finalizeQuestion. rewrite Hq, Hq'.
  destruct (promise q) eqn:Epq.
  - (* no promise on the entry of [st] *)
    assert (∀ t0, t0 ∈ suspended st →
              (Waiting (tm_key t) ∉ t_slots t0) ∧ all_ready (t_slots t0) = None)
      as Hnone.
    { intros t0 Hin0. split; [|by apply Hwf]. intros Hw.
      destruct (wf_waiting st Hwf t0 _ Hin0 Hw) as (q0 & Hq0 & _ & Hp0). congruence. }
    destruct (promise q') eqn:Epq'.
    + split; [done|]. split; simpl; [done|done|]. apply Hins. auto.
    + rewrite Hs, resume_no_waiter by done. simpl.
      split; [done|]. split; simpl; [done|done|]. apply Hins. auto.
    + split; [done|]. split; simpl; [done|done|]. apply Hins. auto.
  - destruct Hp as [Hp|Hp]; [|done]. rewrite Hp, Hs.
    destruct (resume_similar (tm_key t) res (suspended st)
      {| questionsInFlight :=
           <[tm_key t := {| done := true; result := res;
                            promise := PromiseResolved res |}]> (questionsInFlight st);
         suspended := []; timers := delete i (timers st); objects := objects st |}
      {| questionsInFlight :=
           <[tm_key t := {| done := true; result := res;
                            promise := PromiseResolved res |}]> (questionsInFlight st');
         suspended := []; timers := delete i (timers st); objects := objects st' |})
      as (H1 & H2 & H3); [done..|].
    pose proof (resume_table (tm_key t) res (suspended st)
      {| questionsInFlight :=
           <[tm_key t := {| done := true; result := res;
                            promise := PromiseResolved res |}]> (questionsInFlight st);
         suspended := []; timers := delete i (timers st); objects := objects st |}) as T1.
    pose proof (resume_table (tm_key t) res (suspended st)
      {| questionsInFlight :=
           <[tm_key t := {| done := true; result := res;
                            promise := PromiseResolved res |}]> (questionsInFlight st');
         suspended := []; timers := delete i (timers st); objects := objects st' |}) as T2.
    do 2 destruct (resume _ _ _ _). simpl in *.
    split; [by rewrite H1|]. split; [done|done|]. rewrite T1, T2. apply Hins. auto.
  - destruct Hp as [Hp|Hp]; [|done]. rewrite Hp.
    split; [done|]. split; simpl; [done|done|]. apply Hins. auto.
Qed.

Lemma run_timeouts_similar (l : list nat) st st' :
  wf st → similar st st' →
  (run st' (Timeout <$> l)).2 = (run st (Timeout <$> l)).2.
Proof.
  revert st st'. induction l as [|i l IH]; intros st st' Hwf Hsim; [done|].
  rewrite fmap_cons. cbn [run step].
  destruct (on_timeout_similar i st st' Hwf Hsim) as [Hout Hsim1].
  pose proof (on_timeout_wf i st Hwf) as Hwf1.
  destruct (on_timeout i st) as [st1 out1], (on_timeout i st') as [st1' out1'].
  simpl in *. specialize (IH st1 st1' Hwf1 Hsim1).
  destruct (run st1 _), (run st1' _). simpl in *. by rewrite Hout, IH.
Qed.

(** C6. A reference to an id that is not registered makes
    [maybeResolveParam] throw at once, without creating or awaiting any
    promise.  The Call that holds it (one whose id and method name the
    handler could log) is answered with exactly one Exception
    under its own id and is neither suspended nor started; the handlers in
    flight, the timers and every stored answer are as before, and whatever
    order the timers elapse in, the frames sent afterwards are those that
    would have been sent without that Call.  On the page, [awaitResult] on an
    id that is not in flight throws at once too. *)
Theorem unknown_reference_fails_only_its_call evs st msg params p :
  st = (run init evs).1 →
  is_call msg = true →
  announced msg = true →
  get_field "params" msg = VArr params →
  p ∈ params →
  is_reference p = true →
  find_question
    (register (question_key (objects st) (get_field "questionId" msg))
       (questionsInFlight st)) (get_field "resultOf" p) = None →
  (∀ tbl, find_question tbl (get_field "resultOf" p) = None →
     maybeResolveParam tbl p =
       (tbl, Thrown (if convertible (get_field "resultOf" p)
                     then "Reference to unknown call #" +:+
                          to_string (get_field "resultOf" p)
                     else primitive_error))) ∧
  (∃ message,
     (step st (Message (Decoded msg))).2 =
       [Exception (get_field "questionId" msg) message]) ∧
  suspended (step st (Message (Decoded msg))).1 = suspended st ∧
  timers (step st (Message (Decoded msg))).1 = timers st ∧
  (∀ k q, questionsInFlight st !! k = Some q →
     ∃ q', questionsInFlight (step st (Message (Decoded msg))).1 !! k = Some q' ∧
           done q' = done q ∧ result q' = result q) ∧
  (∀ l : list nat,
     (run (step st (Message (Decoded msg))).1 (Timeout <$> l)).2 =
     (run st (Timeout <$> l)).2) ∧
  (∀ (ist : Issuer.state) ref,
     is_reference ref = true →
     Issuer.find_call (Issuer.callsInFlight ist) (get_field "resultOf" ref) = None →
     Issuer.awaitResult ref ist =
       (ist, Issuer.Throws (if convertible (get_field "resultOf" ref)
                            then "No call in flight for #" +:+
                                 to_string (get_field "resultOf" ref)
                            else primitive_error))).
Proof.
  intros -> Hcall Hann Hps Hin Href Hunknown.
  set (st := (run init evs).1) in *.
  assert (wf st) as Hwf by apply run_wf, wf_init.
  set (tbl0 := register _ (questionsInFlight st)) in *.
  assert (is_Some (first_error tbl0 params)) as [message Hfirst].
  { destruct (convertible (get_field "resultOf" p)) eqn:Ec;
      (eapply first_error_elem; [done|]); unfold resolution_error;
      by rewrite Href, Ec, ?Hunknown. }
  destruct (on_call_rejected msg st params message Hps Hfirst) as (Hout & Hs & Ht).
  assert (similar st (step st (Message (Decoded msg))).1) as Hsim.
  { simpl. rewrite Hcall, Hann. simpl. split; [done|done|apply on_call_agrees]. }
  split.
  { intros tbl Hnone. unfold maybeResolveParam. rewrite Href, Hnone.
    by destruct (convertible _). }
  split; [exists message; simpl; by rewrite Hcall, Hann|].
  split; [simpl; by rewrite Hcall, Hann|].
  split; [simpl; by rewrite Hcall, Hann|].
  split.
  { intros k q Hq. destruct (sim_table _ _ Hsim k q Hq) as (q' & ? & ? & ? & _).
    by exists q'. }
  split; [intros l; by apply run_timeouts_similar|].
  intros ist ref Hr Hnone. unfold Issuer.awaitResult. by rewrite Hr, Hnone.
Qed.

(** While [makeGreeting] runs for question 1, a Call #2 refers to the
    unknown question 99: it alone fails, and question 1 is answered as if
    Call #2 had not come. *)
Lemma unknown_reference_fails_only_its_call_witness :
  (step Pipelined.greeting_running
     (Message (call (VNum 2) "appendSuffix" [reference (VNum 99); VStr "!"]))).2 =
    [Exception (VNum 2) "Reference to unknown call #99"] ∧
  (run (step Pipelined.greeting_running
          (Message (call (VNum 2) "appendSuffix" [reference (VNum 99); VStr "!"]))).1
       (Timeout <$> [0])).2 =
    [Return (VNum 1) (VStr "Hello, Alice!")].
Proof.
  destruct (unknown_reference_fails_only_its_call
              [Message Pipelined.call_greeting] Pipelined.greeting_running
              (VObj [("type", VStr "call"); ("questionId", VNum 2);
                     ("method", VStr "appendSuffix");
                     ("params", VArr [reference (VNum 99); VStr "!"])])
              [reference (VNum 99); VStr "!"] (reference (VNum 99)))
    as (_ & [message Hout] & _ & _ & _ & Hlater & _).
  - reflexivity.
  - reflexivity.
  - reflexivity.
  - reflexivity.
  - left.
  - reflexivity.
  - reflexivity.
  - split.
    + reflexivity.
    + exact (eq_trans (Hlater [0]) eq_refl).
Defined.

(** ** A question that nobody will finalize *)

(** The cases of [on_call]: the Call is answered with an Exception, or its
    method starts, or its handler is suspended. *)
Lemma on_call_cases msg st :
  let questionId := get_field "questionId" msg in
  let k := question_key (objects st) questionId in
  let tbl0 := register k (questionsInFlight st) in
  promoted tbl0 (questionsInFlight (on_call msg st).1) ∧
  (((∃ message, (on_call msg st).2 = [Exception questionId message]) ∧
    suspended (on_call msg st).1 = suspended st ∧
    timers (on_call msg st).1 = timers st) ∨
   ((on_call msg st).2 = [] ∧
    suspended (on_call msg st).1 = suspended st ∧
    ∃ h args, timers (on_call msg st).1 = timers st ++ [Timer questionId k h args]) ∨
   ((on_call msg st).2 = [] ∧
    timers (on_call msg st).1 = timers st ∧
    ∃ params slots,
      get_field "params" msg = VArr params ∧
      promise_all (resolve_params tbl0 params).2 = inr slots ∧
      all_ready slots = None ∧
      suspended (on_call msg st).1 =
        suspended st ++ [Task questionId k (get_field "method" msg) slots])).
Proof.
  intros questionId k tbl0. unfold on_call. fold questionId k tbl0.
  destruct (get_field "params" msg) as [| | | | | |ps|] eqn:Eps; simpl;
    try (split; [apply promoted_refl|left; split; [by eexists|done]]).
  pose proof (resolve_params_promoted tbl0 ps) as Hp.
  destruct (resolve_params tbl0 ps) as [tbl1 os] eqn:Er. simpl in *.
  destruct (promise_all os) as [message|slots] eqn:Eall.
  { simpl. split; [done|]. left. split; [by eexists|done]. }
  destruct (all_ready slots) as [args|] eqn:Eready; simpl.
  - match goal with
    | |- context [dispatch ?a ?b ?c ?d ?e] =>
        destruct (dispatch_cases a b c d e) as [(h & _ & _ & ->)|(m & ->)]
    end; simpl.
    + split; [done|]. right. left. split; [done|]. split; [done|]. by exists h, args.
    + split; [done|]. left. split; [by eexists|done].
  - split; [done|]. right. right. split; [done|]. split; [done|].
    exists ps, slots. by rewrite Er.
Qed.

Lemma prim_key_inj a b k : prim_key a = Some k → prim_key b = Some k → a = b.
Proof. destruct a, b; simpl; intros [= <-] [=]; by subst. Qed.

Lemma question_key_prim objs id failed k :
  prim_key failed = Some k → question_key objs id = k → id = failed.
Proof.
  intros Hk. unfold question_key. destruct (prim_key id) as [k'|] eqn:E; simpl.
  - intros ->. by eapply prim_key_inj.
  - intros <-. by destruct failed.
Qed.

Lemma promoted_unfinished tbl tbl' k :
  promoted tbl tbl' → unfinished tbl k → unfinished tbl' k.
Proof.
  intros H (q & Hq & Hd & Hp). destruct (H k) as [Heq|(q0 & Hq0 & _ & _ & Heq)].
  - exists q. by rewrite Heq.
  - eexists. split; [done|]. done.
Qed.

Lemma register_unfinished k' tbl k :
  unfinished tbl k → unfinished (register k' tbl) k.
Proof. intros (q & Hq & ?). exists q. split; [by apply register_lookup_Some|done]. Qed.





Lemma maybeResolveParam_awaits tbl p failed k :
  prim_key failed = Some k → unfinished tbl k →
  is_reference p = true → get_field "resultOf" p = failed →
  (maybeResolveParam tbl p).2 = Awaiting k.
Proof.
  intros Hk (q & Hq & Hd & Hp) Href Hid. unfold maybeResolveParam.
  rewrite Href, Hid, (prim_key_convertible failed k Hk).
  unfold find_question. rewrite Hk. simpl. rewrite Hq. simpl.
  rewrite Hd. destruct (promise q) eqn:E; [done|done|]. by destruct (Hp v).
Qed.

Lemma resolve_params_awaits tbl params p failed k :
  prim_key failed = Some k → unfinished tbl k →
  p ∈ params → is_reference p = true → get_field "resultOf" p = failed →
  Awaiting k ∈ (resolve_params tbl params).2.
Proof.
  intros Hk Hentry Hin Href Hid. revert tbl Hentry.
  induction params as [|p0 ps IH]; intros tbl Hentry; [by apply elem_of_nil in Hin|].
  simpl. pose proof (maybeResolveParam_promoted tbl p0) as Hprom.
  pose proof (maybeResolveParam_awaits tbl p0 failed k Hk Hentry) as Hhere.
  destruct (maybeResolveParam tbl p0) as [tbl1 o]. simpl in *.
  apply elem_of_cons in Hin as [<-|Hin].
  - rewrite Hhere by done. destruct (resolve_params tbl1 ps). left.
  - specialize (IH Hin tbl1 (promoted_unfinished _ _ _ Hprom Hentry)).
    destruct (resolve_params tbl1 ps). simpl in *. by right.
Qed.

Lemma promise_all_awaiting os slots k :
  promise_all os = inr slots → Awaiting k ∈ os → Waiting k ∈ slots.
Proof.
  revert slots. induction os as [|o os IH]; intros slots; simpl.
  - intros _ H. by apply elem_of_nil in H.
  - destruct o as [v|k'|m]; [| |done];
      destruct (promise_all os) as [m'|slots']; simpl; try done;
      intros [= <-] [H|H]%elem_of_cons; try done;
      try (right; by eapply IH).
    injection H as ->. left.
Qed.





Lemma question_key_of_prim objs id k : prim_key id = Some k → question_key objs id = k.
Proof. intros Hk. unfold question_key. by rewrite Hk. Qed.

Lemma step_keyed st e : keyed st → keyed (step st e).1.
Proof.
  intros [Hs Ht]. unfold keyed. destruct e as [[|msg]|i]; simpl; [done| |].
  - destruct (is_call msg && announced msg); [|done].
    destruct (on_call_cases msg st) as [_ Hcases]. simpl in Hcases.
    destruct Hcases as [(_ & Hsusp & Htim)|[(_ & Hsusp & h & args & Htim)|
      (_ & Htim & ps & slots & _ & _ & _ & Hsusp)]]; rewrite Hsusp, Htim.
    + done.
    + split; [done|].
      intros t k [Hin| ->%list_elem_of_singleton]%elem_of_app; [by apply Ht|].
      simpl. apply question_key_of_prim.
    + split; [|done].
      intros t k [Hin| ->%list_elem_of_singleton]%elem_of_app; [by apply Hs|].
      simpl. apply question_key_of_prim.
  - unfold on_timeout. destruct (timers st !! i) as [t|] eqn:Et; [|done].
    assert (∀ t0 k, t0 ∈ delete i (timers st) →
                    prim_key (tm_questionId t0) = Some k → tm_key t0 = k) as Hdel.
    { intros t0 k Hin0. by apply Ht, (list_subseteq_delete i). }
    destruct (finalizeQuestion _ _ _) as [[tbl woken]|]; [|done].
    destruct woken; [|done].
    set (res := run_handler (tm_handler t) (tm_args t)).
    set (st0 := {| questionsInFlight := tbl; suspended := [];
                   timers := delete i (timers st); objects := objects st |}).
    pose proof (resume_suspended (tm_key t) res (suspended st) st0) as Hrs.
    pose proof (resume_timers (tm_key t) res (suspended st) st0) as Hrt.
    destruct (resume _ _ _ _) as [st1 out]. simpl in *. split.
    + intros t' k [Hin'|(t0 & Hin0 & -> & _)]%Hrs;
        [by apply elem_of_nil in Hin'|by apply (Hs t0)].
    + intros tm k [Hin'|(t0 & h & args & Hin0 & _ & _ & ->)]%Hrt;
        [by apply Hdel|by apply (Hs t0)].
Qed.

Lemma run_keyed st evs : keyed st → keyed (run st evs).1.
Proof.
  revert st. induction evs as [|e evs IH]; intros st Hst; [done|].
  simpl. pose proof (step_keyed st e Hst) as H1.
  destruct (step st e) as [st1 out1]. specialize (IH st1 H1).
  by destruct (run st1 evs).
Qed.

Lemma keyed_init : keyed init.
Proof. split; intros t k Hin; by apply elem_of_nil in Hin. Qed.

(** ** A Call that fails after it was suspended *)













(** * Further properties of the worker *)

(** ** Every method that was started is answered *)

Lemma finalizeQuestion_None tbl k res :
  finalizeQuestion tbl k res = None → tbl !! k = None.
Proof.
  unfold finalizeQuestion. destruct (tbl !! k) as [q|]; [|done].
  by destruct (promise q).
Qed.

(** X1. In every state the worker reaches, the expiry of a pending timer
    sends the Return of its Call first, with the value the method gives on
    its arguments (arguments in the range where the numbers of the model
    are those of the code), and marks the entry of the question done with
    that value.  Whatever else is sent in the same turn answers a handler
    that was suspended on this question and that the result has made ready:
    first the Exceptions of the handlers whose method is unknown (with the
    text that names the method, when the name is in that range), then those
    of the handlers whose method threw in its log. *)
Theorem timer_expiry_sends_its_return evs st i t :
  st = (run init evs).1 →
  timers st !! i = Some t →
  in_range (tm_handler t) (tm_args t) = true →
  ∃ unknown thrown q',
    (step st (Timeout i)).2 =
      Return (tm_questionId t) (run_handler (tm_handler t) (tm_args t))
        :: unknown ++ thrown ∧
    Forall
      (λ r, ∃ task args,
         task ∈ suspended st ∧ Waiting (tm_key t) ∈ t_slots task ∧
         all_ready
           (t_slots
              (resumed (tm_key t) (run_handler (tm_handler t) (tm_args t)) task))
           = Some args ∧
         method_handler (t_method task) = None ∧
         ∃ message,
           r = Exception (t_questionId task) message ∧
           message ≠ primitive_error ∧
           (exact (t_method task) = true →
            message = "Unknown method " +:+ dquote +:+ to_string (t_method task)
                        +:+ dquote))
      unknown ∧
    Forall
      (λ r, ∃ task args h,
         task ∈ suspended st ∧ Waiting (tm_key t) ∈ t_slots task ∧
         all_ready
           (t_slots
              (resumed (tm_key t) (run_handler (tm_handler t) (tm_args t)) task))
           = Some args ∧
         method_handler (t_method task) = Some h ∧ logs h args = false ∧
         r = Exception (t_questionId task) primitive_error)
      thrown ∧
    questionsInFlight (step st (Timeout i)).1 !! tm_key t = Some q' ∧
    done q' = true ∧
    result q' = run_handler (tm_handler t) (tm_args t).
Proof.
  intros -> Et _. set (st := (run init evs).1) in *.
  assert (wf st) as Hwf by apply run_wf, wf_init.
  assert (t ∈ timers st) as Hin by by eapply list_elem_of_lookup_2.
  simpl. unfold on_timeout. rewrite Et.
  set (res := run_handler (tm_handler t) (tm_args t)).
  destruct (finalizeQuestion _ _ _) as [[tbl' woken]|] eqn:Ef.
  2:{ apply finalizeQuestion_None in Ef.
      destruct (wf_timers st Hwf t Hin) as [q Hq]. congruence. }
  apply finalizeQuestion_Some in Ef as (q & p & Hq & -> & _).
  destruct woken.
  - pose proof (resume_table (tm_key t) res (suspended st)
      {| questionsInFlight := <[tm_key t := {| done := true; result := res;
                                               promise := p |}]> (questionsInFlight st);
         suspended := []; timers := delete i (timers st);
         objects := objects st |}) as Htable.
    pose proof (resume_failures (tm_key t) res (suspended st)
      {| questionsInFlight := <[tm_key t := {| done := true; result := res;
                                               promise := p |}]> (questionsInFlight st);
         suspended := []; timers := delete i (timers st);
         objects := objects st |}) as Hreplies.
    destruct (resume _ _ _ _) as [st1 out]. simpl in *.
    exists (filter (λ r, thrown_in_log r = false) out),
           (filter (λ r, thrown_in_log r = true) out).
    eexists. split; [done|]. split; [|split].
    + apply Forall_forall. intros r [Hlog Hr]%list_elem_of_filter.
      apply Hreplies in Hr
        as (t0 & a0 & Hin0 & Hready & [[Hm ->]|(h & Hm & Hl & ->)]).
      * exists t0, a0. split; [done|]. split.
        { eapply settle_slot_wakes; [by apply (wf_blocked st Hwf)|exact Hready]. }
        split; [done|]. split; [done|]. eexists. split; [done|]. split; [|done].
        unfold thrown_in_log in Hlog. by rewrite bool_decide_eq_false in Hlog.
      * unfold thrown_in_log in Hlog.
        by rewrite bool_decide_eq_false in Hlog.
    + apply Forall_forall. intros r [Hlog Hr]%list_elem_of_filter.
      apply Hreplies in Hr
        as (t0 & a0 & Hin0 & Hready & [[Hm ->]|(h & Hm & Hl & ->)]).
      * unfold thrown_in_log in Hlog. rewrite bool_decide_eq_true in Hlog.
        discriminate Hlog.
      * exists t0, a0, h. split; [done|]. split; [|done].
        eapply settle_slot_wakes; [by apply (wf_blocked st Hwf)|exact Hready].
    + rewrite Htable, lookup_insert_eq. done.
  - simpl. exists [], []. eexists. split; [done|].
    split; [constructor|]. split; [constructor|].
    rewrite lookup_insert_eq. done.
Qed.

Lemma timer_expiry_sends_its_return_witness :
  ∃ unknown thrown q',
    (step Pipelined.suffix_waiting (Timeout 0)).2 =
      Return (VNum 1) (VStr "Hello, Alice!") :: unknown ++ thrown ∧
    questionsInFlight (step Pipelined.suffix_waiting (Timeout 0)).1 !! KNum 1
      = Some q' ∧
    done q' = true ∧ result q' = VStr "Hello, Alice!".
Proof.
  destruct (timer_expiry_sends_its_return
              [Message Pipelined.call_greeting; Message Pipelined.call_suffix]
              Pipelined.suffix_waiting 0
              (Timer (VNum 1) (KNum 1) MakeGreeting [VStr "Alice"]))
    as (unknown & thrown & q' & Hout & _ & _ & Hq & Hd & Hr).
  - reflexivity.
  - reflexivity.
  - reflexivity.
  - exists unknown, thrown, q'. split; [exact Hout|]. split; [exact Hq|].
    split; [exact Hd|exact Hr].
Defined.

(** ** Counting handlers and frames *)

(** Each handler that [resume] visits ends in exactly one place: suspended
    again, in its method, or answered. *)
Lemma resume_count k v ts st :
  length (suspended (resume k v ts st).1) + length (timers (resume k v ts st).1)
    + length (resume k v ts st).2 =
  length (suspended st) + length (timers st) + length ts.
Proof.
  revert st. induction ts as [|t ts IH]; intros st; [simpl; lia|].
  rewrite resume_step.
  destruct (all_ready (t_slots (resumed k v t))) as [args|].
  - destruct (dispatch_cases (t_questionId t) (t_key t) (t_method t) args st)
      as [(h & _ & _ & ->)|(m & ->)].
    + specialize (IH {| questionsInFlight := questionsInFlight st;
                        suspended := suspended st;
                        timers := timers st ++
                          [Timer (t_questionId t) (t_key t) h args];
                        objects := objects st |}).
      destruct (resume k v ts _) as [st2 out2]. simpl in *.
      rewrite length_app in IH. simpl in IH. lia.
    + specialize (IH st). destruct (resume k v ts st) as [st2 out2].
      simpl in *. lia.
  - specialize (IH (suspend (resumed k v t) st)).
    destruct (resume k v ts _) as [st2 out2]. simpl in *.
    rewrite length_app in IH. simpl in IH. lia.
Qed.

(** The expiry of a timer takes one handler out of flight, and whatever it
    sends after its first frame answers a handler that leaves with it. *)
Lemma on_timeout_count i st t :
  timers st !! i = Some t →
  length (suspended (on_timeout i st).1) + length (timers (on_timeout i st).1)
    + length (tail (on_timeout i st).2) + 1 =
  length (suspended st) + length (timers st).
Proof.
  intros Et. unfold on_timeout. rewrite Et.
  assert (length (delete i (timers st)) + 1 = length (timers st)) as Hdel.
  { rewrite length_delete by by eexists.
    apply lookup_lt_Some in Et. lia. }
  destruct (finalizeQuestion _ _ _) as [[tbl woken]|]; [|simpl; lia].
  destruct woken; [|simpl; lia].
  pose proof (resume_count (tm_key t) (run_handler (tm_handler t) (tm_args t))
    (suspended st)
    {| questionsInFlight := tbl; suspended := [];
       timers := delete i (timers st); objects := objects st |}) as Hc.
  destruct (resume _ _ _ _) as [st1 out]. simpl in *.
  rewrite length_in_order_of_sending. lia.
Qed.

(** X2. The worker comes to rest: letting the timers elapse one after the
    other, at most as many as there are handlers in flight, leaves no timer
    pending, and then no timeout sends or changes anything. *)
Theorem worker_comes_to_rest st n :
  length (timers st) + length (suspended st) ≤ n →
  timers (drain n st).1 = [] ∧
  ∀ l : list nat, run (drain n st).1 (Timeout <$> l) = ((drain n st).1, []).
Proof.
  intros Hn. assert (timers (drain n st).1 = []) as Hrest.
  { revert st Hn. induction n as [|n IH]; intros st Hn.
    - simpl. apply length_zero_iff_nil. lia.
    - destruct (timers st) as [|t ts] eqn:Ht; [by rewrite drain_quiet|].
      rewrite drain_S by by rewrite Ht.
      pose proof (on_timeout_count 0 st t) as Hc. rewrite Ht in Hc.
      specialize (Hc eq_refl). simpl in Hn.
      destruct (on_timeout 0 st) as [st1 out1]. simpl in Hc.
      specialize (IH st1). destruct (drain n st1) as [st2 out2]. simpl in *.
      apply IH. lia. }
  split; [done|]. intros l.
  induction l as [|i l IH]; [done|].
  rewrite fmap_cons. cbn [run step].
  rewrite on_timeout_ge by (rewrite Hrest; simpl; lia). by rewrite IH.
Qed.

Lemma worker_comes_to_rest_witness :
  timers (drain 2 Pipelined.suffix_waiting).1 = [] ∧
  ∀ l : list nat,
    run (drain 2 Pipelined.suffix_waiting).1 (Timeout <$> l) =
    ((drain 2 Pipelined.suffix_waiting).1, []).
Proof. apply (worker_comes_to_rest Pipelined.suffix_waiting 2). vm_compute. lia. Defined.



(** ** What a Return carries *)

Lemma js_add_scalar a b : scalar (js_add a b) = true.
Proof.
  unfold js_add.
  destruct (to_primitive a) as [| |[]| | | | |] eqn:Ea;
    destruct (to_primitive b) as [| |[]| | | | |] eqn:Eb; try done;
    by destruct a, b.
Qed.

Lemma run_handler_scalar h args : scalar (run_handler h args) = true.
Proof. destruct h; [done|apply js_add_scalar]. Qed.



(** ** The requests behind the frames *)

Lemma requested_app_l evs evs' questionId :
  requested evs questionId → requested (evs ++ evs') questionId.
Proof.
  intros (msg & Hin & Hcall & Hid). exists msg.
  split; [apply elem_of_app; by left|done].
Qed.

Lemma step_requested seen st e :
  in_flight_requested seen st →
  in_flight_requested (seen ++ [e]) (step st e).1 ∧
  ∀ r, r ∈ (step st e).2 →
       (r = Exception (VNum 0) "Invalid JSON" ∧ e = Message Undecodable) ∨
       requested (seen ++ [e]) (answer_id r).
Proof.
  intros [Hs Ht].
  assert (∀ t, t ∈ suspended st → requested (seen ++ [e]) (t_questionId t))
    as Hs' by (intros t Hin; by apply requested_app_l, Hs).
  assert (∀ t, t ∈ timers st → requested (seen ++ [e]) (tm_questionId t))
    as Ht' by (intros t Hin; by apply requested_app_l, Ht).
  unfold in_flight_requested. destruct e as [[|msg]|i]; simpl.
  - split; [done|]. intros r ->%list_elem_of_singleton. by left.
  - destruct (is_call msg && announced msg) eqn:Ecall;
      [|split; [done|]; intros r Hin; by apply elem_of_nil in Hin].
    apply andb_true_iff in Ecall as [Hcall _].
    assert (requested (seen ++ [Message (Decoded msg)])
              (get_field "questionId" msg)) as Hreq.
    { exists msg. split; [apply elem_of_app; right; left|done]. }
    destruct (on_call_cases msg st) as [_ Hcases]. simpl in Hcases.
    destruct Hcases as [([m Hout] & Hsusp & Htim)|[(Hout & Hsusp & h & args & Htim)|
      (Hout & Htim & ps & slots & _ & _ & _ & Hsusp)]];
      rewrite Hout, Hsusp, Htim.
    + split; [done|]. intros r ->%list_elem_of_singleton. by right.
    + split; [|intros r Hin; by apply elem_of_nil in Hin]. split; [done|].
      intros t [Hin| ->%list_elem_of_singleton]%elem_of_app; [by apply Ht'|done].
    + split; [|intros r Hin; by apply elem_of_nil in Hin]. split; [|done].
      intros t [Hin| ->%list_elem_of_singleton]%elem_of_app; [by apply Hs'|done].
  - unfold on_timeout. destruct (timers st !! i) as [t|] eqn:Et;
      [|split; [done|]; intros r Hin; by apply elem_of_nil in Hin].
    assert (t ∈ timers st) as Hin by by eapply list_elem_of_lookup_2.
    assert (∀ t0, t0 ∈ delete i (timers st) →
                  requested (seen ++ [Timeout i]) (tm_questionId t0)) as Hdel.
    { intros t0 Hin0. by apply Ht', (list_subseteq_delete i). }
    destruct (finalizeQuestion _ _ _) as [[tbl woken]|];
      [|split; [done|]; intros r Hr; by apply elem_of_nil in Hr].
    destruct woken.
    + set (res := run_handler (tm_handler t) (tm_args t)).
      set (st0 := {| questionsInFlight := tbl; suspended := [];
                     timers := delete i (timers st); objects := objects st |}).
      pose proof (resume_suspended (tm_key t) res (suspended st) st0) as Hrs.
      pose proof (resume_timers (tm_key t) res (suspended st) st0) as Hrt.
      pose proof (resume_replies (tm_key t) res (suspended st) st0) as Hrr.
      destruct (resume _ _ _ _) as [st1 out]. simpl in *.
      split; [split|].
      * intros t' [Hin'|(t0 & Hin0 & -> & _)]%Hrs;
          [by apply elem_of_nil in Hin'|by apply (Hs' t0)].
      * intros tm [Hin'|(t0 & h & args & Hin0 & _ & _ & ->)]%Hrt;
          [by apply Hdel|by apply (Hs' t0)].
      * intros r [->|Hr]%elem_of_cons; right; [by apply (Ht' t)|].
        rewrite elem_of_in_order_of_sending in Hr.
        apply Hrr in Hr as (t0 & args & m & Hin0 & _ & ->). by apply (Hs' t0).
    + simpl. split; [done|].
      intros r ->%list_elem_of_singleton. right. by apply (Ht' t).
Qed.

Lemma run_requested seen st evs :
  in_flight_requested seen st →
  in_flight_requested (seen ++ evs) (run st evs).1 ∧
  ∀ r, r ∈ (run st evs).2 →
       (r = Exception (VNum 0) "Invalid JSON" ∧ Message Undecodable ∈ evs) ∨
       requested (seen ++ evs) (answer_id r).
Proof.
  revert seen st. induction evs as [|e evs IH]; intros seen st Hst.
  - simpl. rewrite app_nil_r. split; [done|].
    intros r Hin. by apply elem_of_nil in Hin.
  - simpl. destruct (step_requested seen st e Hst) as [Hst1 Hout1].
    destruct (step st e) as [st1 out1]. specialize (IH (seen ++ [e]) st1 Hst1).
    destruct (run st1 evs) as [st2 out2]. simpl in *.
    rewrite <-(assoc_L (++)) in IH. simpl in IH. destruct IH as [Hst2 Hout2].
    split; [done|]. intros r [Hr|Hr]%elem_of_app.
    + destruct (Hout1 r Hr) as [[-> ->]|Hreq]; [left; split; [done|left]|].
      right. rewrite (cons_middle e), (assoc_L (++)). by apply requested_app_l.
    + destruct (Hout2 r Hr) as [[-> Hin]|Hreq]; [|by right].
      left. split; [done|by right].
Qed.

(** X5. The worker never speaks unasked: every frame it sends is either the
    ["Invalid JSON"] Exception under id 0 for an undecodable frame it has
    received, or carries the [questionId] of a Call it has received. *)
Theorem every_frame_answers_a_request evs r :
  r ∈ (run init evs).2 →
  (r = Exception (VNum 0) "Invalid JSON" ∧ Message Undecodable ∈ evs) ∨
  requested evs (answer_id r).
Proof.
  intros Hr.
  assert (in_flight_requested [] init) as Hinit.
  { split; intros t Hin; by apply elem_of_nil in Hin. }
  destruct (run_requested [] init evs Hinit) as [_ Hout]. by apply Hout.
Qed.

Lemma every_frame_answers_a_request_witness :
  (Pipelined.return_greeting = Exception (VNum 0) "Invalid JSON" ∧
   Message Undecodable ∈ [Message Pipelined.call_greeting; Timeout 0]) ∨
  requested [Message Pipelined.call_greeting; Timeout 0]
    (answer_id Pipelined.return_greeting).
Proof.
  apply (every_frame_answers_a_request
           [Message Pipelined.call_greeting; Timeout 0]
           Pipelined.return_greeting).
  vm_compute. left.
Defined.

(** ** References to questions that are done *)

Lemma resolve_params_settled tbl tbl0 ps :
  (∀ k q, tbl !! k = Some q → tbl0 !! k = Some q) →
  Forall (λ p, settled_reference tbl p = true) ps →
  resolve_params tbl0 ps = (tbl0, Resolved <$> (substitute tbl <$> ps)).
Proof.
  intros Hkeep. induction 1 as [|p ps Hp _ IH]; [done|].
  rewrite !fmap_cons. cbn [resolve_params].
  assert (maybeResolveParam tbl0 p = (tbl0, Resolved (substitute tbl p))) as ->;
    [|by rewrite IH].
  unfold settled_reference in Hp. unfold maybeResolveParam, substitute.
  destruct (is_reference p); [|done].
  destruct (find_question tbl _) as [[k q]|] eqn:Ef; [|done].
  apply find_question_Some in Ef as [Hk Hq].
  rewrite (prim_key_convertible _ _ Hk).
  assert (find_question tbl0 (get_field "resultOf" p) = Some (k, q)) as ->.
  { apply find_question_Some. split; [done|by apply Hkeep]. }
  by rewrite Hp.
Qed.

(** X6. A Call whose references all name questions that are done does not
    wait: in the turn in which it arrives its method is started on the
    parameters with each reference replaced by the stored result, nothing is
    sent yet, and the table only gains the entry of the Call. *)
Theorem settled_references_are_substituted msg st ps h :
  is_call msg = true → announced msg = true →
  get_field "params" msg = VArr ps →
  Forall (λ p, settled_reference (questionsInFlight st) p = true) ps →
  method_handler (get_field "method" msg) = Some h →
  logs h (substitute (questionsInFlight st) <$> ps) = true →
  (step st (Message (Decoded msg))).2 = [] ∧
  suspended (step st (Message (Decoded msg))).1 = suspended st ∧
  timers (step st (Message (Decoded msg))).1 =
    timers st ++
      [Timer (get_field "questionId" msg)
         (question_key (objects st) (get_field "questionId" msg)) h
         (substitute (questionsInFlight st) <$> ps)] ∧
  questionsInFlight (step st (Message (Decoded msg))).1 =
    register (question_key (objects st) (get_field "questionId" msg))
      (questionsInFlight st).
Proof.
  intros Hcall Hann Hps Hsettled Hh Hlogs.
  simpl. rewrite Hcall, Hann. simpl andb. cbv iota.
  unfold on_call. rewrite Hps. simpl.
  rewrite (resolve_params_settled (questionsInFlight st)) by
    (done || (intros k q; apply register_lookup_Some)).
  rewrite promise_all_resolved, all_ready_ready.
  unfold dispatch. by rewrite Hh, Hlogs.
Qed.

Lemma settled_references_are_substituted_witness :
  (step Pipelined.greeting_done (Message (Decoded call_dependent))).2 = [] ∧
  suspended (step Pipelined.greeting_done (Message (Decoded call_dependent))).1 =
    suspended Pipelined.greeting_done ∧
  timers (step Pipelined.greeting_done (Message (Decoded call_dependent))).1 =
    timers Pipelined.greeting_done ++
      [Timer (VNum 2) (KNum 2) AppendSuffix [VStr "Hello, Alice!"; VStr "!!!"]] ∧
  questionsInFlight
    (step Pipelined.greeting_done (Message (Decoded call_dependent))).1 =
    register (KNum 2) (questionsInFlight Pipelined.greeting_done).
Proof.
  apply (settled_references_are_substituted call_dependent
           Pipelined.greeting_done [reference (VNum 1); VStr "!!!"] AppendSuffix).
  - reflexivity.
  - reflexivity.
  - reflexivity.
  - repeat constructor.
  - reflexivity.
  - reflexivity.
Defined.

(** ** A handler that is woken *)

Lemma all_ready_settled k v (slots : list slot) :
  (∀ k', Waiting k' ∈ slots → k' = k) →
  all_ready (settle_slot k v <$> slots) = Some (slot_value v <$> slots).
Proof.
  induction slots as [|[x|k'] slots IH]; intros Hk; [done|..];
    rewrite !fmap_cons; simpl.
  - rewrite IH by (intros k' Hin; apply Hk; by right). done.
  - rewrite (Hk k') by left. rewrite decide_True by done. simpl.
    rewrite IH by (intros k'' Hin; apply Hk; by right). done.
Qed.

Lemma resume_timers_mono k v ts st tm :
  tm ∈ timers st → tm ∈ timers (resume k v ts st).1.
Proof.
  revert st. induction ts as [|t ts IH]; intros st Hin; [done|].
  rewrite resume_step.
  destruct (all_ready (t_slots (resumed k v t))) as [args|].
  - destruct (dispatch_cases (t_questionId t) (t_key t) (t_method t) args st)
      as [(h & _ & _ & ->)|(m & ->)].
    + specialize (IH {| questionsInFlight := questionsInFlight st;
                        suspended := suspended st;
                        timers := timers st ++
                          [Timer (t_questionId t) (t_key t) h args];
                        objects := objects st |}).
      destruct (resume k v ts _) as [st2 out2]. simpl in *.
      apply IH, elem_of_app. by left.
    + specialize (IH st Hin). by destruct (resume k v ts st).
  - specialize (IH (suspend (resumed k v t) st) Hin).
    by destruct (resume k v ts _).
Qed.

Lemma resume_starts k v ts st t h args :
  t ∈ ts →
  all_ready (t_slots (resumed k v t)) = Some args →
  method_handler (t_method t) = Some h → logs h args = true →
  Timer (t_questionId t) (t_key t) h args ∈ timers (resume k v ts st).1.
Proof.
  intros Hin Hready Hh Hlogs. revert st.
  induction ts as [|t0 ts IH]; intros st; [by apply elem_of_nil in Hin|].
  rewrite resume_step. apply elem_of_cons in Hin as [<-|Hin].
  - rewrite Hready. unfold dispatch. rewrite Hh, Hlogs.
    pose proof (resume_timers_mono k v ts
      {| questionsInFlight := questionsInFlight st;
         suspended := suspended st;
         timers := timers st ++ [Timer (t_questionId t) (t_key t) h args];
         objects := objects st |}
      (Timer (t_questionId t) (t_key t) h args)) as Hmono.
    destruct (resume k v ts _) as [st2 out2]. simpl in *.
    apply Hmono, elem_of_app. right. left.
  - specialize (IH Hin).
    destruct (match all_ready (t_slots (resumed k v t0)) with
              | Some args0 => _
              | None => _
              end) as [st1 out1].
    specialize (IH st1). by destruct (resume k v ts st1).
Qed.

(** X7. When the timer of a question elapses while a later Call is
    suspended on it, and that Call waits for nothing else, the Call's
    method is started in the same turn, on its parameters with the result
    just computed in place of every reference (the arguments of the elapsed
    method being in the range where the numbers of the model are those of
    the code). *)
Theorem woken_handler_starts_its_method st i t task h :
  timers st !! i = Some t →
  in_range (tm_handler t) (tm_args t) = true →
  awaited_pending (questionsInFlight st) (tm_key t) →
  task ∈ suspended st →
  (∀ k, Waiting k ∈ t_slots task → k = tm_key t) →
  method_handler (t_method task) = Some h →
  logs h (slot_value (run_handler (tm_handler t) (tm_args t)) <$> t_slots task)
    = true →
  Timer (t_questionId task) (t_key task) h
    (slot_value (run_handler (tm_handler t) (tm_args t)) <$> t_slots task)
    ∈ timers (step st (Timeout i)).1.
Proof.
  intros Et _ (q & Hq & _ & Hp) Hin Honly Hh Hlogs.
  simpl. unfold on_timeout, finalizeQuestion. rewrite Et, Hq, Hp.
  set (res := run_handler (tm_handler t) (tm_args t)) in *.
  pose proof (resume_starts (tm_key t) res (suspended st)
    {| questionsInFlight :=
         <[tm_key t := {| done := true; result := res;
                          promise := PromiseResolved res |}]>
           (questionsInFlight st);
       suspended := []; timers := delete i (timers st);
       objects := objects st |} task h (slot_value res <$> t_slots task) Hin)
    as Hstart.
  destruct (resume _ _ _ _) as [st1 out]. simpl in *.
  apply Hstart; [|done|done]. by apply all_ready_settled.
Qed.

Lemma woken_handler_starts_its_method_witness :
  Timer (VNum 2) (KNum 2) AppendSuffix [VStr "Hello, Alice!"; VStr "!!!"]
    ∈ timers (step Pipelined.suffix_waiting (Timeout 0)).1.
Proof.
  apply (woken_handler_starts_its_method Pipelined.suffix_waiting 0
           (Timer (VNum 1) (KNum 1) MakeGreeting [VStr "Alice"])
           (Task (VNum 2) (KNum 2) (VStr "appendSuffix")
              [Waiting (KNum 1); Ready (VStr "!!!")])
           AppendSuffix).
  - reflexivity.
  - reflexivity.
  - eexists. vm_compute. repeat split.
  - vm_compute. left.
  - intros k Hk. vm_compute in Hk.
    apply elem_of_cons in Hk as [[= ->]|Hk]; [reflexivity|].
    apply elem_of_cons in Hk as [Hk|Hk]; [discriminate Hk|].
    by apply elem_of_nil in Hk.
  - reflexivity.
  - reflexivity.
Defined.

(** ** A Call that refers to itself *)

(** A Call with a parameter that refers to a question which is unfinished
    once the Call is registered either is rejected because another
    parameter throws, or is suspended on that question. *)
Lemma on_call_awaits msg st params p id k :
  prim_key id = Some k →
  unfinished
    (register (question_key (objects st) (get_field "questionId" msg))
       (questionsInFlight st)) k →
  get_field "params" msg = VArr params →
  p ∈ params → is_reference p = true → get_field "resultOf" p = id →
  timers (on_call msg st).1 = timers st ∧
  ((∃ message,
      (on_call msg st).2 = [Exception (get_field "questionId" msg) message] ∧
      suspended (on_call msg st).1 = suspended st) ∨
   ((on_call msg st).2 = [] ∧
    ∃ slots,
      Waiting k ∈ slots ∧
      suspended (on_call msg st).1 =
        suspended st ++
        [Task (get_field "questionId" msg)
           (question_key (objects st) (get_field "questionId" msg))
           (get_field "method" msg) slots])).
Proof.
  intros Hk Hentry Hps Hin Href Hid.
  set (tbl0 := register _ (questionsInFlight st)) in *.
  destruct (first_error tbl0 params) as [message|] eqn:Efirst.
  - destruct (on_call_rejected msg st params message Hps Efirst) as (Hout & Hs & Ht).
    split; [done|]. left. by exists message.
  - pose proof (promise_all_first_error tbl0 params) as Hall.
    pose proof (resolve_params_awaits tbl0 params p id k Hk Hentry Hin Href Hid)
      as Hawait.
    unfold on_call. rewrite Hps. simpl. fold tbl0.
    destruct (resolve_params tbl0 params) as [tbl1 os]. simpl in *.
    destruct (promise_all os) as [m|slots] eqn:Eall; [congruence|].
    pose proof (promise_all_awaiting os slots k Eall Hawait) as Hslot.
    assert (all_ready slots = None) as -> by (apply all_ready_None; eauto).
    simpl. split; [done|]. right. split; [done|]. by exists slots.
Qed.

Lemma on_call_self_waiting msg st k questionId :
  prim_key questionId = Some k →
  self_waiting k questionId st →
  get_field "questionId" msg ≠ questionId →
  self_waiting k questionId (on_call msg st).1 ∧
  (∀ r, r ∈ (on_call msg st).2 → answer_id r ≠ questionId) ∧
  (∀ t, t ∈ suspended st → t ∈ suspended (on_call msg st).1).
Proof.
  intros Hk (Hentry & Hts & Htm) Hid.
  assert (question_key (objects st) (get_field "questionId" msg) ≠ k) as Hkey.
  { intros Heq. apply Hid. by eapply question_key_prim. }
  destruct (on_call_cases msg st) as [Hprom Hcases]. simpl in Hprom, Hcases.
  assert (unfinished (questionsInFlight (on_call msg st).1) k) as Hentry'.
  { eapply promoted_unfinished; [exact Hprom|]. by apply register_unfinished. }
  unfold self_waiting.
  destruct Hcases as [([m Hout] & Hs & Ht)|[(Hout & Hs & h & args & Ht)|
    (Hout & Ht & ps & slots & _ & _ & _ & Hs)]]; rewrite Hout, Hs, Ht.
  - split; [done|]. split; [|done].
    intros r ->%list_elem_of_singleton. done.
  - split; [|split; [|done]].
    + split; [done|]. split; [done|].
      intros t [?| ->%list_elem_of_singleton]%elem_of_app; [by apply Htm|done].
    + intros r Hr. by apply elem_of_nil in Hr.
  - split; [|split].
    + split; [done|]. split; [|done].
      intros t [?| ->%list_elem_of_singleton]%elem_of_app; [by apply Hts|].
      simpl. intros [?|?]; done.
    + intros r Hr. by apply elem_of_nil in Hr.
    + intros t Hin. apply elem_of_app. by left.
Qed.

Lemma on_timeout_self_waiting i st k questionId :
  self_waiting k questionId st →
  self_waiting k questionId (on_timeout i st).1 ∧
  (∀ r, r ∈ (on_timeout i st).2 → answer_id r ≠ questionId) ∧
  (stuck_on k questionId st → stuck_on k questionId (on_timeout i st).1).
Proof.
  intros (Hentry & Hts & Htm). unfold on_timeout.
  destruct (timers st !! i) as [t|] eqn:Et.
  2:{ split; [done|]. split; [|done]. intros r Hr. by apply elem_of_nil in Hr. }
  assert (t ∈ timers st) as Hin by by eapply list_elem_of_lookup_2.
  assert (∀ tm, tm ∈ delete i (timers st) → tm ∈ timers st) as Hrest
    by (intros tm; apply (list_subseteq_delete i)).
  destruct (Htm t Hin) as [Hkt Hqt].
  set (res := run_handler (tm_handler t) (tm_args t)).
  destruct (finalizeQuestion _ _ _) as [[tbl' woken]|] eqn:Ef.
  2:{ simpl. split; [|split; [|done]].
      - split; [done|]. split; [done|]. simpl. auto.
      - intros r Hr. by apply elem_of_nil in Hr. }
  apply finalizeQuestion_Some in Ef as (q & p & Hq & -> & _).
  assert (unfinished (<[tm_key t := {| done := true; result := res; promise := p |}]>
                        (questionsInFlight st)) k) as Hentry'.
  { destruct Hentry as (q0 & Hq0 & ?). exists q0. by rewrite lookup_insert_ne. }
  destruct woken.
  - set (st0 := {| questionsInFlight :=
                     <[tm_key t := {| done := true; result := res; promise := p |}]>
                       (questionsInFlight st);
                   suspended := []; timers := delete i (timers st);
                   objects := objects st |}).
    pose proof (resume_table (tm_key t) res (suspended st) st0) as Htable.
    pose proof (resume_suspended (tm_key t) res (suspended st) st0) as Hsusp.
    pose proof (resume_timers (tm_key t) res (suspended st) st0) as Htimers.
    pose proof (resume_replies (tm_key t) res (suspended st) st0) as Hreplies.
    destruct (resume _ _ _ _) as [st1 out]. simpl in *.
    assert (∀ t0, t0 ∈ suspended st →
                  t_key t0 = k ∨ t_questionId t0 = questionId →
                  all_ready (settle_slot (tm_key t) res <$> t_slots t0) = None)
      as Hblocked.
    { intros t0 Hin0 Hid0. apply all_ready_None. exists k.
      apply settle_slot_waiting. split; [done|]. by apply Hts. }
    split; [|split].
    + split; [by rewrite Htable|split].
      * intros t1 [H|(t0 & Hin0 & -> & _)]%Hsusp Hid; [by apply elem_of_nil in H|].
        simpl in *. apply settle_slot_waiting. split; [done|]. by apply Hts.
      * intros tm [H|(t0 & h & args & Hin0 & Hready & _ & ->)]%Htimers; simpl.
        -- by apply Htm, Hrest.
        -- split; intros Hid.
           ++ rewrite (Hblocked t0 Hin0 (or_introl Hid)) in Hready. done.
           ++ rewrite (Hblocked t0 Hin0 (or_intror Hid)) in Hready. done.
    + intros r [->|(t0 & args & m & Hin0 & Hready & ->)%elem_of_in_order_of_sending%Hreplies]%elem_of_cons;
        [done|]. simpl. intros Hid.
      rewrite (Hblocked t0 Hin0 (or_intror Hid)) in Hready. done.
    + intros (t0 & Hin0 & Hid & Hw). exists (resumed (tm_key t) res t0).
      split; [|split; [done|]].
      * apply Hsusp. right. exists t0. split; [done|]. split; [done|].
        apply Hblocked; [done|by right].
      * simpl. apply settle_slot_waiting. done.
  - simpl. split; [|split; [|done]].
    + split; [done|]. split; [done|]. simpl. auto.
    + intros r ->%list_elem_of_singleton. done.
Qed.

Lemma run_self_waiting st evs k questionId :
  prim_key questionId = Some k →
  questionId ≠ VNum 0 →
  self_waiting k questionId st →
  Forall (avoids [questionId]) evs →
  self_waiting k questionId (run st evs).1 ∧
  (∀ r, r ∈ (run st evs).2 → answer_id r ≠ questionId) ∧
  (stuck_on k questionId st → stuck_on k questionId (run st evs).1).
Proof.
  intros Hk Hzero Hinv Hevs. revert st Hinv.
  induction Hevs as [|e evs He _ IH]; intros st Hinv.
  - split; [done|]. split; [|done]. intros r Hr. by apply elem_of_nil in Hr.
  - simpl.
    assert (self_waiting k questionId (step st e).1 ∧
            (∀ r, r ∈ (step st e).2 → answer_id r ≠ questionId) ∧
            (stuck_on k questionId st → stuck_on k questionId (step st e).1))
      as (H1 & H2 & H3).
    { destruct e as [[|msg]|i]; simpl.
      - split; [done|]. split; [|done].
        intros r ->%list_elem_of_singleton. done.
      - destruct (is_call msg) eqn:Ecall; simpl; [destruct (announced msg)|].
        + assert (get_field "questionId" msg ∉ [questionId]) as Hnot.
          { apply He. simpl. by rewrite Ecall. }
          destruct (on_call_self_waiting msg st k questionId) as (H1 & H2 & H3);
            [done|done| |].
          * intros Heq. apply Hnot. rewrite Heq. left.
          * split; [done|]. split; [done|].
            intros (t & Hin & ?). exists t. split; [by apply H3|done].
        + split; [done|]. split; [|done]. intros r Hr. by apply elem_of_nil in Hr.
        + split; [done|]. split; [|done]. intros r Hr. by apply elem_of_nil in Hr.
      - by apply on_timeout_self_waiting. }
    destruct (step st e) as [st1 out1]. simpl in *.
    destruct (IH st1 H1) as (H4 & H5 & H6).
    destruct (run st1 evs) as [st2 out2]. simpl in *.
    split; [done|]. split; [|auto].
    intros r [?|?]%elem_of_app; auto.
Qed.

(** X8. A Call that names its own question in a parameter is never
    answered with a Return.  Its entry is registered before the parameters
    are resolved, so the reference finds an entry that is not done and the
    handler waits for the promise that only its own completion would
    resolve: unless another parameter throws, nothing is sent on arrival,
    and as long as no other Call carries the same id the handler stays
    suspended, gets no timer, and no frame carries its id. *)
Theorem self_reference_is_never_answered evs st msg ps p k later :
  st = (run init evs).1 →
  is_call msg = true → announced msg = true →
  prim_key (get_field "questionId" msg) = Some k →
  questionsInFlight st !! k = None →
  get_field "params" msg = VArr ps →
  p ∈ ps → is_reference p = true →
  get_field "resultOf" p = get_field "questionId" msg →
  get_field "questionId" msg ≠ VNum 0 →
  Forall (avoids [get_field "questionId" msg]) later →
  (∀ t, t ∈ timers (run (step st (Message (Decoded msg))).1 later).1 →
        tm_questionId t ≠ get_field "questionId" msg) ∧
  (∀ r, r ∈ (run (step st (Message (Decoded msg))).1 later).2 →
        answer_id r ≠ get_field "questionId" msg) ∧
  ((∃ message,
      (step st (Message (Decoded msg))).2 =
        [Exception (get_field "questionId" msg) message]) ∨
   ((step st (Message (Decoded msg))).2 = [] ∧
    stuck_on k (get_field "questionId" msg)
      (run (step st (Message (Decoded msg))).1 later).1)).
Proof.
  intros -> Hcall Hann Hk Hfresh Hps Hin Href Hid Hzero Hlater.
  set (st := (run init evs).1) in *.
  assert (wf st) as Hwf by apply run_wf, wf_init.
  assert (keyed st) as [Hks Hkt] by apply run_keyed, keyed_init.
  simpl step. rewrite Hcall, Hann. simpl andb. cbv iota.
  pose proof (question_key_of_prim (objects st) _ _ Hk) as Hkey.
  assert (unfinished (register k (questionsInFlight st)) k) as Hreg.
  { exists fresh_entry. unfold register. rewrite Hfresh, lookup_insert_eq. done. }
  destruct (on_call_cases msg st) as [Hprom _]. simpl in Hprom.
  rewrite Hkey in Hprom.
  destruct (on_call_awaits msg st ps p (get_field "questionId" msg) k)
    as [Ht Hcases]; [done|by rewrite Hkey|done..|].
  assert (∀ t, t ∈ suspended st →
            ¬ (t_key t = k ∨ t_questionId t = get_field "questionId" msg))
    as Hnone_s.
  { intros t Hin' Hor.
    assert (t_key t = k) as Heq.
    { destruct Hor as [?|Heq]; [done|]. apply Hks; [done|]. by rewrite Heq. }
    destruct (wf_tasks st Hwf t Hin') as [q Hq]. congruence. }
  assert (∀ t, t ∈ timers st →
            tm_key t ≠ k ∧ tm_questionId t ≠ get_field "questionId" msg)
    as Hnone_t.
  { intros t Hin'.
    assert (tm_key t ≠ k) as Hne.
    { intros Heq. destruct (wf_timers st Hwf t Hin') as [q Hq]. congruence. }
    split; [done|]. intros Heq. apply Hne, Hkt; [done|]. by rewrite Heq. }
  assert (self_waiting k (get_field "questionId" msg) (on_call msg st).1) as Hinv.
  { split; [by eapply promoted_unfinished|]. rewrite Ht. split; [|done].
    destruct Hcases as [(m & _ & ->)|(_ & slots & Hw & ->)].
    - intros t Hin' Hor. by destruct (Hnone_s t Hin').
    - intros t [Hin'| ->%list_elem_of_singleton]%elem_of_app Hor; [|done].
      by destruct (Hnone_s t Hin'). }
  destruct (run_self_waiting _ later k _ Hk Hzero Hinv Hlater)
    as ((_ & _ & Htimers) & Hreplies & Hstuck).
  split; [intros t Hin'; by apply Htimers|]. split; [done|].
  destruct Hcases as [(m & Hout & _)|(Hout & slots & Hw & Hs)].
  - left. by exists m.
  - right. split; [done|]. apply Hstuck.
    eexists. rewrite Hs. split; [apply elem_of_app; right; left|].
    rewrite Hkey. done.
Qed.

Lemma self_reference_is_never_answered_witness :
  (∀ r, r ∈ (run (step init (Message (Decoded call_self))).1
               [Message Pipelined.call_suffix; Timeout 0]).2 →
        answer_id r ≠ VNum 1) ∧
  (step init (Message (Decoded call_self))).2 = [] ∧
  stuck_on (KNum 1) (VNum 1)
    (run (step init (Message (Decoded call_self))).1
       [Message Pipelined.call_suffix; Timeout 0]).1.
Proof.
  destruct (self_reference_is_never_answered [] init call_self
              [reference (VNum 1); VStr "!"] (reference (VNum 1)) (KNum 1)
              [Message Pipelined.call_suffix; Timeout 0])
    as (_ & Hreplies & Hcases).
  - reflexivity.
  - reflexivity.
  - reflexivity.
  - reflexivity.
  - reflexivity.
  - reflexivity.
  - left.
  - reflexivity.
  - reflexivity.
  - discriminate.
  - repeat constructor; intros id [= <-] Hin;
      repeat (apply elem_of_cons in Hin as [Hin|Hin]; [discriminate Hin|]);
      by apply elem_of_nil in Hin.
  - split; [exact Hreplies|].
    destruct Hcases as [(m & Hout)|Hstuck]; [discriminate Hout|exact Hstuck].
Defined.

(** ** Every method that was started is answered in its turn *)

Lemma resume_timers_prefix k v ts st :
  ∃ new, timers (resume k v ts st).1 = timers st ++ new.
Proof.
  revert st. induction ts as [|t ts IH]; intros st.
  - exists []. simpl. by rewrite app_nil_r.
  - rewrite resume_step.
    destruct (all_ready (t_slots (resumed k v t))) as [args|].
    + destruct (dispatch_cases (t_questionId t) (t_key t) (t_method t) args st)
        as [(h & _ & _ & ->)|(m & ->)].
      * destruct (IH {| questionsInFlight := questionsInFlight st;
                        suspended := suspended st;
                        timers := timers st ++
                          [Timer (t_questionId t) (t_key t) h args];
                        objects := objects st |}) as [new Hnew].
        destruct (resume k v ts _) as [st2 out2]. simpl in *.
        eexists. by rewrite Hnew, <-(assoc_L (++)).
      * destruct (IH st) as [new Hnew].
        destruct (resume k v ts st) as [st2 out2]. by exists new.
    + destruct (IH (suspend (resumed k v t) st)) as [new Hnew].
      destruct (resume k v ts _) as [st2 out2]. by exists new.
Qed.

Lemma on_timeout_timers_prefix i st t :
  timers st !! i = Some t →
  ∃ new, timers (on_timeout i st).1 = delete i (timers st) ++ new.
Proof.
  intros Et. unfold on_timeout. rewrite Et.
  destruct (finalizeQuestion _ _ _) as [[tbl woken]|];
    [|exists []; simpl; by rewrite app_nil_r].
  destruct woken; [|exists []; simpl; by rewrite app_nil_r].
  destruct (resume_timers_prefix (tm_key t)
              (run_handler (tm_handler t) (tm_args t)) (suspended st)
              {| questionsInFlight := tbl; suspended := [];
                 timers := delete i (timers st); objects := objects st |})
    as [new Hnew].
  destruct (resume _ _ _ _) as [st1 out]. by exists new.
Qed.

Lemma on_timeout_head i st t :
  wf st → timers st !! i = Some t →
  ∃ rest, (on_timeout i st).2 =
            Return (tm_questionId t) (run_handler (tm_handler t) (tm_args t))
              :: rest.
Proof.
  intros Hwf Et.
  assert (t ∈ timers st) as Hin by by eapply list_elem_of_lookup_2.
  unfold on_timeout. rewrite Et.
  destruct (finalizeQuestion _ _ _) as [[tbl woken]|] eqn:Ef.
  - destruct (if woken then _ else _). by eexists.
  - apply finalizeQuestion_None in Ef.
    destruct (wf_timers st Hwf t Hin) as [q Hq]. congruence.
Qed.

(** A pending timer is answered once the timers before it and its own have
    elapsed. *)
Lemma drain_answers st j t n :
  wf st → timers st !! j = Some t → j < n →
  Return (tm_questionId t) (run_handler (tm_handler t) (tm_args t))
    ∈ (drain n st).2.
Proof.
  revert st j. induction n as [|n IH]; intros st j Hwf Et Hn; [lia|].
  assert (timers st ≠ []) as Hne by (intros Heq; by rewrite Heq in Et).
  rewrite drain_S by done.
  pose proof (on_timeout_wf 0 st Hwf) as Hwf1.
  destruct (timers st) as [|t0 ts] eqn:Hts; [done|].
  destruct (on_timeout_timers_prefix 0 st t0) as [new Hnew];
    [by rewrite Hts|]. rewrite Hts in Hnew. simpl in Hnew.
  destruct j as [|j].
  - destruct (on_timeout_head 0 st t Hwf) as [rest Hout]; [by rewrite Hts|].
    destruct (on_timeout 0 st) as [st1 out1]. simpl in *. subst out1.
    destruct (drain n st1). simpl. left.
  - assert (timers (on_timeout 0 st).1 !! j = Some t) as Et1.
    { rewrite Hnew. by apply lookup_app_l_Some. }
    destruct (on_timeout 0 st) as [st1 out1]. simpl in *.
    specialize (IH st1 j Hwf1 Et1 ltac:(lia)).
    destruct (drain n st1). simpl in *. apply elem_of_app. by right.
Qed.



(** * Further properties of the page *)

Section issuer_properties.
Import Issuer.

Lemma prim_key_num id n : prim_key id = Some (KNum n) → id = VNum n.
Proof. destruct id; simpl; intros [=]; by subst. Qed.

(** ** Question ids *)

Lemma step_sends st e :
  (omap sent_id (step st e).2 = [] ∧
   nextQuestionId (step st e).1 = nextQuestionId st) ∨
  (omap sent_id (step st e).2 = [VNum (nextQuestionId st)] ∧
   nextQuestionId (step st e).1 = (nextQuestionId st + 1)%Z).
Proof.
  destruct e as [|r|f|method params|method params|ref]; simpl.
  - by left.
  - by left.
  - left. split; [|apply IssuerFacts.onmessage_counter].
    destruct f as [|msg]; [done|]. simpl.
    destruct (get_field "type" msg) as [| | | | |t| |]; try done.
    repeat case_decide; try done;
      destruct (find_call _ _) as [[k q]|]; try done;
      destruct (settles q); try done. by destruct (convertible _).
  - unfold callRPC. destruct (socket_open st); [by right|by left].
  - unfold callPipelined. destruct (socket_open st); [by right|by left].
  - left. split; [done|apply IssuerFacts.awaitResult_counter].
Qed.

(** X10. The question ids on the frames the page sends are 1, 2, 3, ... in
    the order of sending, one per [callRPC] or [callPipelined] on an open
    socket: no id is skipped and none is used twice. *)
Theorem question_ids_count_up evs :
  omap sent_id (run init evs).2 =
    VNum <$> seqZ 1 (nextQuestionId (run init evs).1 - 1).
Proof.
  assert (∀ st,
    (nextQuestionId st ≤ nextQuestionId (run st evs).1)%Z ∧
    omap sent_id (run st evs).2 =
      VNum <$> seqZ (nextQuestionId st)
                 (nextQuestionId (run st evs).1 - nextQuestionId st)) as Hgen.
  { induction evs as [|e evs IH]; intros st.
    - simpl. split; [lia|]. by rewrite seqZ_nil by lia.
    - simpl. pose proof (step_sends st e) as Hstep.
      destruct (step st e) as [st1 out1]. specialize (IH st1).
      destruct (run st1 evs) as [st2 out2]. simpl in *.
      rewrite omap_app. destruct IH as [Hle ->].
      destruct Hstep as [[-> Heq]|[-> Heq]]; rewrite Heq in *.
      + done.
      + split; [lia|]. simpl.
        rewrite (seqZ_cons (nextQuestionId st)) by lia. rewrite fmap_cons.
        do 3 f_equal; lia. }
  by destruct (Hgen init) as [_ ->].
Qed.

(** ** Entries of [callsInFlight] *)

Lemma init_owned : owned init.
Proof. intros k q Hq. simpl in Hq. by rewrite lookup_empty in Hq. Qed.

Lemma step_owned st e : owned st → owned (step st e).1.
Proof.
  intros Hst. destruct e as [|r|f|method params|method params|ref]; simpl.
  - done.
  - done.
  - intros k q Hq.
    destruct (IssuerFacts.onmessage_table f st)
      as [Heq|(msg & k' & q' & _ & _ & _ & Heq)]; rewrite Heq in Hq.
    + by apply Hst.
    + apply lookup_delete_Some in Hq as [_ Hq]. by apply Hst.
  - unfold callRPC. destruct (socket_open st); [|done].
    intros k q Hq. simpl in Hq.
    apply lookup_insert_Some in Hq as [[<- <-]|[_ Hq]]; [done|by apply Hst].
  - unfold callPipelined. destruct (socket_open st); [|done].
    intros k q Hq. simpl in Hq.
    apply lookup_insert_Some in Hq as [[<- <-]|[_ Hq]]; [done|by apply Hst].
  - unfold awaitResult. destruct (is_reference ref); [|done].
    destruct (find_call _ _) as [[k' q']|] eqn:E; [|done].
    apply IssuerFacts.find_call_Some in E as [_ Hq'].
    destruct (Hst k' q' Hq') as [Hd _]. rewrite Hd.
    destruct (promise q') eqn:Hp; [done|].
    intros k q Hq. simpl in Hq.
    apply lookup_insert_Some in Hq as [[<- <-]|[_ Hq]]; [done|by apply Hst].
Qed.

Lemma run_owned st evs : owned st → owned (run st evs).1.
Proof.
  revert st. induction evs as [|e evs IH]; intros st Hst; [done|].
  simpl. pose proof (step_owned st e Hst) as H1.
  destruct (step st e) as [st1 out1]. specialize (IH st1 H1).
  by destruct (run st1 evs).
Qed.

(** X11. [awaitResult] never hands back a stored result.  The Return that
    would mark an entry done deletes it in the same turn, so the entry that
    [awaitResult] finds is never done: the call throws, or it returns the
    promise that the answer to the question will settle. *)
Theorem awaitResult_finds_no_result evs ref :
  (∃ message, (awaitResult ref (run init evs).1).2 = Throws message) ∨
  (∃ k, prim_key (get_field "resultOf" ref) = Some k ∧
        is_Some (callsInFlight (run init evs).1 !! k) ∧
        (awaitResult ref (run init evs).1).2 = Pends (AwaitPromise k)).
Proof.
  pose proof (run_owned init evs init_owned) as Hst.
  unfold awaitResult. destruct (is_reference ref); [|left; by eexists].
  destruct (find_call _ _) as [[k q]|] eqn:E; [|left; by eexists].
  apply IssuerFacts.find_call_Some in E as [Hk Hq].
  destruct (Hst k q Hq) as [Hd _]. rewrite Hd. right. exists k.
  split; [done|]. split; [by eexists|]. by destruct (promise q).
Qed.

(** ** Who settles a promise *)

Lemma step_counter st e :
  (nextQuestionId st ≤ nextQuestionId (step st e).1)%Z.
Proof. destruct (step_sends st e) as [[_ ->]|[_ ->]]; lia. Qed.

(** An id that has been given out and is not in flight never comes back. *)
Lemma step_absent st e n :
  (n < nextQuestionId st)%Z →
  callsInFlight st !! KNum n = None →
  callsInFlight (step st e).1 !! KNum n = None.
Proof.
  intros Hn Hnone. destruct e as [|r|f|method params|method params|ref]; simpl.
  - done.
  - done.
  - destruct (IssuerFacts.onmessage_table f st)
      as [->|(msg & k' & q' & _ & _ & _ & ->)]; [done|].
    apply lookup_delete_None. by right.
  - unfold callRPC. destruct (socket_open st); [|done]. simpl.
    rewrite lookup_insert_ne; [done|]. intros [=]. lia.
  - unfold callPipelined. destruct (socket_open st); [|done]. simpl.
    rewrite lookup_insert_ne; [done|]. intros [=]. lia.
  - destruct (callsInFlight (awaitResult ref st).1 !! KNum n) as [q|] eqn:E;
      [|done].
    assert (is_Some (callsInFlight st !! KNum n)) as [q' Hq'].
    { apply IssuerFacts.awaitResult_table with (ref := ref). by eexists. }
    congruence.
Qed.

Lemma run_absent st evs n :
  (n < nextQuestionId st)%Z →
  callsInFlight st !! KNum n = None →
  callsInFlight (run st evs).1 !! KNum n = None.
Proof.
  revert st. induction evs as [|e evs IH]; intros st Hn Hnone; [done|].
  simpl. pose proof (step_absent st e n Hn Hnone) as H1.
  pose proof (step_counter st e) as H2.
  destruct (step st e) as [st1 out1]. simpl in *.
  specialize (IH st1). destruct (run st1 evs). apply IH; [lia|done].
Qed.

(** Only the arrival of an answer settles a promise: the one held by the
    entry the answer's id denotes, which is deleted in the same turn. *)
Lemma step_settles st e eff p :
  eff ∈ (step st e).2 → settled eff = Some p →
  ∃ msg k q,
    e = Receive (Decoded msg) ∧
    prim_key (get_field "answerId" msg) = Some k ∧
    callsInFlight st !! k = Some q ∧ settles q = Some p ∧
    callsInFlight (step st e).1 = delete k (callsInFlight st) ∧
    (step st e).2 = [eff].
Proof.
  destruct e as [|r|f|method params|method params|ref]; simpl.
  - intros H. by apply elem_of_nil in H.
  - intros H. by apply elem_of_nil in H.
  - destruct f as [|msg]; simpl; [intros H; by apply elem_of_nil in H|].
    destruct (get_field "type" msg) as [| | | | |t| |];
      try (intros H; by apply elem_of_nil in H).
    destruct (decide (t = "return")) as [->|Hr].
    + destruct (find_call _ _) as [[k q]|] eqn:E;
        [|intros H; by apply elem_of_nil in H].
      apply IssuerFacts.find_call_Some in E as [Hk Hq]. simpl.
      destruct (settles q) as [p'|] eqn:Es; [|intros H; by apply elem_of_nil in H].
      intros ->%list_elem_of_singleton [= <-]. by exists msg, k, q.
    + destruct (decide (t = "exception")) as [->|He];
        [|intros H; by apply elem_of_nil in H].
      destruct (find_call _ _) as [[k q]|] eqn:E;
        [|intros H; by apply elem_of_nil in H].
      apply IssuerFacts.find_call_Some in E as [Hk Hq].
      destruct (settles q) as [p'|] eqn:Es;
        [|intros H; by apply elem_of_nil in H].
      destruct (convertible _); [|intros H; by apply elem_of_nil in H]. simpl.
      intros ->%list_elem_of_singleton [= <-]. by exists msg, k, q.
  - unfold callRPC. destruct (socket_open st); simpl.
    + intros ->%list_elem_of_singleton. done.
    + intros H. by apply elem_of_nil in H.
  - unfold callPipelined. destruct (socket_open st); simpl.
    + intros ->%list_elem_of_singleton. done.
    + intros H. by apply elem_of_nil in H.
  - intros H. by apply elem_of_nil in H.
Qed.

Lemma run_settles_once st evs seen :
  owned st → ids_allocated st →
  (∀ p, p ∈ seen →
        ∃ n, (p = CallPromise (KNum n) ∨ p = AwaitPromise (KNum n)) ∧
             (n < nextQuestionId st)%Z ∧ callsInFlight st !! KNum n = None) →
  NoDup seen →
  NoDup (seen ++ omap settled (run st evs).2).
Proof.
  revert st seen. induction evs as [|e evs IH]; intros st seen Hown Hids Hseen Hnd.
  - simpl. by rewrite app_nil_r.
  - simpl. pose proof (step_owned st e Hown) as Hown1.
    pose proof (IssuerFacts.step_ids_allocated st e Hids) as Hids1.
    pose proof (step_counter st e) as Hcount.
    pose proof (step_settles st e) as Hsettles.
    pose proof (λ n, step_absent st e n) as Habsent.
    destruct (step st e) as [st1 out1]. simpl in *.
    pose proof (IH st1) as IH1. destruct (run st1 evs) as [st2 out2]. simpl in *.
    rewrite omap_app, (assoc_L (++)). apply IH1; [done|done| |].
    + intros p [Hp|Hp]%elem_of_app.
      * destruct (Hseen p Hp) as (n & Hpn & Hn & Hnone). exists n.
        split; [done|]. split; [lia|]. by apply Habsent.
      * apply list_elem_of_omap in Hp as (eff & Hin & Heff).
        destruct (Hsettles eff p Hin Heff)
          as (msg & k & q & _ & _ & Hq & Hs & Htbl & _).
        destruct Hids as [_ Hkeys].
        destruct (Hkeys k) as (n & -> & Hn); [by eexists|].
        destruct (Hown (KNum n) q Hq) as [_ Hp]. rewrite Hs in Hp.
        exists n. split; [destruct p; destruct Hp as [-> _]; auto|].
        split; [lia|]. rewrite Htbl. apply lookup_delete_eq.
    + apply NoDup_app. split; [done|]. split.
      * intros p Hp (eff & Hin & Heff)%list_elem_of_omap.
        destruct (Hsettles eff p Hin Heff)
          as (msg & k & q & _ & _ & Hq & Hs & _ & _).
        destruct (Hseen p Hp) as (n & Hpn & _ & Hnone).
        destruct (Hown k q Hq) as [_ Hp']. rewrite Hs in Hp'.
        destruct Hpn as [-> | ->]; destruct Hp' as [<- _]; congruence.
      * assert (omap settled out1 = [] ∨ ∃ p, omap settled out1 = [p])
          as [->|[p ->]]; [|constructor|apply NoDup_singleton].
        destruct (omap settled out1) as [|p ps] eqn:Hrest; [by left|].
        right. exists p.
        assert (p ∈ omap settled out1) as Hp by (rewrite Hrest; left).
        apply list_elem_of_omap in Hp as (eff & Hin & Heff).
        destruct (Hsettles eff p Hin Heff)
          as (_ & _ & _ & _ & _ & _ & _ & _ & Hout).
        rewrite Hout in Hrest. simpl in Hrest. rewrite Heff in Hrest.
        by injection Hrest as <-.
Qed.

(** X12. No promise is settled twice.  Over any run of the page, the
    promises that arriving answers fulfil or reject are pairwise distinct:
    an answer settles the promise of the entry its id denotes and deletes
    that entry, and the id is never given out again. *)
Theorem no_promise_is_settled_twice evs :
  NoDup (omap settled (run init evs).2).
Proof.
  apply (run_settles_once init evs []).
  - apply init_owned.
  - apply IssuerFacts.init_ids_allocated.
  - intros p Hp. by apply elem_of_nil in Hp.
  - constructor.
Qed.

(** X13. An answer that arrives before its result is awaited is lost: once
    the Return or Exception of a question the page has issued has been
    processed, or the question was never in flight, [awaitResult] on its
    reference throws "No call in flight" then and at any later time. *)
Theorem awaitResult_after_the_answer_throws evs n later :
  (n < nextQuestionId (run init evs).1)%Z →
  callsInFlight (run init evs).1 !! KNum n = None →
  (awaitResult (reference (VNum n)) (run (run init evs).1 later).1).2 =
    Throws ("No call in flight for #" +:+ pretty n).
Proof.
  intros Hn Hnone.
  pose proof (run_absent (run init evs).1 later n Hn Hnone) as Hlater.
  unfold awaitResult. simpl. unfold find_call. simpl. by rewrite Hlater.
Qed.

Lemma awaitResult_after_the_answer_throws_witness :
  (awaitResult (reference (VNum 1))
     (run (run init [InitWebSocket; ReadyState OPEN;
                     CallPipelined (VStr "makeGreeting") (VArr [VStr "Alice"]);
                     Receive (Decoded greeting_returned)]).1
        [CallRPC (VStr "makeGreeting") (VArr [VStr "Bob"])]).1).2 =
    Throws "No call in flight for #1".
Proof.
  apply (awaitResult_after_the_answer_throws
           [InitWebSocket; ReadyState OPEN;
            CallPipelined (VStr "makeGreeting") (VArr [VStr "Alice"]);
            Receive (Decoded greeting_returned)] 1
           [CallRPC (VStr "makeGreeting") (VArr [VStr "Bob"])]).
  - vm_compute. reflexivity.
  - vm_compute. reflexivity.
Defined.

(** ** From the call to its answer *)

(** While no answer for [n] arrives, the entry of [n] stays as it is, but
    for the promise that the first [awaitResult] on it makes. *)
Lemma step_entry st e n q :
  ids_allocated st →
  callsInFlight st !! KNum n = Some q →
  ¬ answers n e →
  callsInFlight (step st e).1 !! KNum n = Some q ∨
  (awaits n e ∧ promise q = false ∧
   callsInFlight (step st e).1 !! KNum n = Some (awaited_entry n q)).
Proof.
  intros [_ Hkeys] Hq Hans.
  destruct e as [|r|f|method params|method params|ref]; simpl.
  - by left.
  - by left.
  - left. destruct (IssuerFacts.onmessage_table f st)
      as [->|(msg & k' & q' & -> & _ & Hfind & ->)]; [done|].
    apply IssuerFacts.find_call_Some in Hfind as [Hk' _].
    rewrite lookup_delete_ne; [done|]. intros ->.
    apply Hans. simpl. by apply prim_key_num.
  - left. unfold callRPC. destruct (socket_open st); [|done]. simpl.
    rewrite lookup_insert_ne; [done|]. intros [= <-].
    destruct (Hkeys (KNum (nextQuestionId st))) as (m & [= <-] & Hm);
      [by eexists|lia].
  - left. unfold callPipelined. destruct (socket_open st); [|done]. simpl.
    rewrite lookup_insert_ne; [done|]. intros [= <-].
    destruct (Hkeys (KNum (nextQuestionId st))) as (m & [= <-] & Hm);
      [by eexists|lia].
  - unfold awaitResult. destruct (is_reference ref); [|by left].
    destruct (find_call _ _) as [[k' q']|] eqn:E; [|by left].
    apply IssuerFacts.find_call_Some in E as [Hk' Hq'].
    destruct (done q') eqn:Hd; [by left|].
    destruct (promise q') eqn:Hp; [by left|]. simpl.
    destruct (decide (k' = KNum n)) as [->|Hne].
    + rewrite Hq in Hq'. injection Hq' as <-. right.
      split; [by apply prim_key_num|]. split; [done|].
      rewrite lookup_insert_eq. unfold awaited_entry. by rewrite Hd.
    + left. by rewrite lookup_insert_ne.
Qed.

Lemma run_entry st evs n q :
  ids_allocated st →
  callsInFlight st !! KNum n = Some q →
  Forall (λ e, ¬ answers n e) evs →
  callsInFlight (run st evs).1 !! KNum n = Some q ∨
  (Exists (awaits n) evs ∧ promise q = false ∧
   callsInFlight (run st evs).1 !! KNum n = Some (awaited_entry n q)).
Proof.
  intros Hids Hq Hevs. revert st q Hids Hq.
  induction Hevs as [|e evs He _ IH]; intros st q Hids Hq; [by left|].
  simpl. pose proof (IssuerFacts.step_ids_allocated st e Hids) as Hids1.
  pose proof (step_entry st e n q Hids Hq He) as Hstep.
  destruct (step st e) as [st1 out1]. simpl in *.
  pose proof (IH st1) as IH1. destruct (run st1 evs) as [st2 out2]. simpl in *.
  destruct Hstep as [Hq1|(Haw & Hp & Hq1)].
  - destruct (IH1 q Hids1 Hq1) as [?|(Hex & Hp & ?)]; [by left|].
    right. split; [by right|done].
  - right. split; [by left|]. split; [done|].
    destruct (IH1 _ Hids1 Hq1) as [?|(_ & Hp' & _)]; [done|done].
Qed.

(** While no answer for [n] arrives, no promise of question [n] is
    settled. *)
Lemma run_unsettled st evs n p :
  owned st →
  p = CallPromise (KNum n) ∨ p = AwaitPromise (KNum n) →
  Forall (λ e, ¬ answers n e) evs →
  ∀ eff, eff ∈ (run st evs).2 → settled eff = Some p → False.
Proof.
  intros Hown Hp Hevs. revert st Hown.
  induction Hevs as [|e evs He _ IH]; intros st Hown eff;
    [intros H; by apply elem_of_nil in H|].
  simpl. pose proof (step_owned st e Hown) as Hown1.
  pose proof (step_settles st e) as Hsettles.
  destruct (step st e) as [st1 out1]. simpl in *.
  pose proof (IH st1 Hown1) as IH1. destruct (run st1 evs) as [st2 out2].
  simpl in *. intros [Hin|Hin]%elem_of_app Heff; [|by eapply IH1].
  destruct (Hsettles eff p Hin Heff) as (msg & k & q & -> & Hk & Hq & Hs & _).
  destruct (Hown k q Hq) as [_ Hq']. rewrite Hs in Hq'.
  apply He. simpl. apply prim_key_num.
  destruct Hp as [-> | ->]; destruct Hq' as [-> _]; done.
Qed.

(** What an answer for [n] does to an entry that holds a promise. *)
Lemma onmessage_settles st msg n q p :
  callsInFlight st !! KNum n = Some q → settles q = Some p →
  get_field "answerId" msg = VNum n →
  (get_field "type" msg = VStr "return" →
   (step st (Receive (Decoded msg))).2 = [Fulfil p (get_field "result" msg)]) ∧
  (get_field "type" msg = VStr "exception" →
   convertible (get_field "error" msg) = true →
   (step st (Receive (Decoded msg))).2 =
     [Reject p (error_message (get_field "error" msg))]).
Proof.
  intros Hq Hs Hid.
  assert (find_call (callsInFlight st) (get_field "answerId" msg)
          = Some (KNum n, q)) as Hfind.
  { apply IssuerFacts.find_call_Some. by rewrite Hid. }
  split.
  - intros Ht. simpl. rewrite Ht. simpl. by rewrite Hfind, Hs.
  - intros Ht Hc. simpl. rewrite Ht. simpl. by rewrite Hfind, Hs, Hc.
Qed.

(** X14. The promise [callRPC] returns is settled by the answer to its
    question and by nothing else: whatever the page does and receives in
    between, short of an answer or an [awaitResult] for that id, settles it
    not, and then a Return with that id fulfils it with the frame's
    [result] and an Exception rejects it with the frame's [error]. *)
Theorem callRPC_promise_is_settled_by_its_answer evs method params later msg :
  socket_open (run init evs).1 = true →
  Forall (λ e, ¬ answers (nextQuestionId (run init evs).1) e ∧
               ¬ awaits (nextQuestionId (run init evs).1) e) later →
  get_field "answerId" msg = VNum (nextQuestionId (run init evs).1) →
  (callRPC method params (run init evs).1).1.2 =
    Pends (CallPromise (KNum (nextQuestionId (run init evs).1))) ∧
  (CallPromise (KNum (nextQuestionId (run init evs).1))
     ∉ omap settled (run (callRPC method params (run init evs).1).1.1 later).2) ∧
  (get_field "type" msg = VStr "return" →
   (step (run (callRPC method params (run init evs).1).1.1 later).1
      (Receive (Decoded msg))).2 =
     [Fulfil (CallPromise (KNum (nextQuestionId (run init evs).1)))
        (get_field "result" msg)]) ∧
  (get_field "type" msg = VStr "exception" →
   convertible (get_field "error" msg) = true →
   (step (run (callRPC method params (run init evs).1).1.1 later).1
      (Receive (Decoded msg))).2 =
     [Reject (CallPromise (KNum (nextQuestionId (run init evs).1)))
        (error_message (get_field "error" msg))]).
Proof.
  intros Hopen Hlater Hid.
  pose proof (run_owned init evs init_owned) as Hown.
  pose proof (IssuerFacts.run_ids_allocated init evs
                IssuerFacts.init_ids_allocated) as Hids.
  pose proof (step_owned _ (CallRPC method params) Hown) as Hown1.
  pose proof (IssuerFacts.step_ids_allocated _ (CallRPC method params) Hids)
    as Hids1.
  set (st0 := (run init evs).1) in *. set (n := nextQuestionId st0) in *.
  simpl in Hown1, Hids1. unfold callRPC in *. rewrite Hopen in *. simpl in *.
  set (st1 := {| callsInFlight := _ |}) in *.
  split; [done|]. split.
  { intros (eff & Hin & Heff)%list_elem_of_omap.
    eapply (run_unsettled st1 later n); [done|by left| |exact Hin|exact Heff].
    eapply Forall_impl; [exact Hlater|]. by intros e [? _]. }
  apply (onmessage_settles _ msg n
           {| done := false; result := VUndef;
              settles := Some (CallPromise (KNum n)); promise := false |});
    [|done|done].
  destruct (run_entry st1 later n
              {| done := false; result := VUndef;
                 settles := Some (CallPromise (KNum n)); promise := false |})
    as [Hq|(Hex & _)]; [done|apply lookup_insert_eq| |done|].
  - eapply Forall_impl; [exact Hlater|]. by intros e [? _].
  - apply Exists_exists in Hex as (e & Hin & Haw).
    rewrite Forall_forall in Hlater. by destruct (Hlater e Hin) as [_ []].
Qed.

Lemma callRPC_promise_is_settled_by_its_answer_witness :
  (step (run (callRPC (VStr "makeGreeting") (VArr [VStr "Alice"])
                (run init [InitWebSocket; ReadyState OPEN]).1).1.1
           [CallPipelined (VStr "makeGreeting") (VArr [VStr "Bob"])]).1
     (Receive (Decoded greeting_returned))).2 =
    [Fulfil (CallPromise (KNum 1)) (VStr "Hello, Alice!")].
Proof.
  destruct (callRPC_promise_is_settled_by_its_answer
              [InitWebSocket; ReadyState OPEN]
              (VStr "makeGreeting") (VArr [VStr "Alice"])
              [CallPipelined (VStr "makeGreeting") (VArr [VStr "Bob"])]
              greeting_returned) as (_ & _ & Hreturn & _).
  - reflexivity.
  - repeat constructor; intros H; exact H.
  - reflexivity.
  - apply Hreturn. reflexivity.
Defined.

(** X15. The result of a pipelined call reaches [awaitResult]: when the
    reference [callPipelined] returned is awaited before the answer has
    arrived, [awaitResult] returns a promise, nothing settles that promise
    until the answer comes, and then a Return with the id fulfils it with
    the frame's [result] and an Exception rejects it with the frame's
    [error]. *)
Theorem pipelined_result_reaches_awaitResult
    evs method params before after msg :
  socket_open (run init evs).1 = true →
  Forall (λ e, ¬ answers (nextQuestionId (run init evs).1) e) before →
  Forall (λ e, ¬ answers (nextQuestionId (run init evs).1) e) after →
  get_field "answerId" msg = VNum (nextQuestionId (run init evs).1) →
  (callPipelined method params (run init evs).1).1.2 =
    reference (VNum (nextQuestionId (run init evs).1)) ∧
  (awaitResult (reference (VNum (nextQuestionId (run init evs).1)))
     (run (callPipelined method params (run init evs).1).1.1 before).1).2 =
    Pends (AwaitPromise (KNum (nextQuestionId (run init evs).1))) ∧
  (AwaitPromise (KNum (nextQuestionId (run init evs).1))
     ∉ omap settled
         (run (callPipelined method params (run init evs).1).1.1
            (before ++
             AwaitResult (reference (VNum (nextQuestionId (run init evs).1)))
             :: after)).2) ∧
  (get_field "type" msg = VStr "return" →
   (step (run (callPipelined method params (run init evs).1).1.1
            (before ++
             AwaitResult (reference (VNum (nextQuestionId (run init evs).1)))
             :: after)).1
      (Receive (Decoded msg))).2 =
     [Fulfil (AwaitPromise (KNum (nextQuestionId (run init evs).1)))
        (get_field "result" msg)]) ∧
  (get_field "type" msg = VStr "exception" →
   convertible (get_field "error" msg) = true →
   (step (run (callPipelined method params (run init evs).1).1.1
            (before ++
             AwaitResult (reference (VNum (nextQuestionId (run init evs).1)))
             :: after)).1
      (Receive (Decoded msg))).2 =
     [Reject (AwaitPromise (KNum (nextQuestionId (run init evs).1)))
        (error_message (get_field "error" msg))]).
Proof.
  intros Hopen Hbefore Hafter Hid.
  pose proof (run_owned init evs init_owned) as Hown.
  pose proof (IssuerFacts.run_ids_allocated init evs
                IssuerFacts.init_ids_allocated) as Hids.
  pose proof (step_owned _ (CallPipelined method params) Hown) as Hown1.
  pose proof (IssuerFacts.step_ids_allocated _ (CallPipelined method params) Hids)
    as Hids1.
  set (st0 := (run init evs).1) in *. set (n := nextQuestionId st0) in *.
  simpl in Hown1, Hids1. unfold callPipelined in *. rewrite Hopen in *.
  simpl in *. set (st1 := {| callsInFlight := _ |}) in *.
  set (q0 := {| done := false; result := VNull; settles := None;
                promise := false |}).
  assert (callsInFlight st1 !! KNum n = Some q0) as Hq0
    by apply lookup_insert_eq.
  assert (Forall (λ e, ¬ answers n e)
            (before ++ AwaitResult (reference (VNum n)) :: after)) as Hall.
  { apply Forall_app. split; [done|]. constructor; [|done]. by intros []. }
  pose proof (IssuerFacts.run_ids_allocated st1 before Hids1) as Hids2.
  assert (callsInFlight (run st1 before).1 !! KNum n = Some q0 ∨
          callsInFlight (run st1 before).1 !! KNum n = Some (awaited_entry n q0))
    as Hq2.
  { destruct (run_entry st1 before n q0 Hids1 Hq0 Hbefore) as [?|(_ & _ & ?)];
      [by left|by right]. }
  assert (callsInFlight
            (awaitResult (reference (VNum n)) (run st1 before).1).1 !! KNum n
          = Some (awaited_entry n q0) ∧
          (awaitResult (reference (VNum n)) (run st1 before).1).2
          = Pends (AwaitPromise (KNum n))) as [Hq3 Hpends].
  { unfold awaitResult. simpl. unfold find_call. simpl.
    destruct Hq2 as [Hq2|Hq2]; rewrite Hq2; simpl; [|by rewrite Hq2].
    by rewrite lookup_insert_eq. }
  split; [done|]. split; [done|]. split.
  { intros (eff & Hin & Heff)%list_elem_of_omap.
    eapply (run_unsettled st1 _ n); [done|by right|exact Hall|exact Hin|exact Heff]. }
  apply (onmessage_settles _ msg n (awaited_entry n q0)); [|done|done].
  rewrite IssuerFacts.issuer_run_app. simpl.
  pose proof (IssuerFacts.step_ids_allocated _
                (AwaitResult (reference (VNum n))) Hids2) as Hids3.
  simpl in Hids3.
  pose proof (run_entry _ after n _ Hids3 Hq3 Hafter) as Hq4.
  destruct (run _ after) as [st4 out4]. simpl in *.
  by destruct Hq4 as [?|(_ & ? & _)].
Qed.

Lemma pipelined_result_reaches_awaitResult_witness :
  (awaitResult (reference (VNum 1))
     (run (callPipelined (VStr "makeGreeting") (VArr [VStr "Alice"])
             (run init [InitWebSocket; ReadyState OPEN]).1).1.1
        [CallPipelined (VStr "appendSuffix")
           (VArr [reference (VNum 1); VStr "!!!"])]).1).2 =
    Pends (AwaitPromise (KNum 1)) ∧
  (step (run (callPipelined (VStr "makeGreeting") (VArr [VStr "Alice"])
                (run init [InitWebSocket; ReadyState OPEN]).1).1.1
           ([CallPipelined (VStr "appendSuffix")
               (VArr [reference (VNum 1); VStr "!!!"])] ++
            AwaitResult (reference (VNum 1)) :: [])).1
     (Receive (Decoded greeting_returned))).2 =
    [Fulfil (AwaitPromise (KNum 1)) (VStr "Hello, Alice!")].
Proof.
  destruct (pipelined_result_reaches_awaitResult
              [InitWebSocket; ReadyState OPEN]
              (VStr "makeGreeting") (VArr [VStr "Alice"])
              [CallPipelined (VStr "appendSuffix")
                 (VArr [reference (VNum 1); VStr "!!!"])]
              [] greeting_returned) as (_ & Hpends & _ & Hreturn & _).
  - reflexivity.
  - repeat constructor; intros H; exact H.
  - constructor.
  - reflexivity.
  - split; [exact Hpends|]. apply Hreturn. reflexivity.
Defined.

(** ** A [callRPC] question that is awaited *)

Lemma issuer_run_app_out st evs1 evs2 :
  (run st (evs1 ++ evs2)).2 = (run st evs1).2 ++ (run (run st evs1).1 evs2).2.
Proof.
  revert st. induction evs1 as [|e evs1 IH]; intros st; simpl.
  - by destruct (run st evs2).
  - destruct (step st e) as [st1 out1]. specialize (IH st1).
    destruct (run st1 (evs1 ++ evs2)), (run st1 evs1) as [st2 out2]. simpl in *.
    destruct (run st2 evs2). simpl in *. by rewrite IH, (assoc_L (++)).
Qed.

Lemma issuer_run_cons_out st e evs :
  (run st (e :: evs)).2 = (step st e).2 ++ (run (step st e).1 evs).2.
Proof.
  cbn [run]. destruct (step st e) as [st1 out1]. cbn [fst snd].
  by destruct (run st1 evs).
Qed.

Lemma step_orphaned st e n : orphaned n st → orphaned n (step st e).1.
Proof.
  intros [Hn Hq]. split; [pose proof (step_counter st e); lia|].
  destruct e as [|r|f|method params|method params|ref]; simpl.
  - done.
  - done.
  - destruct (IssuerFacts.onmessage_table f st)
      as [->|(msg & k' & q' & _ & _ & _ & ->)]; [done|].
    intros q [_ ?]%lookup_delete_Some. by apply Hq.
  - unfold callRPC. destruct (socket_open st); [|done]. simpl. intros q.
    rewrite lookup_insert_ne; [apply Hq|]. intros [=]. lia.
  - unfold callPipelined. destruct (socket_open st); [|done]. simpl. intros q.
    rewrite lookup_insert_ne; [apply Hq|]. intros [=]. lia.
  - unfold awaitResult. destruct (is_reference ref); [|done].
    destruct (find_call _ _) as [[k' q']|]; [|done].
    destruct (done q'); [done|]. destruct (promise q'); [done|]. simpl.
    intros q [[<- <-]|[_ ?]]%lookup_insert_Some; [done|by apply Hq].
Qed.

Lemma run_orphaned st evs n eff :
  owned st → orphaned n st →
  eff ∈ (run st evs).2 → settled eff = Some (CallPromise (KNum n)) → False.
Proof.
  revert st. induction evs as [|e evs IH]; intros st Hown Horph;
    [intros H; by apply elem_of_nil in H|].
  simpl. pose proof (step_owned st e Hown) as Hown1.
  pose proof (step_orphaned st e n Horph) as Horph1.
  pose proof (step_settles st e) as Hsettles.
  destruct (step st e) as [st1 out1]. simpl in *.
  pose proof (IH st1 Hown1 Horph1) as IH1. destruct (run st1 evs) as [st2 out2].
  simpl in *. intros [Hin|Hin]%elem_of_app Heff; [|by apply IH1].
  destruct (Hsettles eff _ Hin Heff) as (msg & k & q & _ & _ & Hq & Hs & _).
  destruct (Hown k q Hq) as [_ Hq']. rewrite Hs in Hq'. destruct Hq' as [<- _].
  destruct Horph as [_ Hnot]. by apply (Hnot q).
Qed.

(** X16. [awaitResult] on the id of a [callRPC] question takes the answer
    away from [callRPC]: it replaces the entry's [resolve] and [reject] by
    those of its own promise, so the promise [callRPC] returned is never
    settled, neither before the answer arrives nor by the answer nor by
    anything after it. *)
Theorem awaitResult_orphans_the_callRPC_promise
    evs method params before later :
  socket_open (run init evs).1 = true →
  Forall (λ e, ¬ answers (nextQuestionId (run init evs).1) e) before →
  CallPromise (KNum (nextQuestionId (run init evs).1))
    ∉ omap settled
        (run (callRPC method params (run init evs).1).1.1
           (before ++
            AwaitResult (reference (VNum (nextQuestionId (run init evs).1)))
            :: later)).2.
Proof.
  intros Hopen Hbefore (eff & Hin & Heff)%list_elem_of_omap. revert Hin Heff.
  pose proof (run_owned init evs init_owned) as Hown.
  pose proof (IssuerFacts.run_ids_allocated init evs
                IssuerFacts.init_ids_allocated) as Hids.
  pose proof (step_owned _ (CallRPC method params) Hown) as Hown1.
  pose proof (IssuerFacts.step_ids_allocated _ (CallRPC method params) Hids)
    as Hids1.
  set (st0 := (run init evs).1) in *. set (n := nextQuestionId st0) in *.
  simpl in Hown1, Hids1. unfold callRPC in *. rewrite Hopen in *. simpl in *.
  set (st1 := {| callsInFlight := _ |}) in *.
  set (q0 := {| done := false; result := VUndef;
                settles := Some (CallPromise (KNum n)); promise := false |}).
  assert (callsInFlight st1 !! KNum n = Some q0) as Hq0
    by apply lookup_insert_eq.
  rewrite issuer_run_app_out. intros [Hin|Hin]%elem_of_app Heff.
  { eapply (run_unsettled st1 before n); [done|by left|done|done|done]. }
  pose proof (run_owned st1 before Hown1) as Hown2.
  pose proof (IssuerFacts.run_ids_allocated st1 before Hids1) as Hids2.
  assert (callsInFlight (run st1 before).1 !! KNum n = Some q0 ∨
          callsInFlight (run st1 before).1 !! KNum n = Some (awaited_entry n q0))
    as Hq2.
  { destruct (run_entry st1 before n q0 Hids1 Hq0 Hbefore) as [?|(_ & _ & ?)];
      [by left|by right]. }
  assert (callsInFlight
            (awaitResult (reference (VNum n)) (run st1 before).1).1 !! KNum n
          = Some (awaited_entry n q0)) as Hq3.
  { unfold awaitResult. simpl. unfold find_call. simpl.
    destruct Hq2 as [Hq2|Hq2]; rewrite Hq2; simpl; [|by rewrite Hq2].
    by rewrite lookup_insert_eq. }
  pose proof (step_owned _ (AwaitResult (reference (VNum n))) Hown2) as Hown3.
  pose proof (IssuerFacts.step_ids_allocated _
                (AwaitResult (reference (VNum n))) Hids2) as Hids3.
  rewrite issuer_run_cons_out in Hin.
  apply elem_of_app in Hin as [Hin|Hin]; [by apply elem_of_nil in Hin|].
  apply (run_orphaned _ later n eff Hown3); [|done|done].
  simpl. split.
  - destruct Hids3 as [_ Hkeys]. simpl in Hkeys.
    destruct (Hkeys (KNum n)) as (m & [= <-] & Hm); [by eexists|lia].
  - intros q Hq. rewrite Hq3 in Hq. by injection Hq as <-.
Qed.

Lemma awaitResult_orphans_the_callRPC_promise_witness :
  CallPromise (KNum 1)
    ∉ omap settled
        (run (callRPC (VStr "makeGreeting") (VArr [VStr "Alice"])
                (run init [InitWebSocket; ReadyState OPEN]).1).1.1
           ([] ++ AwaitResult (reference (VNum 1))
               :: [Receive (Decoded greeting_returned)])).2.
Proof.
  apply (awaitResult_orphans_the_callRPC_promise
           [InitWebSocket; ReadyState OPEN]
           (VStr "makeGreeting") (VArr [VStr "Alice"]) []
           [Receive (Decoded greeting_returned)]).
  - reflexivity.
  - constructor.
Defined.

End issuer_properties.

(** * Pipelining on the worker *)

Lemma resume_timers_new k v ts st :
  ∃ new, timers (resume k v ts st).1 = timers st ++ new ∧
         ∀ tm, tm ∈ new → ∃ t, t ∈ ts ∧ tm_key tm = t_key t.
Proof.
  revert st. induction ts as [|t ts IH]; intros st.
  - exists []. simpl. rewrite app_nil_r. split; [done|].
    intros tm H. by apply elem_of_nil in H.
  - rewrite resume_step.
    destruct (all_ready (t_slots (resumed k v t))) as [args|].
    + destruct (dispatch_cases (t_questionId t) (t_key t) (t_method t) args st)
        as [(h & _ & _ & ->)|(m & ->)].
      * destruct (IH {| questionsInFlight := questionsInFlight st;
                        suspended := suspended st;
                        timers := timers st ++
                          [Timer (t_questionId t) (t_key t) h args];
                        objects := objects st |}) as (new & Hnew & Hkeys).
        destruct (resume k v ts _) as [st2 out2]. simpl in *.
        exists (Timer (t_questionId t) (t_key t) h args :: new).
        split; [by rewrite Hnew, <-(assoc_L (++))|].
        intros tm [->|Hin]%elem_of_cons.
        -- exists t. split; [left|done].
        -- destruct (Hkeys tm Hin) as (t0 & Hin0 & Hk). exists t0.
           split; [by right|done].
      * destruct (IH st) as (new & Hnew & Hkeys).
        destruct (resume k v ts st) as [st2 out2]. exists new.
        split; [done|]. intros tm Hin.
        destruct (Hkeys tm Hin) as (t0 & Hin0 & Hk). exists t0.
        split; [by right|done].
    + destruct (IH (suspend (resumed k v t) st)) as (new & Hnew & Hkeys).
      destruct (resume k v ts _) as [st2 out2]. exists new.
      split; [done|]. intros tm Hin.
      destruct (Hkeys tm Hin) as (t0 & Hin0 & Hk). exists t0.
      split; [by right|done].
Qed.

(** What the expiry of a timer leaves behind. *)
Lemma on_timeout_shape i st t :
  wf st → timers st !! i = Some t →
  ∃ p new,
    questionsInFlight (on_timeout i st).1 =
      <[tm_key t := {| done := true;
                       result := run_handler (tm_handler t) (tm_args t);
                       promise := p |}]> (questionsInFlight st) ∧
    timers (on_timeout i st).1 = delete i (timers st) ++ new ∧
    (∀ tm, tm ∈ new → ∃ t0, t0 ∈ suspended st ∧ tm_key tm = t_key t0) ∧
    (∀ t', t' ∈ suspended (on_timeout i st).1 →
           ∃ t0, t0 ∈ suspended st ∧ t_key t' = t_key t0) ∧
    (∀ t0, t0 ∈ suspended st → Waiting (tm_key t) ∉ t_slots t0 →
           t0 ∈ suspended (on_timeout i st).1).
Proof.
  intros Hwf Et.
  assert (t ∈ timers st) as Hin by by eapply list_elem_of_lookup_2.
  unfold on_timeout. rewrite Et.
  set (res := run_handler (tm_handler t) (tm_args t)).
  destruct (finalizeQuestion _ _ _) as [[tbl woken]|] eqn:Ef.
  2:{ apply finalizeQuestion_None in Ef.
      destruct (wf_timers st Hwf t Hin) as [q Hq]. congruence. }
  apply finalizeQuestion_Some in Ef as (q & p & Hq & -> & _).
  exists p. destruct woken.
  - set (st0 := {| questionsInFlight := _ |}).
    pose proof (resume_table (tm_key t) res (suspended st) st0) as Htable.
    pose proof (resume_suspended (tm_key t) res (suspended st) st0) as Hsusp.
    destruct (resume_timers_new (tm_key t) res (suspended st) st0)
      as (new & Hnew & Hkeys).
    destruct (resume _ _ _ _) as [st1 out]. simpl in *.
    exists new. split; [done|]. split; [done|]. split; [done|]. split.
    + intros t' [H|(t0 & Hin0 & -> & _)]%Hsusp; [by apply elem_of_nil in H|].
      by exists t0.
    + intros t0 Hin0 Hnot. apply Hsusp. right. exists t0. split; [done|].
      assert (resumed (tm_key t) res t0 = t0) as ->.
      { unfold resumed. rewrite settle_slot_id by done. by destruct t0. }
      split; [done|]. rewrite settle_slot_id by done.
      by apply (wf_blocked st Hwf).
  - exists []. simpl. rewrite app_nil_r. split; [done|]. split; [done|].
    split; [intros tm H; by apply elem_of_nil in H|]. split; [|done].
    intros t' Hin'. by exists t'.
Qed.

Lemma drain_wf n st : wf st → wf (drain n st).1.
Proof.
  revert st. induction n as [|n IH]; intros st Hwf; [done|].
  destruct (timers st) as [|t ts] eqn:Ht; [by rewrite drain_quiet|].
  rewrite drain_S by by rewrite Ht.
  pose proof (on_timeout_wf 0 st Hwf) as Hwf1.
  destruct (on_timeout 0 st) as [st1 out1]. specialize (IH st1 Hwf1).
  by destruct (drain n st1).
Qed.

Lemma on_timeout_answered i st k v :
  wf st → answered_with k v st → answered_with k v (on_timeout i st).1.
Proof.
  intros Hwf (Hs & Ht & q & Hq & Hd & Hr).
  destruct (timers st !! i) as [t|] eqn:Et.
  2:{ unfold on_timeout. rewrite Et. simpl. split; [done|]. split; [done|].
      by exists q. }
  assert (t ∈ timers st) as Hin by by eapply list_elem_of_lookup_2.
  destruct (on_timeout_shape i st t Hwf Et)
    as (p & new & Htbl & Htim & Hnew & Hsusp & _).
  split; [|split].
  - intros t' Hin'. destruct (Hsusp t' Hin') as (t0 & Hin0 & ->). by apply Hs.
  - intros t'. rewrite Htim. intros [Hin'|Hin']%elem_of_app.
    + by apply Ht, (list_subseteq_delete i).
    + destruct (Hnew t' Hin') as (t0 & Hin0 & ->). by apply Hs.
  - exists q. rewrite Htbl, lookup_insert_ne; [done|]. by apply Ht.
Qed.

Lemma drain_answered n st k v :
  wf st → answered_with k v st → answered_with k v (drain n st).1.
Proof.
  revert st. induction n as [|n IH]; intros st Hwf Hst; [done|].
  destruct (timers st) as [|t ts] eqn:Ht; [by rewrite drain_quiet|].
  rewrite drain_S by by rewrite Ht.
  pose proof (on_timeout_wf 0 st Hwf) as Hwf1.
  pose proof (on_timeout_answered 0 st k v Hwf Hst) as Hst1.
  destruct (on_timeout 0 st) as [st1 out1]. specialize (IH st1 Hwf1 Hst1).
  by destruct (drain n st1).
Qed.

(** The sole timer of a question is the oldest: its expiry answers the
    question. *)
Lemma on_timeout_sole_head st k t l2 :
  wf st → sole_timer k t st → tm_key t = k → timers st = t :: l2 →
  answered_with k (run_handler (tm_handler t) (tm_args t)) (on_timeout 0 st).1 ∧
  Return (tm_questionId t) (run_handler (tm_handler t) (tm_args t))
    ∈ (on_timeout 0 st).2.
Proof.
  intros Hwf (Hs & _ & l1' & l2' & Htimers & Hothers) Hk Hts.
  assert (timers st !! 0 = Some t) as Et by by rewrite Hts.
  assert (l1' = [] ∧ l2' = l2) as [-> ->].
  { rewrite Hts in Htimers. destruct l1' as [|t0 l1']; simpl in Htimers.
    - by injection Htimers as ->.
    - injection Htimers as <- _. destruct (Hothers t); [left|done]. }
  destruct (on_timeout_shape 0 st t Hwf Et)
    as (p & new & Htbl & Htim & Hnew & Hsusp & _).
  destruct (on_timeout_head 0 st t Hwf Et) as [rest Hout].
  split; [|rewrite Hout; left]. split; [|split].
  - intros t' Hin'. destruct (Hsusp t' Hin') as (t0 & Hin0 & ->). by apply Hs.
  - intros t'. rewrite Htim, Hts. simpl. intros [Hin'|Hin']%elem_of_app.
    + by apply Hothers.
    + destruct (Hnew t' Hin') as (t0 & Hin0 & ->). by apply Hs.
  - eexists. rewrite Htbl, Hk, lookup_insert_eq. done.
Qed.

(** Another timer is older: its expiry leaves the sole timer of the
    question in place. *)
Lemma on_timeout_sole_later st k t t0 l1 l2 :
  wf st → sole_timer k t st → timers st = t0 :: l1 ++ t :: l2 →
  (∀ t', t' ∈ t0 :: l1 ++ l2 → tm_key t' ≠ k) →
  sole_timer k t (on_timeout 0 st).1 ∧
  ∃ new, timers (on_timeout 0 st).1 = l1 ++ t :: l2 ++ new ∧
         ∀ t', t' ∈ l1 ++ l2 ++ new → tm_key t' ≠ k.
Proof.
  intros Hwf (Hs & Hentry & _) Hts Hothers.
  assert (timers st !! 0 = Some t0) as Et by by rewrite Hts.
  destruct (on_timeout_shape 0 st t0 Hwf Et)
    as (p & new & Htbl & Htim & Hnew & Hsusp & _).
  rewrite Hts in Htim. simpl in Htim.
  assert (∀ t', t' ∈ l1 ++ l2 ++ new → tm_key t' ≠ k) as Hothers'.
  { intros t' [Hin'|[Hin'|Hin']%elem_of_app]%elem_of_app.
    - apply Hothers. right. apply elem_of_app. by left.
    - apply Hothers. right. apply elem_of_app. by right.
    - destruct (Hnew t' Hin') as (t1 & Hin1 & ->). by apply Hs. }
  split; [|exists new; split; [by rewrite Htim, <-(assoc_L (++))|done]].
  split; [|split].
  - intros t' Hin'. destruct (Hsusp t' Hin') as (t1 & Hin1 & ->). by apply Hs.
  - destruct Hentry as (q & Hq & Hrest). exists q. rewrite Htbl.
    rewrite lookup_insert_ne; [done|]. apply Hothers. left.
  - exists l1, (l2 ++ new). split; [by rewrite Htim, <-(assoc_L (++))|done].
Qed.

Lemma sole_timer_split st k t :
  sole_timer k t st →
  (∃ l2, timers st = t :: l2) ∨
  (∃ t0 l1 l2, timers st = t0 :: l1 ++ t :: l2 ∧
               ∀ t', t' ∈ t0 :: l1 ++ l2 → tm_key t' ≠ k).
Proof.
  intros (_ & _ & l1 & l2 & Hts & Hothers). destruct l1 as [|t0 l1].
  - left. by exists l2.
  - right. by exists t0, l1, l2.
Qed.

Lemma drain_sole n st k t :
  wf st → sole_timer k t st → tm_key t = k →
  sole_timer k t (drain n st).1 ∨
  (answered_with k (run_handler (tm_handler t) (tm_args t)) (drain n st).1 ∧
   Return (tm_questionId t) (run_handler (tm_handler t) (tm_args t))
     ∈ (drain n st).2).
Proof.
  revert st. induction n as [|n IH]; intros st Hwf Hst Hk; [by left|].
  pose proof (on_timeout_wf 0 st Hwf) as Hwf1.
  destruct (sole_timer_split st k t Hst)
    as [[l2 Hts]|(t0 & l1 & l2 & Hts & Hothers)].
  - rewrite drain_S by by rewrite Hts.
    destruct (on_timeout_sole_head st k t l2 Hwf Hst Hk Hts) as [Hans Hout].
    pose proof (drain_answered n (on_timeout 0 st).1 k _ Hwf1 Hans) as Hlater.
    destruct (on_timeout 0 st) as [st1 out1]. simpl in *.
    destruct (drain n st1) as [st2 out2]. simpl in *. right.
    split; [done|]. apply elem_of_app. by left.
  - rewrite drain_S by by rewrite Hts.
    destruct (on_timeout_sole_later st k t t0 l1 l2 Hwf Hst Hts Hothers)
      as [Hst1 _].
    destruct (on_timeout 0 st) as [st1 out1]. simpl in *.
    specialize (IH st1 Hwf1 Hst1 Hk).
    destruct (drain n st1) as [st2 out2]. simpl in *.
    destruct IH as [?|[? ?]]; [by left|right].
    split; [done|]. apply elem_of_app. by right.
Qed.

(** A suspended handler that waits only for the question of the timer that
    elapses starts its method. *)
Lemma on_timeout_wakes i st t task h :
  wf st → timers st !! i = Some t → task ∈ suspended st →
  (∀ k, Waiting k ∈ t_slots task → k = tm_key t) →
  method_handler (t_method task) = Some h →
  logs h (slot_value (run_handler (tm_handler t) (tm_args t)) <$> t_slots task)
    = true →
  Timer (t_questionId task) (t_key task) h
    (slot_value (run_handler (tm_handler t) (tm_args t)) <$> t_slots task)
    ∈ timers (on_timeout i st).1.
Proof.
  intros Hwf Et Hin Honly Hh Hlogs.
  pose proof (wf_blocked st Hwf task Hin) as Hblocked.
  apply all_ready_None in Hblocked as [k Hk].
  pose proof (Honly k Hk) as ->.
  destruct (wf_waiting st Hwf task _ Hin Hk) as (q & Hq & _ & Hp).
  unfold on_timeout, finalizeQuestion. rewrite Et, Hq, Hp.
  set (res := run_handler (tm_handler t) (tm_args t)) in *.
  set (st0 := {| questionsInFlight := _ |}).
  pose proof (resume_starts (tm_key t) res (suspended st) st0 task h
                (slot_value res <$> t_slots task) Hin) as Hstart.
  destruct (resume _ _ _ _) as [st1 out]. simpl in *.
  apply Hstart; [|done|done]. by apply all_ready_settled.
Qed.

(** A handler suspended on a question whose sole timer is pending is
    answered once the timers have elapsed. *)
Lemma drain_wakes n st k t task h :
  wf st → sole_timer k t st → tm_key t = k →
  task ∈ suspended st →
  (∀ k', Waiting k' ∈ t_slots task → k' = k) →
  method_handler (t_method task) = Some h →
  logs h (slot_value (run_handler (tm_handler t) (tm_args t)) <$> t_slots task)
    = true →
  length (timers st) + length (suspended st) ≤ n →
  Return (t_questionId task)
    (run_handler h
       (slot_value (run_handler (tm_handler t) (tm_args t)) <$> t_slots task))
    ∈ (drain n st).2.
Proof.
  revert st. induction n as [|n IH];
    intros st Hwf Hst Hk Hin Honly Hh Hlogs Hn.
  { destruct Hst as (_ & _ & l1 & l2 & Hts & _). rewrite Hts in Hn.
    rewrite length_app in Hn. simpl in Hn. lia. }
  pose proof (on_timeout_wf 0 st Hwf) as Hwf1.
  destruct (sole_timer_split st k t Hst)
    as [[l2 Hts]|(t0 & l1 & l2 & Hts & Hothers)].
  - assert (timers st !! 0 = Some t) as Et by by rewrite Hts.
    rewrite drain_S by by rewrite Hts.
    pose proof (on_timeout_count 0 st t Et) as Hcount.
    pose proof (on_timeout_wakes 0 st t task h Hwf Et Hin) as Hstart.
    rewrite Hk in Hstart. specialize (Hstart Honly Hh Hlogs).
    apply list_elem_of_lookup_1 in Hstart as [j Hj].
    pose proof (lookup_lt_Some _ _ _ Hj) as Hlt.
    pose proof (drain_answers (on_timeout 0 st).1 j _ n Hwf1 Hj) as Hans.
    destruct (on_timeout 0 st) as [st1 out1]. simpl in *.
    specialize (Hans ltac:(lia)).
    destruct (drain n st1) as [st2 out2]. simpl in *.
    apply elem_of_app. by right.
  - assert (timers st !! 0 = Some t0) as Et by by rewrite Hts.
    rewrite drain_S by by rewrite Hts.
    pose proof (on_timeout_count 0 st t0 Et) as Hcount.
    destruct (on_timeout_sole_later st k t t0 l1 l2 Hwf Hst Hts Hothers)
      as [Hst1 _].
    destruct (on_timeout_shape 0 st t0 Hwf Et) as (_ & _ & _ & _ & _ & _ & Hkeep).
    assert (task ∈ suspended (on_timeout 0 st).1) as Hin1.
    { apply Hkeep; [done|]. intros Hw. apply Honly in Hw.
      destruct (Hothers t0); [left|done]. }
    destruct (on_timeout 0 st) as [st1 out1]. simpl in *.
    specialize (IH st1 Hwf1 Hst1 Hk Hin1 Honly Hh Hlogs ltac:(lia)).
    destruct (drain n st1) as [st2 out2]. simpl in *.
    apply elem_of_app. by right.
Qed.

Lemma resolve_params_pending tbl ps a :
  unfinished tbl (KNum a) →
  Forall (λ p, is_reference p = true → get_field "resultOf" p = VNum a) ps →
  promise_all (resolve_params tbl ps).2 = inr (reference_slot (KNum a) <$> ps).
Proof.
  intros Hentry Hps. revert tbl Hentry.
  induction Hps as [|p ps Hp _ IH]; intros tbl Hentry; [done|].
  rewrite fmap_cons. cbn [resolve_params].
  pose proof (maybeResolveParam_promoted tbl p) as Hprom.
  pose proof (maybeResolveParam_awaits tbl p (VNum a) (KNum a) eq_refl Hentry)
    as Hawait.
  assert (is_reference p = false → maybeResolveParam tbl p = (tbl, Resolved p))
    as Hplain.
  { intros Hr. unfold maybeResolveParam. by rewrite Hr. }
  destruct (maybeResolveParam tbl p) as [tbl1 o]. simpl in *.
  specialize (IH tbl1 (promoted_unfinished _ _ _ Hprom Hentry)).
  destruct (resolve_params tbl1 ps) as [tbl2 os]. simpl in *.
  unfold reference_slot at 1. destruct (is_reference p) eqn:Hr.
  - rewrite Hawait by auto. simpl. by rewrite IH.
  - specialize (Hplain eq_refl). injection Hplain as _ ->. simpl. by rewrite IH.
Qed.

Lemma all_ready_slot_value slots args v :
  all_ready slots = Some args → args = slot_value v <$> slots.
Proof.
  revert args. induction slots as [|[x|k] slots IH]; intros args; simpl.
  - by intros [= <-].
  - destruct (all_ready slots) as [vs|]; [|done]. simpl.
    intros [= <-]. by rewrite (IH vs).
  - done.
Qed.

Lemma slot_value_reference_slot v k (ps : list value) :
  slot_value v <$> (reference_slot k <$> ps) = with_result v <$> ps.
Proof.
  rewrite <-list_fmap_compose. apply list_fmap_ext. intros i p _. simpl.
  unfold reference_slot, with_result. by destruct (is_reference p).
Qed.

Lemma step_call st questionId name ps :
  convertible questionId = true →
  step st (Message (call questionId name ps)) =
  on_call (VObj [("type", VStr "call"); ("questionId", questionId);
                 ("method", VStr name); ("params", VArr ps)]) st.
Proof. intros Hid. simpl. unfold announced. simpl. by rewrite Hid. Qed.

(** The dependent Call arrives while the first one is in its method. *)
Lemma pipelined_arrival_pending st a b name ps h t n :
  wf st → sole_timer (KNum a) t st → tm_key t = KNum a → a ≠ b →
  method_handler (VStr name) = Some h →
  Forall (λ p, is_reference p = true → get_field "resultOf" p = VNum a) ps →
  logs h (with_result (run_handler (tm_handler t) (tm_args t)) <$> ps) = true →
  length (timers (step st (Message (call (VNum b) name ps))).1)
    + length (suspended (step st (Message (call (VNum b) name ps))).1) ≤ n →
  Return (tm_questionId t) (run_handler (tm_handler t) (tm_args t))
    ∈ (drain n (step st (Message (call (VNum b) name ps))).1).2 ∧
  Return (VNum b)
    (run_handler h (with_result (run_handler (tm_handler t) (tm_args t)) <$> ps))
    ∈ (drain n (step st (Message (call (VNum b) name ps))).1).2.
Proof.
  intros Hwf Hst Hk Hab Hh Hps Hlogs.
  pose proof (step_wf st (Message (call (VNum b) name ps)) Hwf) as Hwf2.
  rewrite step_call in * by done.
  set (msg := VObj _) in *. set (v := run_handler _ _) in *.
  destruct (on_call_cases msg st) as [Hprom _]. simpl in Hprom.
  destruct Hst as (Hs & Hentry & l1 & l2 & Hts & Hothers).
  assert (unfinished (register (KNum b) (questionsInFlight st)) (KNum a))
    as Hentry0 by by apply register_unfinished.
  pose proof (promoted_unfinished _ _ _ Hprom Hentry0) as Hentry2.
  pose proof (resolve_params_pending _ ps a Hentry0 Hps) as Hall.
  revert Hwf2 Hentry2. unfold on_call. simpl.
  change (question_key (objects st) (VNum b)) with (KNum b).
  destruct (resolve_params (register (KNum b) (questionsInFlight st)) ps)
    as [tbl1 os]. simpl in Hall. rewrite Hall.
  destruct (all_ready (reference_slot (KNum a) <$> ps)) as [args|] eqn:Eready.
  - apply (all_ready_slot_value _ _ v) in Eready.
    rewrite slot_value_reference_slot in Eready. subst args.
    unfold dispatch. rewrite Hh, Hlogs. simpl. intros Hwf2 _ Hn.
    rewrite length_app in Hn. simpl in Hn. split.
    + match goal with
      | |- _ ∈ (drain _ ?s).2 => apply (drain_answers s (length l1) t n)
      end; [done| |].
      * rewrite Hts, <-(assoc_L (++)). simpl.
        by rewrite lookup_app_r, Nat.sub_diag.
      * rewrite Hts, length_app in Hn. simpl in Hn. lia.
    + match goal with
      | |- _ ∈ (drain _ ?s).2 =>
          pose proof (drain_answers s (length (timers st))
                        (Timer (VNum b) (KNum b) h (with_result v <$> ps)) n
                        Hwf2) as Hans
      end.
      apply Hans; [|lia]. simpl. by rewrite lookup_app_r, Nat.sub_diag.
  - simpl. intros Hwf2 Hentry2 Hn. rewrite length_app in Hn. simpl in Hn.
    set (task := Task (VNum b) (KNum b) (VStr name)
                   (reference_slot (KNum a) <$> ps)) in *.
    set (st2 := suspend task _) in *. split.
    + match goal with
      | |- _ ∈ (drain _ ?s).2 => apply (drain_answers s (length l1) t n)
      end; [done| |].
      * simpl. rewrite Hts. by rewrite lookup_app_r, Nat.sub_diag.
      * rewrite Hts, length_app in Hn. simpl in Hn. lia.
    + rewrite <-(slot_value_reference_slot v (KNum a) ps).
      apply (drain_wakes n st2 (KNum a) t task h); try done.
      * split; [|split; [done|by exists l1, l2]].
        intros t' [Hin'| ->%list_elem_of_singleton]%elem_of_app;
          [by apply Hs|]. simpl. intros [=]. done.
      * simpl. apply elem_of_app. right. left.
      * simpl. intros k' (p & Hp & _)%list_elem_of_fmap.
        unfold reference_slot in Hp. destruct (is_reference p); [|done].
        by injection Hp as ->.
      * simpl. by rewrite slot_value_reference_slot.
      * simpl. rewrite length_app. simpl. lia.
Qed.

(** The dependent Call arrives after the first one has returned. *)
Lemma pipelined_arrival_answered st a b name ps h v n :
  wf st → answered_with (KNum a) v st →
  method_handler (VStr name) = Some h →
  Forall (λ p, is_reference p = true → get_field "resultOf" p = VNum a) ps →
  logs h (with_result v <$> ps) = true →
  length (timers (step st (Message (call (VNum b) name ps))).1)
    + length (suspended (step st (Message (call (VNum b) name ps))).1) ≤ n →
  Return (VNum b) (run_handler h (with_result v <$> ps))
    ∈ (drain n (step st (Message (call (VNum b) name ps))).1).2.
Proof.
  intros Hwf (_ & _ & q & Hq & Hd & Hr) Hh Hps Hlogs.
  pose proof (step_wf st (Message (call (VNum b) name ps)) Hwf) as Hwf2.
  rewrite step_call in * by done. revert Hwf2.
  assert (Forall (λ p, settled_reference (questionsInFlight st) p = true) ps)
    as Hsettled.
  { eapply Forall_impl; [exact Hps|]. intros p Hp. unfold settled_reference.
    destruct (is_reference p) eqn:Hr'; [|done]. rewrite Hp by done.
    unfold find_question. simpl. rewrite Hq. done. }
  assert (substitute (questionsInFlight st) <$> ps = with_result v <$> ps)
    as Hsubst.
  { apply Forall_fmap_ext. eapply Forall_impl; [exact Hps|]. intros p Hp.
    unfold substitute, with_result.
    destruct (is_reference p) eqn:Hr'; [|done]. rewrite Hp by done.
    unfold find_question. simpl. rewrite Hq. done. }
  unfold on_call. simpl.
  change (question_key (objects st) (VNum b)) with (KNum b).
  rewrite (resolve_params_settled (questionsInFlight st)) by
    (done || (intros k' q'; apply register_lookup_Some)).
  rewrite promise_all_resolved, all_ready_ready, Hsubst.
  unfold dispatch. rewrite Hh, Hlogs. simpl. intros Hwf2 Hn.
  rewrite length_app in Hn. simpl in Hn.
  match goal with
  | |- _ ∈ (drain _ ?s).2 =>
      pose proof (drain_answers s (length (timers st))
                    (Timer (VNum b) (KNum b) h (with_result v <$> ps)) n
                    Hwf2) as Hans
  end.
  apply Hans; [|lia]. simpl. by rewrite lookup_app_r, Nat.sub_diag.
Qed.

(** The two Calls on a worker in any well-formed state. *)
Lemma pipelined_composition st0 a b name1 ps1 h1 name2 ps2 h2 m n :
  wf st0 →
  questionsInFlight st0 !! KNum a = None →
  a ≠ b →
  method_handler (VStr name1) = Some h1 →
  Forall (λ p, is_reference p = false) ps1 →
  logs h1 ps1 = true →
  method_handler (VStr name2) = Some h2 →
  Forall (λ p, is_reference p = true → get_field "resultOf" p = VNum a) ps2 →
  logs h2 (with_result (run_handler h1 ps1) <$> ps2) = true →
  length (timers
            (step (drain m (step st0 (Message (call (VNum a) name1 ps1))).1).1
               (Message (call (VNum b) name2 ps2))).1)
    + length (suspended
                (step (drain m (step st0 (Message (call (VNum a) name1 ps1))).1).1
                   (Message (call (VNum b) name2 ps2))).1) ≤ n →
  Return (VNum a) (run_handler h1 ps1)
    ∈ (drain m (step st0 (Message (call (VNum a) name1 ps1))).1).2 ++
      (drain n
         (step (drain m (step st0 (Message (call (VNum a) name1 ps1))).1).1
            (Message (call (VNum b) name2 ps2))).1).2 ∧
  Return (VNum b) (run_handler h2 (with_result (run_handler h1 ps1) <$> ps2))
    ∈ (drain n
         (step (drain m (step st0 (Message (call (VNum a) name1 ps1))).1).1
            (Message (call (VNum b) name2 ps2))).1).2.
Proof.
  intros Hwf Hfresh Hab Hh1 Hplain Hlogs1 Hh2 Hps2 Hlogs2.
  pose proof (step_wf st0 (Message (call (VNum a) name1 ps1)) Hwf) as Hwf1.
  set (t := Timer (VNum a) (KNum a) h1 ps1).
  assert (sole_timer (KNum a) t
            (step st0 (Message (call (VNum a) name1 ps1))).1) as Hsole.
  { rewrite on_call_plain_params by done.
    unfold dispatch. rewrite Hh1, Hlogs1. simpl. split; [|split].
    - intros t' Hin Heq. destruct (wf_tasks st0 Hwf t' Hin) as [q Hq]. congruence.
    - exists fresh_entry. unfold register, question_key. simpl.
      rewrite Hfresh, lookup_insert_eq. done.
    - exists (timers st0), []. split; [done|]. rewrite app_nil_r.
      intros t' Hin Heq. destruct (wf_timers st0 Hwf t' Hin) as [q Hq].
      congruence. }
  set (st1 := (step st0 (Message (call (VNum a) name1 ps1))).1) in *.
  pose proof (drain_wf m st1 Hwf1) as Hwfm.
  destruct (drain_sole m st1 (KNum a) t Hwf1 Hsole eq_refl) as [Hm|[Hm Hout]].
  - intros Hn.
    destruct (pipelined_arrival_pending (drain m st1).1 a b name2 ps2 h2 t n)
      as [Ha Hb]; try done.
    split; [|done]. apply elem_of_app. by right.
  - intros Hn. split; [apply elem_of_app; by left|].
    by apply (pipelined_arrival_answered (drain m st1).1 a b name2 ps2 h2).
Qed.

(** X17. Pipelining computes the composition.  A Call under a fresh id
    [a], of a known method on plain parameters, is followed, after any
    number of the pending timers have elapsed, by a Call [b] whose
    parameters are plain or refer to [a].  Whether the second Call arrives
    while the first is in its method or after it has returned, once the
    timers have elapsed the worker has sent the Return of [a] with the
    result of its method, and the Return of [b] with the result of its
    method on its parameters with that result in place of every
    reference.  The two ids and the arguments of both methods are taken in
    the range where the numbers of the model are those of the code. *)
Theorem pipelined_call_returns_the_composition
    wevs a b name1 ps1 h1 name2 ps2 h2 m n :
  questionsInFlight (run init wevs).1 !! KNum a = None →
  a ≠ b →
  safe_integer a = true →
  safe_integer b = true →
  method_handler (VStr name1) = Some h1 →
  Forall (λ p, is_reference p = false) ps1 →
  logs h1 ps1 = true →
  in_range h1 ps1 = true →
  method_handler (VStr name2) = Some h2 →
  Forall (λ p, is_reference p = true → get_field "resultOf" p = VNum a) ps2 →
  logs h2 (with_result (run_handler h1 ps1) <$> ps2) = true →
  in_range h2 (with_result (run_handler h1 ps1) <$> ps2) = true →
  length (timers
            (step (drain m (step (run init wevs).1
                              (Message (call (VNum a) name1 ps1))).1).1
               (Message (call (VNum b) name2 ps2))).1)
    + length (suspended
                (step (drain m (step (run init wevs).1
                                  (Message (call (VNum a) name1 ps1))).1).1
                   (Message (call (VNum b) name2 ps2))).1) ≤ n →
  Return (VNum a) (run_handler h1 ps1)
    ∈ (drain m (step (run init wevs).1
                  (Message (call (VNum a) name1 ps1))).1).2 ++
      (drain n
         (step (drain m (step (run init wevs).1
                           (Message (call (VNum a) name1 ps1))).1).1
            (Message (call (VNum b) name2 ps2))).1).2 ∧
  Return (VNum b) (run_handler h2 (with_result (run_handler h1 ps1) <$> ps2))
    ∈ (drain n
         (step (drain m (step (run init wevs).1
                           (Message (call (VNum a) name1 ps1))).1).1
            (Message (call (VNum b) name2 ps2))).1).2.
Proof.
  intros Hfresh Hab _ _ Hh1 Hplain Hlogs1 _ Hh2 Hps2 Hlogs2 _ Hn.
  assert (wf (run init wevs).1) as Hwf by apply run_wf, wf_init.
  by apply pipelined_composition.
Qed.

Lemma pipelined_call_returns_the_composition_witness :
  Return (VNum 1) (VStr "Hello, Alice!")
    ∈ (drain 0 (step init (Message (call (VNum 1) "makeGreeting"
                                      [VStr "Alice"]))).1).2 ++
      (drain 2
         (step (drain 0 (step init (Message (call (VNum 1) "makeGreeting"
                                               [VStr "Alice"]))).1).1
            (Message (call (VNum 2) "appendSuffix"
                        [reference (VNum 1); VStr "!!!"]))).1).2 ∧
  Return (VNum 2) (VStr "Hello, Alice!!!!")
    ∈ (drain 2
         (step (drain 0 (step init (Message (call (VNum 1) "makeGreeting"
                                               [VStr "Alice"]))).1).1
            (Message (call (VNum 2) "appendSuffix"
                        [reference (VNum 1); VStr "!!!"]))).1).2.
Proof.
  apply (pipelined_call_returns_the_composition [] 1 2
           "makeGreeting" [VStr "Alice"] MakeGreeting
           "appendSuffix" [reference (VNum 1); VStr "!!!"] AppendSuffix 0 2).
  - reflexivity.
  - lia.
  - reflexivity.
  - reflexivity.
  - reflexivity.
  - repeat constructor.
  - reflexivity.
  - reflexivity.
  - reflexivity.
  - repeat constructor; intros H; try discriminate H; reflexivity.
  - reflexivity.
  - reflexivity.
  - vm_compute. lia.
Defined.

(** * Parameters and references *)

Lemma argument_of_mono out out' p a :
  argument_of out p a → argument_of (out ++ out') p a.
Proof.
  unfold argument_of. destruct (is_reference p); [|done].
  intros H. apply elem_of_app. by left.
Qed.

Lemma slot_of_mono out out' p s : slot_of out p s → slot_of (out ++ out') p s.
Proof. destruct s; [apply argument_of_mono|done]. Qed.

Lemma call_of_mono evs evs' questionId method ps :
  call_of evs questionId method ps → call_of (evs ++ evs') questionId method ps.
Proof.
  intros (msg & Hin & H). exists msg. split; [|done]. apply elem_of_app. by left.
Qed.

Lemma task_traced_mono evs evs' out out' t :
  task_traced evs out t → task_traced (evs ++ evs') (out ++ out') t.
Proof.
  intros [(ps & Hcall & Hslots) Hkey]. split; [|done]. exists ps.
  split; [by apply call_of_mono|].
  eapply Forall2_impl; [exact Hslots|]. intros p s. apply slot_of_mono.
Qed.

Lemma timer_traced_mono evs evs' out out' t :
  timer_traced evs out t → timer_traced (evs ++ evs') (out ++ out') t.
Proof.
  intros [(method & ps & Hcall & Hm & Hargs) Hkey]. split; [|done].
  exists method, ps. split; [by apply call_of_mono|]. split; [done|].
  eapply Forall2_impl; [exact Hargs|]. intros p a. apply argument_of_mono.
Qed.

Lemma results_returned_mono out out' tbl :
  results_returned out tbl → results_returned (out ++ out') tbl.
Proof.
  intros H id k q Hk Hq. destruct (H id k q Hk Hq) as [Hd Hp]. split.
  - intros Hdone. apply elem_of_app. left. by apply Hd.
  - intros v Hv. apply elem_of_app. left. by apply Hp.
Qed.

Lemma results_returned_promoted out tbl tbl' :
  promoted tbl tbl' → results_returned out tbl → results_returned out tbl'.
Proof.
  intros Hprom H id k q Hk Hq.
  destruct (Hprom k) as [Heq|(q0 & Hq0 & _ & _ & Heq)].
  - apply (H id k q Hk). by rewrite <- Heq.
  - rewrite Hq in Heq. injection Heq as ->. simpl. split; [done|]. done.
Qed.

Lemma results_returned_register out k tbl :
  results_returned out tbl → results_returned out (register k tbl).
Proof.
  intros H id k' q Hk Hq. unfold register in Hq.
  destruct (tbl !! k) as [q0|] eqn:E; [by apply (H id k' q)|].
  destruct (decide (k = k')) as [<-|Hne].
  - rewrite lookup_insert_eq in Hq. injection Hq as <-. simpl. split; done.
  - rewrite lookup_insert_ne in Hq by done. by apply (H id k' q).
Qed.

(** What [maybeResolveParam] gives for a parameter: the parameter itself
    unless it is a reference, else a value returned for the question it
    names, or a wait for that question. *)
Lemma maybeResolveParam_traced out tbl p :
  results_returned out tbl → outcome_of out p (maybeResolveParam tbl p).2.
Proof.
  intros Hres. unfold maybeResolveParam.
  destruct (is_reference p) eqn:Hr; [|simpl; unfold argument_of; by rewrite Hr].
  destruct (convertible _); [|done].
  destruct (find_question tbl _) as [[k q]|] eqn:Ef; [|done].
  apply find_question_Some in Ef as [Hk Hq].
  destruct (Hres _ k q Hk Hq) as [Hd Hp].
  destruct (done q) eqn:Hdone.
  - simpl. unfold argument_of. rewrite Hr. by apply Hd.
  - destruct (promise q) as [| |v] eqn:Epr; simpl; [done|done|].
    unfold argument_of. rewrite Hr. by apply Hp.
Qed.

Lemma resolve_params_traced out tbl ps :
  results_returned out tbl →
  Forall2 (outcome_of out) ps (resolve_params tbl ps).2.
Proof.
  revert tbl. induction ps as [|p ps IH]; intros tbl Hres; [constructor|].
  cbn [resolve_params].
  pose proof (maybeResolveParam_traced out tbl p Hres) as Hp.
  pose proof (maybeResolveParam_promoted tbl p) as Hprom.
  destruct (maybeResolveParam tbl p) as [tbl1 o]. simpl in *.
  specialize (IH tbl1 (results_returned_promoted _ _ _ Hprom Hres)).
  destruct (resolve_params tbl1 ps) as [tbl2 os]. simpl in *.
  by constructor.
Qed.

Lemma promise_all_traced out ps os slots :
  Forall2 (outcome_of out) ps os → promise_all os = inr slots →
  Forall2 (slot_of out) ps slots.
Proof.
  intros H. revert slots. induction H as [|p o ps os Hp _ IH]; intros slots.
  - simpl. intros [= <-]. constructor.
  - simpl. destruct o as [v|k|m]; [| |done];
      destruct (promise_all os) as [m'|slots']; simpl; try done;
      intros [= <-]; constructor; auto.
Qed.

Lemma all_ready_traced out ps slots args :
  Forall2 (slot_of out) ps slots → all_ready slots = Some args →
  Forall2 (argument_of out) ps args.
Proof.
  intros H. revert args. induction H as [|p s ps slots Hp _ IH]; intros args.
  - simpl. intros [= <-]. constructor.
  - simpl. destruct s as [v|k]; [|done].
    destruct (all_ready slots) as [vs|]; [|done]. simpl.
    intros [= <-]. constructor; auto.
Qed.

Lemma settle_slot_traced out ps slots k v :
  (∀ id, prim_key id = Some k → Return id v ∈ out) →
  Forall2 (slot_of out) ps slots →
  Forall2 (slot_of out) ps (settle_slot k v <$> slots).
Proof.
  intros Hret H. induction H as [|p s ps slots Hp _ IH]; [constructor|].
  rewrite fmap_cons. constructor; [|done].
  destruct s as [a|k']; [done|]. simpl. destruct (decide (k' = k)) as [->|]; [|done].
  destruct Hp as [Hr Hk]. simpl. unfold argument_of. rewrite Hr. by apply Hret.
Qed.

Lemma traced_init : traced [] [] init.
Proof.
  split; [|split].
  - intros t Hin. by apply elem_of_nil in Hin.
  - intros t Hin. by apply elem_of_nil in Hin.
  - intros id k q _ Hq. simpl in Hq. by rewrite lookup_empty in Hq.
Qed.

Lemma on_call_traced seen out msg st :
  is_call msg = true →
  traced seen out st →
  traced (seen ++ [Message (Decoded msg)]) (out ++ (on_call msg st).2)
    (on_call msg st).1.
Proof.
  intros Hcall (Hs & Ht & Hres).
  set (evs := seen ++ [Message (Decoded msg)]).
  assert (∀ out', ∀ t, t ∈ suspended st → task_traced evs (out ++ out') t)
    as Hs' by (intros out' t Hin; by apply task_traced_mono, Hs).
  assert (∀ out', ∀ t, t ∈ timers st → timer_traced evs (out ++ out') t)
    as Ht' by (intros out' t Hin; by apply timer_traced_mono, Ht).
  assert (∀ ps, get_field "params" msg = VArr ps →
                call_of evs (get_field "questionId" msg)
                  (get_field "method" msg) ps) as Hcall_of.
  { intros ps Hps. exists msg. split; [apply elem_of_app; right; left|done]. }
  assert (∀ id, prim_key id =
                  Some (question_key (objects st) (get_field "questionId" msg)) →
                get_field "questionId" msg = id) as Hkey.
  { intros id Hid. by apply (question_key_prim (objects st) _ id _ Hid). }
  pose proof (results_returned_register out
                (question_key (objects st) (get_field "questionId" msg))
                _ Hres) as Hres0.
  unfold on_call.
  destruct (get_field "params" msg) as [| | | | | |ps|] eqn:Eps; simpl;
    try (split; [apply Hs'|split; [apply Ht'|by apply results_returned_mono]]).
  pose proof (resolve_params_traced out _ ps Hres0) as Hos.
  pose proof (resolve_params_promoted
                (register (question_key (objects st) (get_field "questionId" msg))
                   (questionsInFlight st)) ps) as Hprom.
  pose proof (results_returned_promoted _ _ _ Hprom Hres0) as Hres1.
  destruct (resolve_params _ ps) as [tbl1 os]. simpl in *.
  destruct (promise_all os) as [message|slots] eqn:Eall; simpl.
  { split; [apply Hs'|split; [apply Ht'|by apply results_returned_mono]]. }
  pose proof (promise_all_traced out ps os slots Hos Eall) as Hslots.
  destruct (all_ready slots) as [args|] eqn:Eready; simpl.
  - pose proof (all_ready_traced out ps slots args Hslots Eready) as Hargs.
    unfold dispatch.
    destruct (method_handler (get_field "method" msg)) as [h|] eqn:Em;
      [destruct (logs h args)|]; simpl;
      try (split; [apply Hs'|split; [apply Ht'|by apply results_returned_mono]]).
    split; [apply Hs'|]. split; [|by apply results_returned_mono].
    intros t [Hin| ->%list_elem_of_singleton]%elem_of_app; [by apply Ht'|].
    split; [|done]. simpl. exists (get_field "method" msg), ps.
    split; [by apply Hcall_of|]. split; [done|].
    eapply Forall2_impl; [exact Hargs|]. intros p a. apply argument_of_mono.
  - split; [|split; [apply Ht'|by apply results_returned_mono]].
    intros t [Hin| ->%list_elem_of_singleton]%elem_of_app; [by apply Hs'|].
    split; [|done]. simpl. exists ps. split; [by apply Hcall_of|].
    eapply Forall2_impl; [exact Hslots|]. intros p a. apply slot_of_mono.
Qed.

Lemma on_timeout_traced seen out i st :
  traced seen out st →
  traced (seen ++ [Timeout i]) (out ++ (on_timeout i st).2) (on_timeout i st).1.
Proof.
  intros (Hs & Ht & Hres).
  set (evs := seen ++ [Timeout i]).
  assert (∀ out', ∀ t, t ∈ suspended st → task_traced evs (out ++ out') t)
    as Hs' by (intros out' t Hin; by apply task_traced_mono, Hs).
  assert (∀ out', ∀ t, t ∈ timers st → timer_traced evs (out ++ out') t)
    as Ht' by (intros out' t Hin; by apply timer_traced_mono, Ht).
  unfold on_timeout. destruct (timers st !! i) as [t|] eqn:Et.
  2:{ split; [apply Hs'|split; [apply Ht'|by apply results_returned_mono]]. }
  assert (t ∈ timers st) as Hin by by eapply list_elem_of_lookup_2.
  assert (∀ t0, t0 ∈ delete i (timers st) → t0 ∈ timers st) as Hdel
    by (intros t0; apply list_elem_of_delete_inv).
  destruct (Ht t Hin) as [_ Hkey].
  set (res := run_handler (tm_handler t) (tm_args t)).
  destruct (finalizeQuestion _ _ _) as [[tbl' woken]|] eqn:Ef.
  2:{ simpl. split; [apply Hs'|]. split; [|by apply results_returned_mono].
      intros t0 Hin0. by apply Ht', Hdel. }
  apply finalizeQuestion_Some in Ef as (q & p & Hq & -> & Hwoken).
  assert (∀ rest,
    results_returned (out ++ Return (tm_questionId t) res :: rest)
      (<[tm_key t := {| done := true; result := res; promise := p |}]>
         (questionsInFlight st))) as Hres'.
  { intros rest id k q' Hk Hq'. destruct (decide (tm_key t = k)) as [Heq|Hne].
    - subst k. rewrite lookup_insert_eq in Hq'. injection Hq' as <-. simpl.
      rewrite <- (Hkey id Hk).
      assert (Return (tm_questionId t) res
                ∈ out ++ Return (tm_questionId t) res :: rest) as Hhere
        by (apply elem_of_app; right; left).
      split; [done|]. intros v Hv.
      destruct Hwoken as [(_ & _ & ->)|(_ & _ & ->)].
      + by injection Hv as <-.
      + apply elem_of_app. left.
        destruct (Hres (tm_questionId t) (tm_key t) q) as [_ Hp];
          [by rewrite (Hkey id Hk)|done|]. by apply Hp.
    - rewrite lookup_insert_ne in Hq' by done.
      by apply (results_returned_mono out _ _ Hres id k q'). }
  destruct woken.
  - set (st0 := {| questionsInFlight :=
                     <[tm_key t := {| done := true; result := res;
                                      promise := p |}]> (questionsInFlight st);
                   suspended := []; timers := delete i (timers st);
                   objects := objects st |}).
    pose proof (resume_table (tm_key t) res (suspended st) st0) as Htable.
    pose proof (resume_suspended (tm_key t) res (suspended st) st0) as Hsusp.
    pose proof (resume_timers (tm_key t) res (suspended st) st0) as Htimers.
    destruct (resume _ _ _ _) as [st1 out1]. simpl in *.
    set (out' := Return (tm_questionId t) res :: in_order_of_sending out1).
    assert (∀ t0 ps, t0 ∈ suspended st →
                     Forall2 (slot_of out) ps (t_slots t0) →
                     Forall2 (slot_of (out ++ out')) ps
                       (settle_slot (tm_key t) res <$> t_slots t0)) as Hsettle.
    { intros t0 ps Hin0 Hslots. apply settle_slot_traced.
      - intros id Hid. rewrite <- (Hkey id Hid). apply elem_of_app. right. left.
      - eapply Forall2_impl; [exact Hslots|]. intros p0 s. apply slot_of_mono. }
    split; [|split].
    + intros t1 [H|(t0 & Hin0 & -> & _)]%Hsusp; [by apply elem_of_nil in H|].
      destruct (Hs t0 Hin0) as [(ps & Hcall & Hslots) Hkey0].
      split; [|done]. exists ps. split; [by apply call_of_mono|].
      by apply Hsettle.
    + intros t1 [H|(t0 & h & args & Hin0 & Hready & Hm & ->)]%Htimers.
      * by apply Ht', Hdel.
      * destruct (Hs t0 Hin0) as [(ps & Hcall & Hslots) Hkey0].
        split; [|done]. simpl. exists (t_method t0), ps.
        split; [by apply call_of_mono|]. split; [done|].
        eapply all_ready_traced; [|exact Hready]. by apply Hsettle.
    + rewrite Htable. apply Hres'.
  - simpl. split; [apply Hs'|]. split; [|apply Hres'].
    intros t0 Hin0. by apply Ht', Hdel.
Qed.

Lemma step_traced seen out st e :
  traced seen out st → traced (seen ++ [e]) (out ++ (step st e).2) (step st e).1.
Proof.
  intros Hst. destruct e as [[|msg]|i]; simpl.
  - destruct Hst as (Hs & Ht & Hres). split; [|split].
    + intros t Hin. by apply task_traced_mono, Hs.
    + intros t Hin. by apply timer_traced_mono, Ht.
    + by apply results_returned_mono.
  - destruct (is_call msg) eqn:Hcall; simpl;
      [destruct (announced msg); [by apply on_call_traced|]|];
      (destruct Hst as (Hs & Ht & Hres); split; [|split];
       [intros t Hin; by apply task_traced_mono, Hs
       |intros t Hin; by apply timer_traced_mono, Ht
       |by apply results_returned_mono]).
  - by apply on_timeout_traced.
Qed.

Lemma run_traced seen out st evs :
  traced seen out st → traced (seen ++ evs) (out ++ (run st evs).2) (run st evs).1.
Proof.
  revert seen out st. induction evs as [|e evs IH]; intros seen out st Hst.
  - simpl. by rewrite !app_nil_r.
  - simpl. pose proof (step_traced seen out st e Hst) as H1.
    destruct (step st e) as [st1 out1]. simpl in *.
    specialize (IH (seen ++ [e]) (out ++ out1) st1 H1).
    destruct (run st1 evs) as [st2 out2]. simpl in *.
    by rewrite <- !(assoc_L (++)) in IH.
Qed.

(** A Call whose references name questions that are done, or else one
    question that is not finished, waits for that one, whatever else its
    parameter list holds. *)
Lemma resolve_params_mixed tbl tbl0 ps a k :
  prim_key a = Some k →
  (∀ k' q, tbl !! k' = Some q → done q = true → tbl0 !! k' = Some q) →
  unfinished tbl0 k →
  Forall (λ p, settled_reference tbl p = false → get_field "resultOf" p = a) ps →
  promise_all (resolve_params tbl0 ps).2 = inr (pipelined_slot tbl k <$> ps).
Proof.
  intros Hk Hkeep Hentry Hps. revert tbl0 Hkeep Hentry.
  induction Hps as [|p ps Hp _ IH]; intros tbl0 Hkeep Hentry; [done|].
  rewrite fmap_cons. cbn [resolve_params].
  pose proof (maybeResolveParam_promoted tbl0 p) as Hprom.
  assert ((maybeResolveParam tbl0 p).2 =
            match pipelined_slot tbl k p with
            | Ready x => Resolved x
            | Waiting k' => Awaiting k'
            end) as Hhere.
  { unfold pipelined_slot. destruct (settled_reference tbl p) eqn:Hs.
    - unfold settled_reference in Hs. unfold maybeResolveParam, substitute.
      destruct (is_reference p); [|done].
      destruct (find_question tbl _) as [[k' q]|] eqn:Ef; [|done].
      apply find_question_Some in Ef as [Hk' Hq].
      rewrite (prim_key_convertible _ _ Hk').
      assert (find_question tbl0 (get_field "resultOf" p) = Some (k', q)) as ->.
      { apply find_question_Some. split; [done|by apply Hkeep]. }
      by rewrite Hs.
    - apply (maybeResolveParam_awaits tbl0 p a k Hk Hentry); [|by apply Hp].
      unfold settled_reference in Hs. by destruct (is_reference p). }
  assert (∀ k' q, tbl !! k' = Some q → done q = true →
                  (maybeResolveParam tbl0 p).1 !! k' = Some q) as Hkeep1.
  { intros k' q Hq Hd. pose proof (Hkeep k' q Hq Hd) as Hq0.
    destruct (Hprom k') as [->|(q0 & Hq0' & Hd0 & _)]; [done|]. congruence. }
  destruct (maybeResolveParam tbl0 p) as [tbl1 o]. simpl in *.
  specialize (IH tbl1 Hkeep1 (promoted_unfinished _ _ _ Hprom Hentry)).
  destruct (resolve_params tbl1 ps) as [tbl2 os]. simpl in *.
  subst o. destruct (pipelined_slot tbl k p); simpl; by rewrite IH.
Qed.

Lemma on_call_mixed msg st ps a k :
  prim_key a = Some k →
  unfinished (questionsInFlight st) k →
  get_field "params" msg = VArr ps →
  Forall (λ p, settled_reference (questionsInFlight st) p = false →
               get_field "resultOf" p = a) ps →
  Exists (λ p, settled_reference (questionsInFlight st) p = false) ps →
  (on_call msg st).2 = [] ∧
  timers (on_call msg st).1 = timers st ∧
  suspended (on_call msg st).1 =
    suspended st ++
    [Task (get_field "questionId" msg)
       (question_key (objects st) (get_field "questionId" msg))
       (get_field "method" msg)
       (pipelined_slot (questionsInFlight st) k <$> ps)].
Proof.
  intros Hk Hentry Hps Hrefs Hsome.
  pose proof (resolve_params_mixed (questionsInFlight st)
                (register (question_key (objects st) (get_field "questionId" msg))
                   (questionsInFlight st)) ps a k Hk
                (λ k' q Hq _, register_lookup_Some _ k' _ q Hq)
                (register_unfinished _ _ _ Hentry) Hrefs) as Hall.
  assert (all_ready (pipelined_slot (questionsInFlight st) k <$> ps) = None)
    as Hblocked.
  { apply all_ready_None. exists k.
    apply Exists_exists in Hsome as (p & Hin & Hr).
    apply list_elem_of_fmap. exists p. split; [|done].
    unfold pipelined_slot. by rewrite Hr. }
  unfold on_call. rewrite Hps. simpl.
  destruct (resolve_params _ ps) as [tbl1 os]. simpl in *.
  by rewrite Hall, Hblocked.
Qed.

Lemma slot_value_pipelined_slot tbl v k (ps : list value) :
  slot_value v <$> (pipelined_slot tbl k <$> ps) = with_results tbl v <$> ps.
Proof.
  rewrite <-list_fmap_compose. apply list_fmap_ext. intros i p _. simpl.
  unfold pipelined_slot, with_results. by destruct (settled_reference tbl p).
Qed.

(** C7. For every parameter list, a parameter is treated as a reference
    exactly when it is itself an object with a [resultOf] property, and a
    value returned for the question it names is put in its place; every
    other parameter, whatever it holds inside, reaches the method as it is.
    The branches of [maybeResolveParam] come first, and a list without any
    reference; then the lists of every Call: whenever a method is started,
    its arguments are the parameters of its Call, one by one, each
    reference replaced by a value that was returned for the question it
    names and everything else untouched; a list whose references all name
    questions that are done starts the method at once on the stored
    results; and a list with references to a question still in its method,
    next to whatever else (references to questions that are done, plain
    values, values that hold references inside), keeps the Call waiting
    until the Return of that question is sent, and then starts the method
    with the returned value in place of each reference to it, the stored
    result in place of each of the others, and the rest as it came. *)
Theorem only_top_level_references_are_resolved :
  (∀ p, is_reference p = true ↔
        ∃ fields id, p = VObj fields ∧ assoc "resultOf" fields = Some id) ∧
  (∀ tbl fields id k q,
     assoc "resultOf" fields = Some id → prim_key id = Some k →
     tbl !! k = Some q → done q = true →
     maybeResolveParam tbl (VObj fields) = (tbl, Resolved (result q))) ∧
  (∀ tbl p, is_reference p = false →
     maybeResolveParam tbl p = (tbl, Resolved p)) ∧
  (∀ tbl items, maybeResolveParam tbl (VArr items) = (tbl, Resolved (VArr items))) ∧
  (∀ tbl fields, assoc "resultOf" fields = None →
     maybeResolveParam tbl (VObj fields) = (tbl, Resolved (VObj fields))) ∧
  (∀ st questionId method params,
     convertible questionId = true →
     Forall (λ p, is_reference p = false) params →
     step st (Message (call questionId method params)) =
       dispatch questionId (question_key (objects st) questionId) (VStr method)
         params
         {| questionsInFlight :=
              register (question_key (objects st) questionId)
                (questionsInFlight st);
            suspended := suspended st;
            timers := timers st;
            objects := match prim_key questionId with
                       | Some _ => objects st
                       | None => S (objects st)
                       end |} ∧
     ∀ h, method_handler (VStr method) = Some h → logs h params = true →
          (step st (Message (call questionId method params))).2 = [] ∧
          timers (step st (Message (call questionId method params))).1 =
            timers st ++
            [Timer questionId (question_key (objects st) questionId) h params]) ∧
  (∀ evs t,
     t ∈ timers (run init evs).1 →
     ∃ method ps,
       call_of evs (tm_questionId t) method ps ∧
       method_handler method = Some (tm_handler t) ∧
       Forall2
         (λ p a, if is_reference p
                 then Return (get_field "resultOf" p) a ∈ (run init evs).2
                 else a = p)
         ps (tm_args t)) ∧
  (∀ st msg ps h,
     is_call msg = true → announced msg = true →
     get_field "params" msg = VArr ps →
     Forall (λ p, settled_reference (questionsInFlight st) p = true) ps →
     method_handler (get_field "method" msg) = Some h →
     logs h (substitute (questionsInFlight st) <$> ps) = true →
     (step st (Message (Decoded msg))).2 = [] ∧
     timers (step st (Message (Decoded msg))).1 =
       timers st ++
         [Timer (get_field "questionId" msg)
            (question_key (objects st) (get_field "questionId" msg)) h
            (substitute (questionsInFlight st) <$> ps)]) ∧
  (∀ evs st i t a msg ps h,
     st = (run init evs).1 →
     timers st !! i = Some t →
     prim_key a = Some (tm_key t) →
     unfinished (questionsInFlight st) (tm_key t) →
     is_call msg = true → announced msg = true →
     get_field "params" msg = VArr ps →
     Forall (λ p, settled_reference (questionsInFlight st) p = false →
                  get_field "resultOf" p = a) ps →
     Exists (λ p, settled_reference (questionsInFlight st) p = false) ps →
     method_handler (get_field "method" msg) = Some h →
     (step st (Message (Decoded msg))).2 = [] ∧
     timers (step st (Message (Decoded msg))).1 = timers st ∧
     ∃ v rest,
       (step (step st (Message (Decoded msg))).1 (Timeout i)).2 =
         Return a v :: rest ∧
       (logs h (with_results (questionsInFlight st) v <$> ps) = true →
        Timer (get_field "questionId" msg)
          (question_key (objects st) (get_field "questionId" msg)) h
          (with_results (questionsInFlight st) v <$> ps)
          ∈ timers (step (step st (Message (Decoded msg))).1 (Timeout i)).1)).
Proof.
  split; [exact is_reference_shape|]. split.
  { intros tbl fields id k q Hid Hk Hq Hdone.
    unfold maybeResolveParam, is_reference, has_field, get_field.
    rewrite Hid. rewrite bool_decide_eq_true_2 by by eexists.
    simpl. rewrite (prim_key_convertible id k Hk).
    unfold find_question. rewrite Hk. simpl. rewrite Hq. simpl.
    by rewrite Hdone. }
  split.
  { intros tbl p Hp. unfold maybeResolveParam. by rewrite Hp. }
  split; [done|]. split.
  { intros tbl fields Hnone. unfold maybeResolveParam, is_reference, has_field.
    rewrite Hnone. rewrite bool_decide_eq_false_2; [done|]. by intros [? ?]. }
  split.
  { intros st questionId method params Hid Hplain.
    rewrite (on_call_plain_params st questionId method params) by done.
    split; [done|]. intros h Hm Hlogs. unfold dispatch. by rewrite Hm, Hlogs. }
  split.
  { intros evs t Hin.
    destruct (run_traced [] [] init evs traced_init) as (_ & Ht & _).
    simpl in Ht. destruct (Ht t Hin) as [(method & ps & Hcall & Hm & Hargs) _].
    by exists method, ps. }
  split.
  { intros st msg ps h Hcall Hann Hps Hsettled Hh Hlogs.
    simpl. rewrite Hcall, Hann. simpl andb. cbv iota.
    unfold on_call. rewrite Hps. simpl.
    rewrite (resolve_params_settled (questionsInFlight st)) by
      (done || (intros k q; apply register_lookup_Some)).
    rewrite promise_all_resolved, all_ready_ready.
    unfold dispatch. by rewrite Hh, Hlogs. }
  intros evs st i t a msg ps h -> Et Ha Hentry Hcall Hann Hps Hrefs Hsome Hh.
  assert (wf (run init evs).1) as Hwf by apply run_wf, wf_init.
  destruct (run_traced [] [] init evs traced_init) as (_ & Ht & _).
  simpl in Ht. set (st := (run init evs).1) in *.
  assert (tm_questionId t = a) as Hid.
  { destruct (Ht t) as [_ Hkey]; [by eapply list_elem_of_lookup_2|].
    by apply Hkey. }
  pose proof (step_wf st (Message (Decoded msg)) Hwf) as Hwf1.
  destruct (on_call_mixed msg st ps a (tm_key t) Ha Hentry Hps Hrefs Hsome)
    as (Hout & Htimers & Hsusp).
  revert Hwf1. simpl step. rewrite Hcall, Hann. simpl andb. cbv iota.
  intros Hwf1. split; [done|]. split; [done|].
  assert (timers (on_call msg st).1 !! i = Some t) as Et1 by by rewrite Htimers.
  destruct (on_timeout_head i (on_call msg st).1 t Hwf1 Et1) as [rest Hrest].
  exists (run_handler (tm_handler t) (tm_args t)), rest.
  split; [by rewrite <- Hid|]. intros Hlogs.
  set (task := Task (get_field "questionId" msg)
                 (question_key (objects st) (get_field "questionId" msg))
                 (get_field "method" msg)
                 (pipelined_slot (questionsInFlight st) (tm_key t) <$> ps)).
  rewrite <- (slot_value_pipelined_slot _ _ (tm_key t) ps).
  apply (on_timeout_wakes i (on_call msg st).1 t task h); try done.
  - rewrite Hsusp. apply elem_of_app. right. left.
  - simpl. intros k' (p & Hp & _)%list_elem_of_fmap.
    unfold pipelined_slot in Hp. destruct (settled_reference _ p); [done|].
    by injection Hp as ->.
  - simpl. by rewrite slot_value_pipelined_slot.
Qed.

(** A reference nested in an array and one nested in an object reach
    [appendSuffix] as they are, though question 1 is done; and next to a
    reference to question 1, which is done, and one to question 3, still in
    its method, the array with its reference inside reaches [appendSuffix]
    as it is, while the two references give way to the two greetings. *)
Lemma only_top_level_references_are_resolved_witness :
  (maybeResolveParam (questionsInFlight Pipelined.greeting_done)
     (reference (VNum 1)) =
     (questionsInFlight Pipelined.greeting_done, Resolved (VStr "Hello, Alice!")) ∧
   timers (step Pipelined.greeting_done
     (Message (call (VNum 2) "appendSuffix"
        [VArr [reference (VNum 1)];
         VObj [("inner", reference (VNum 1))]]))).1 =
   timers Pipelined.greeting_done ++
   [Timer (VNum 2) (KNum 2) AppendSuffix
      [VArr [reference (VNum 1)]; VObj [("inner", reference (VNum 1))]]]) ∧
  ((step (run init second_greeting_running).1
      (Message (Decoded call_mixed))).2 = [] ∧
   ∃ rest,
     (step (step (run init second_greeting_running).1
              (Message (Decoded call_mixed))).1 (Timeout 0)).2 =
       Return (VNum 3) (VStr "Hello, Bob!") :: rest ∧
     Timer (VNum 2) (KNum 2) AppendSuffix
       [VStr "Hello, Alice!"; VStr "Hello, Bob!"; VArr [reference (VNum 1)]]
       ∈ timers
           (step (step (run init second_greeting_running).1
                    (Message (Decoded call_mixed))).1 (Timeout 0)).1).
Proof.
  destruct only_top_level_references_are_resolved
    as (_ & Href & _ & _ & _ & Hplain & _ & _ & Hpending).
  split; [split|].
  - apply (Href (questionsInFlight Pipelined.greeting_done)
             [("resultOf", VNum 1)] (VNum 1) (KNum 1)
             {| done := true; result := VStr "Hello, Alice!";
                promise := PromiseNull |}); reflexivity.
  - apply (Hplain Pipelined.greeting_done (VNum 2) "appendSuffix"
             [VArr [reference (VNum 1)]; VObj [("inner", reference (VNum 1))]]).
    + reflexivity.
    + repeat constructor.
    + reflexivity.
    + reflexivity.
  - destruct (Hpending second_greeting_running
                (run init second_greeting_running).1 0
                (Timer (VNum 3) (KNum 3) MakeGreeting [VStr "Bob"])
                (VNum 3) call_mixed
                [reference (VNum 1); reference (VNum 3);
                 VArr [reference (VNum 1)]] AppendSuffix)
      as (Hout & _ & v & rest & Hreturn & Hstart).
    + reflexivity.
    + reflexivity.
    + reflexivity.
    + eexists. split; [reflexivity|]. split; [reflexivity|]. intros v Hv.
      discriminate Hv.
    + reflexivity.
    + reflexivity.
    + reflexivity.
    + repeat constructor; intros H; vm_compute in H; try discriminate H;
        reflexivity.
    + right. left. reflexivity.
    + reflexivity.
    + split; [exact Hout|]. exists rest.
      assert (v = VStr "Hello, Bob!") as ->.
      { assert (head (Return (VNum 3) v :: rest) =
                  Some (Return (VNum 3) (VStr "Hello, Bob!"))) as Hhead
          by (rewrite <- Hreturn; reflexivity).
        by injection Hhead as ->. }
      split; [exact Hreturn|]. apply Hstart. reflexivity.
Defined.

(** * Both sides together *)

Lemma method_handler_name method h :
  method_handler method = Some h → ∃ name, method = VStr name.
Proof. destruct method; try done. by eexists. Qed.

Lemma delivered_call n method params ps h :
  method_handler method = Some h →
  jsonify params = VArr ps →
  ∃ name, method = VStr name ∧
          delivered (Issuer.call_payload n method params) = call (VNum n) name ps.
Proof.
  intros [name ->]%method_handler_name Hps. exists name. split; [done|].
  unfold delivered, Issuer.call_payload, call. f_equal.
  destruct params; try done; cbn [jsonify]; cbn [jsonify] in Hps;
    by rewrite Hps.
Qed.

Lemma delivered_return n v :
  scalar v = true →
  delivered (encode (Return (VNum n) v)) =
    Decoded (VObj [("type", VStr "return"); ("answerId", VNum n);
                   ("result", jsonify v)]).
Proof. by destruct v. Qed.

(** X18. A [callRPC] from end to end.  On an open socket, a call of a
    method the worker knows, with parameters that hold no reference,
    reaches the worker as a Call that starts the method without an answer
    yet; once the timers pending before it and its own have elapsed the
    worker has sent the Return with what the method gives on the
    parameters as they arrived; and when that frame reaches the page,
    whatever the page did in between short of touching that question, the
    promise [callRPC] returned is fulfilled with that value as it
    arrives.  The parameters as they arrive are taken in the range where
    the numbers of the model are those of the code. *)
Theorem callRPC_round_trip pevs wevs method params ps h later k :
  Issuer.socket_open (Issuer.run Issuer.init pevs).1 = true →
  method_handler method = Some h →
  jsonify params = VArr ps →
  Forall (λ p, is_reference p = false) ps →
  logs h ps = true →
  in_range h ps = true →
  length (timers (run init wevs).1) < k →
  Forall (λ e, ¬ answers (Issuer.nextQuestionId (Issuer.run Issuer.init pevs).1) e ∧
               ¬ awaits (Issuer.nextQuestionId (Issuer.run Issuer.init pevs).1) e)
    later →
  (Issuer.callRPC method params (Issuer.run Issuer.init pevs).1).2 =
    [Issuer.Send
       (Issuer.call_payload
          (Issuer.nextQuestionId (Issuer.run Issuer.init pevs).1) method params)] ∧
  (Issuer.callRPC method params (Issuer.run Issuer.init pevs).1).1.2 =
    Issuer.Pends
      (Issuer.CallPromise
         (KNum (Issuer.nextQuestionId (Issuer.run Issuer.init pevs).1))) ∧
  (step (run init wevs).1
     (Message
        (delivered
           (Issuer.call_payload
              (Issuer.nextQuestionId (Issuer.run Issuer.init pevs).1)
              method params)))).2 = [] ∧
  Return (VNum (Issuer.nextQuestionId (Issuer.run Issuer.init pevs).1))
    (run_handler h ps)
    ∈ (drain k
         (step (run init wevs).1
            (Message
               (delivered
                  (Issuer.call_payload
                     (Issuer.nextQuestionId (Issuer.run Issuer.init pevs).1)
                     method params)))).1).2 ∧
  (Issuer.step
     (Issuer.run
        (Issuer.callRPC method params (Issuer.run Issuer.init pevs).1).1.1
        later).1
     (Issuer.Receive
        (delivered
           (encode
              (Return
                 (VNum (Issuer.nextQuestionId (Issuer.run Issuer.init pevs).1))
                 (run_handler h ps)))))).2 =
    [Issuer.Fulfil
       (Issuer.CallPromise
          (KNum (Issuer.nextQuestionId (Issuer.run Issuer.init pevs).1)))
       (jsonify (run_handler h ps))].
Proof.
  intros Hopen Hh Hps Hplain Hlogs _ Hk Hlater.
  pose proof (run_owned Issuer.init pevs init_owned) as Hown.
  pose proof (IssuerFacts.run_ids_allocated Issuer.init pevs
                IssuerFacts.init_ids_allocated) as Hids.
  pose proof (IssuerFacts.step_ids_allocated _ (Issuer.CallRPC method params) Hids)
    as Hids1.
  assert (wf (run init wevs).1) as Hwf by apply run_wf, wf_init.
  set (pst := (Issuer.run Issuer.init pevs).1) in *.
  set (wst := (run init wevs).1) in *.
  set (n := Issuer.nextQuestionId pst) in *.
  destruct (delivered_call n method params ps h Hh Hps) as (name & -> & ->).
  rewrite (delivered_return n) by apply run_handler_scalar.
  simpl in Hids1. unfold Issuer.callRPC in *. rewrite Hopen in *. simpl in Hids1.
  cbn [fst snd].
  set (pst1 := {| Issuer.callsInFlight := _ |}) in *.
  split; [done|]. split; [done|].
  pose proof (step_wf wst (Message (call (VNum n) name ps)) Hwf) as Hwf1.
  rewrite on_call_plain_params in * by done.
  unfold dispatch in *. rewrite Hh, Hlogs in *. cbn [fst snd] in *.
  split; [done|]. split.
  - apply (drain_answers _ (length (timers wst))
             (Timer (VNum n) (KNum n) h ps)); [done| |done].
    simpl. by rewrite lookup_app_r, Nat.sub_diag.
  - set (q0 := {| Issuer.done := false; Issuer.result := VUndef;
                  Issuer.settles := Some (Issuer.CallPromise (KNum n));
                  Issuer.promise := false |}).
    assert (Issuer.callsInFlight (Issuer.run pst1 later).1 !! KNum n = Some q0)
      as Hq.
    { destruct (run_entry pst1 later n q0) as [Hq|(Hex & _)];
        [done|apply lookup_insert_eq| |done|].
      - eapply Forall_impl; [exact Hlater|]. by intros e [? _].
      - apply Exists_exists in Hex as (e & Hin & Haw).
        rewrite Forall_forall in Hlater. by destruct (Hlater e Hin) as [_ []]. }
    by apply (onmessage_settles (Issuer.run pst1 later).1
                (VObj [("type", VStr "return"); ("answerId", VNum n);
                       ("result", jsonify (run_handler h ps))]) n q0).
Qed.

Lemma callRPC_round_trip_witness :
  Return (VNum 1) (VStr "Hello, Alice!")
    ∈ (drain 1
         (step init
            (Message
               (delivered
                  (Issuer.call_payload 1 (VStr "makeGreeting")
                     (VArr [VStr "Alice"]))))).1).2 ∧
  (Issuer.step
     (Issuer.run
        (Issuer.callRPC (VStr "makeGreeting") (VArr [VStr "Alice"])
           (Issuer.run Issuer.init
              [Issuer.InitWebSocket; Issuer.ReadyState Issuer.OPEN]).1).1.1
        []).1
     (Issuer.Receive
        (delivered (encode (Return (VNum 1) (VStr "Hello, Alice!")))))).2 =
    [Issuer.Fulfil (Issuer.CallPromise (KNum 1)) (VStr "Hello, Alice!")].
Proof.
  destruct (callRPC_round_trip
              [Issuer.InitWebSocket; Issuer.ReadyState Issuer.OPEN] []
              (VStr "makeGreeting") (VArr [VStr "Alice"]) [VStr "Alice"]
              MakeGreeting [] 1) as (_ & _ & _ & Hreturn & Hfulfil).
  - reflexivity.
  - reflexivity.
  - reflexivity.
  - repeat constructor.
  - reflexivity.
  - reflexivity.
  - simpl. lia.
  - constructor.
  - split; [exact Hreturn|exact Hfulfil].
Defined.

(** ** The pipelined test of the page *)

Lemma awaitResult_first st n q :
  Issuer.callsInFlight st !! KNum n = Some q →
  Issuer.done q = false → Issuer.promise q = false →
  Issuer.awaitResult (reference (VNum n)) st =
  ({| Issuer.callsInFlight :=
        <[KNum n := awaited_entry n q]> (Issuer.callsInFlight st);
      Issuer.nextQuestionId := Issuer.nextQuestionId st;
      Issuer.ws := Issuer.ws st |},
   Issuer.Pends (Issuer.AwaitPromise (KNum n))).
Proof.
  intros Hq Hd Hp. unfold Issuer.awaitResult. simpl.
  unfold Issuer.find_call. simpl. rewrite Hq. simpl. rewrite Hd, Hp.
  unfold awaited_entry. by rewrite Hd.
Qed.

Lemma runPipelined_open st :
  Issuer.socket_open st = true →
  runPipelined st =
  ((Issuer.run st
      [Issuer.CallPipelined (VStr "makeGreeting") (VArr [VStr "Alice"]);
       Issuer.CallPipelined (VStr "appendSuffix")
         (VArr [reference (VNum (Issuer.nextQuestionId st)); VStr "!!!"]);
       Issuer.AwaitResult (reference (VNum (Issuer.nextQuestionId st + 1)))]).1,
   Issuer.Pends (Issuer.AwaitPromise (KNum (Issuer.nextQuestionId st + 1))),
   [Issuer.Send
      (Issuer.call_payload (Issuer.nextQuestionId st)
         (VStr "makeGreeting") (VArr [VStr "Alice"]));
    Issuer.Send
      (Issuer.call_payload (Issuer.nextQuestionId st + 1)
         (VStr "appendSuffix")
         (VArr [reference (VNum (Issuer.nextQuestionId st)); VStr "!!!"]))]) ∧
  Issuer.callsInFlight (runPipelined st).1.1
    !! KNum (Issuer.nextQuestionId st + 1) =
    Some (awaited_entry (Issuer.nextQuestionId st + 1)
            {| Issuer.done := false; Issuer.result := VNull;
               Issuer.settles := None; Issuer.promise := false |}).
Proof.
  intros Hopen. unfold runPipelined, Issuer.callPipelined.
  cbn [Issuer.run Issuer.step]. unfold Issuer.callPipelined.
  unfold Issuer.socket_open in *. rewrite Hopen. cbn [Issuer.ws].
  rewrite Hopen. cbn [Issuer.nextQuestionId Issuer.callsInFlight].
  rewrite (awaitResult_first _ _
             {| Issuer.done := false; Issuer.result := VNull;
                Issuer.settles := None; Issuer.promise := false |})
    by (done || apply lookup_insert_eq).
  cbn [fst snd Issuer.callsInFlight app]. by rewrite lookup_insert_eq.
Qed.

(** X19. The pipelined test ends with the composed string.  On an open
    socket [runPipelined] sends both Calls in one turn and awaits the
    second; a worker for which the first id is fresh sends, once its
    timers have elapsed, the Return of the second Call with
    "Hello, Alice!!!!", whether or not the first method had finished when
    the second Call arrived; and when that frame reaches the page, the
    promise the test awaits is fulfilled with that string, whatever
    arrived before it. *)
Theorem runPipelined_receives_the_composition pevs wevs m k later :
  Issuer.socket_open (Issuer.run Issuer.init pevs).1 = true →
  questionsInFlight (run init wevs).1
    !! KNum (Issuer.nextQuestionId (Issuer.run Issuer.init pevs).1) = None →
  length (timers
            (step (drain m
                     (step (run init wevs).1
                        (Message
                           (delivered
                              (Issuer.call_payload
                                 (Issuer.nextQuestionId
                                    (Issuer.run Issuer.init pevs).1)
                                 (VStr "makeGreeting")
                                 (VArr [VStr "Alice"]))))).1).1
               (Message
                  (delivered
                     (Issuer.call_payload
                        (Issuer.nextQuestionId
                           (Issuer.run Issuer.init pevs).1 + 1)
                        (VStr "appendSuffix")
                        (VArr [reference
                                 (VNum (Issuer.nextQuestionId
                                          (Issuer.run Issuer.init pevs).1));
                               VStr "!!!"]))))).1)
    + length (suspended
            (step (drain m
                     (step (run init wevs).1
                        (Message
                           (delivered
                              (Issuer.call_payload
                                 (Issuer.nextQuestionId
                                    (Issuer.run Issuer.init pevs).1)
                                 (VStr "makeGreeting")
                                 (VArr [VStr "Alice"]))))).1).1
               (Message
                  (delivered
                     (Issuer.call_payload
                        (Issuer.nextQuestionId
                           (Issuer.run Issuer.init pevs).1 + 1)
                        (VStr "appendSuffix")
                        (VArr [reference
                                 (VNum (Issuer.nextQuestionId
                                          (Issuer.run Issuer.init pevs).1));
                               VStr "!!!"]))))).1) ≤ k →
  Forall (λ e, ¬ answers
                   (Issuer.nextQuestionId (Issuer.run Issuer.init pevs).1 + 1) e)
    later →
  (runPipelined (Issuer.run Issuer.init pevs).1).1.2 =
    Issuer.Pends
      (Issuer.AwaitPromise
         (KNum (Issuer.nextQuestionId (Issuer.run Issuer.init pevs).1 + 1))) ∧
  (runPipelined (Issuer.run Issuer.init pevs).1).2 =
    [Issuer.Send
       (Issuer.call_payload
          (Issuer.nextQuestionId (Issuer.run Issuer.init pevs).1)
          (VStr "makeGreeting") (VArr [VStr "Alice"]));
     Issuer.Send
       (Issuer.call_payload
          (Issuer.nextQuestionId (Issuer.run Issuer.init pevs).1 + 1)
          (VStr "appendSuffix")
          (VArr [reference
                   (VNum (Issuer.nextQuestionId
                            (Issuer.run Issuer.init pevs).1));
                 VStr "!!!"]))] ∧
  Return (VNum (Issuer.nextQuestionId (Issuer.run Issuer.init pevs).1 + 1))
    (VStr "Hello, Alice!!!!")
    ∈ (drain k
         (step (drain m
                  (step (run init wevs).1
                     (Message
                        (delivered
                           (Issuer.call_payload
                              (Issuer.nextQuestionId
                                 (Issuer.run Issuer.init pevs).1)
                              (VStr "makeGreeting")
                              (VArr [VStr "Alice"]))))).1).1
            (Message
               (delivered
                  (Issuer.call_payload
                     (Issuer.nextQuestionId
                        (Issuer.run Issuer.init pevs).1 + 1)
                     (VStr "appendSuffix")
                     (VArr [reference
                              (VNum (Issuer.nextQuestionId
                                       (Issuer.run Issuer.init pevs).1));
                            VStr "!!!"]))))).1).2 ∧
  (Issuer.step
     (Issuer.run (runPipelined (Issuer.run Issuer.init pevs).1).1.1 later).1
     (Issuer.Receive
        (delivered
           (encode
              (Return
                 (VNum (Issuer.nextQuestionId
                          (Issuer.run Issuer.init pevs).1 + 1))
                 (VStr "Hello, Alice!!!!")))))).2 =
    [Issuer.Fulfil
       (Issuer.AwaitPromise
          (KNum (Issuer.nextQuestionId (Issuer.run Issuer.init pevs).1 + 1)))
       (VStr "Hello, Alice!!!!")].
Proof.
  pose proof (IssuerFacts.run_ids_allocated Issuer.init pevs
                IssuerFacts.init_ids_allocated) as Hids.
  assert (wf (run init wevs).1) as Hwf by apply run_wf, wf_init.
  set (pst := (Issuer.run Issuer.init pevs).1) in *.
  set (wst := (run init wevs).1) in *.
  set (n := Issuer.nextQuestionId pst) in *.
  intros Hopen Hfresh.
  change (delivered (Issuer.call_payload n (VStr "makeGreeting")
                       (VArr [VStr "Alice"])))
    with (call (VNum n) "makeGreeting" [VStr "Alice"]).
  change (delivered (Issuer.call_payload (n + 1) (VStr "appendSuffix")
                       (VArr [reference (VNum n); VStr "!!!"])))
    with (call (VNum (n + 1)) "appendSuffix" [reference (VNum n); VStr "!!!"]).
  intros Hk Hlater.
  destruct (runPipelined_open pst Hopen) as [Hrun Hentry]. fold n in Hrun, Hentry.
  split; [by rewrite Hrun|]. split; [by rewrite Hrun|]. split.
  - destruct (pipelined_composition wst n (n + 1)
                "makeGreeting" [VStr "Alice"] MakeGreeting
                "appendSuffix" [reference (VNum n); VStr "!!!"] AppendSuffix
                m k) as [_ Hb]; try done.
    + lia.
    + repeat constructor.
    + repeat constructor; intros H; try discriminate H; reflexivity.
  - assert (Issuer.ids_allocated (runPipelined pst).1.1) as Hids3.
    { rewrite Hrun. cbn [fst]. by apply IssuerFacts.run_ids_allocated. }
    pose proof (run_entry _ later (n + 1) _ Hids3 Hentry Hlater) as Hq.
    assert (Issuer.callsInFlight
              (Issuer.run (runPipelined pst).1.1 later).1 !! KNum (n + 1)
            = Some (awaited_entry (n + 1)
                      {| Issuer.done := false; Issuer.result := VNull;
                         Issuer.settles := None; Issuer.promise := false |}))
      as Hq' by (by destruct Hq as [?|(_ & ? & _)]).
    by apply (onmessage_settles _
                (VObj [("type", VStr "return"); ("answerId", VNum (n + 1));
                       ("result", VStr "Hello, Alice!!!!")]) (n + 1) _ _ Hq').
Qed.

Lemma runPipelined_receives_the_composition_witness :
  Return (VNum 2) (VStr "Hello, Alice!!!!")
    ∈ (drain 2
         (step (drain 1
                  (step init
                     (Message
                        (delivered
                           (Issuer.call_payload 1 (VStr "makeGreeting")
                              (VArr [VStr "Alice"]))))).1).1
            (Message
               (delivered
                  (Issuer.call_payload 2 (VStr "appendSuffix")
                     (VArr [reference (VNum 1); VStr "!!!"]))))).1).2 ∧
  (Issuer.step
     (Issuer.run
        (runPipelined
           (Issuer.run Issuer.init
              [Issuer.InitWebSocket; Issuer.ReadyState Issuer.OPEN]).1).1.1
        [Issuer.Receive (Decoded greeting_returned)]).1
     (Issuer.Receive
        (delivered (encode (Return (VNum 2) (VStr "Hello, Alice!!!!")))))).2 =
    [Issuer.Fulfil (Issuer.AwaitPromise (KNum 2)) (VStr "Hello, Alice!!!!")].
Proof.
  destruct (runPipelined_receives_the_composition
              [Issuer.InitWebSocket; Issuer.ReadyState Issuer.OPEN] [] 1 2
              [Issuer.Receive (Decoded greeting_returned)])
    as (_ & _ & Hreturn & Hfulfil).
  - reflexivity.
  - reflexivity.
  - vm_compute. lia.
  - repeat constructor. intros H. discriminate H.
  - split; [exact Hreturn|exact Hfulfil].
Defined.

(** ** A failure from end to end *)

(** X20. The failure of a [callRPC] reaches its caller.  On an open socket,
    a call of a method the worker does not know, with parameters that hold
    no reference, is answered by the worker at once with the Exception
    "Unknown method" naming the method, and nothing is left in flight for
    it; and when the frame of any Exception for that question reaches the
    page, whatever the page did in between short of touching that
    question, the promise [callRPC] returned is rejected with exactly the
    error text of the frame. *)
Theorem callRPC_of_unknown_method_is_rejected
    pevs wevs name params ps later message :
  Issuer.socket_open (Issuer.run Issuer.init pevs).1 = true →
  method_handler (VStr name) = None →
  jsonify params = VArr ps →
  Forall (λ p, is_reference p = false) ps →
  Forall (λ e, ¬ answers (Issuer.nextQuestionId (Issuer.run Issuer.init pevs).1) e ∧
               ¬ awaits (Issuer.nextQuestionId (Issuer.run Issuer.init pevs).1) e)
    later →
  (step (run init wevs).1
     (Message
        (delivered
           (Issuer.call_payload
              (Issuer.nextQuestionId (Issuer.run Issuer.init pevs).1)
              (VStr name) params)))).2 =
    [Exception (VNum (Issuer.nextQuestionId (Issuer.run Issuer.init pevs).1))
       ("Unknown method " +:+ dquote +:+ name +:+ dquote)] ∧
  timers (step (run init wevs).1
            (Message
               (delivered
                  (Issuer.call_payload
                     (Issuer.nextQuestionId (Issuer.run Issuer.init pevs).1)
                     (VStr name) params)))).1 = timers (run init wevs).1 ∧
  suspended (step (run init wevs).1
               (Message
                  (delivered
                     (Issuer.call_payload
                        (Issuer.nextQuestionId (Issuer.run Issuer.init pevs).1)
                        (VStr name) params)))).1 = suspended (run init wevs).1 ∧
  (Issuer.step
     (Issuer.run
        (Issuer.callRPC (VStr name) params (Issuer.run Issuer.init pevs).1).1.1
        later).1
     (Issuer.Receive
        (delivered
           (encode
              (Exception
                 (VNum (Issuer.nextQuestionId (Issuer.run Issuer.init pevs).1))
                 message))))).2 =
    [Issuer.Reject
       (Issuer.CallPromise
          (KNum (Issuer.nextQuestionId (Issuer.run Issuer.init pevs).1)))
       message].
Proof.
  intros Hopen Hh Hps Hplain Hlater.
  pose proof (IssuerFacts.run_ids_allocated Issuer.init pevs
                IssuerFacts.init_ids_allocated) as Hids.
  pose proof (IssuerFacts.step_ids_allocated _
                (Issuer.CallRPC (VStr name) params) Hids) as Hids1.
  set (pst := (Issuer.run Issuer.init pevs).1) in *.
  set (wst := (run init wevs).1) in *.
  set (n := Issuer.nextQuestionId pst) in *.
  assert (delivered (Issuer.call_payload n (VStr name) params)
          = call (VNum n) name ps) as ->.
  { unfold delivered, Issuer.call_payload, call. f_equal.
    destruct params; try done; cbn [jsonify]; cbn [jsonify] in Hps;
      by rewrite Hps. }
  rewrite on_call_plain_params by done.
  unfold dispatch. rewrite Hh. cbn [fst snd timers suspended to_string].
  split; [done|]. split; [done|]. split; [done|].
  simpl in Hids1. unfold Issuer.callRPC in *. rewrite Hopen in *.
  simpl in Hids1. cbn [fst snd].
  set (pst1 := {| Issuer.callsInFlight := _ |}) in *.
  set (q0 := {| Issuer.done := false; Issuer.result := VUndef;
                Issuer.settles := Some (Issuer.CallPromise (KNum n));
                Issuer.promise := false |}).
  assert (Issuer.callsInFlight (Issuer.run pst1 later).1 !! KNum n = Some q0)
    as Hq.
  { destruct (run_entry pst1 later n q0) as [Hq|(Hex & _)];
      [done|apply lookup_insert_eq| |done|].
    - eapply Forall_impl; [exact Hlater|]. by intros e [? _].
    - apply Exists_exists in Hex as (e & Hin & Haw).
      rewrite Forall_forall in Hlater. by destruct (Hlater e Hin) as [_ []]. }
  by apply (onmessage_settles (Issuer.run pst1 later).1
              (VObj [("type", VStr "exception"); ("answerId", VNum n);
                     ("error", VStr message)]) n q0).
Qed.

Lemma callRPC_of_unknown_method_is_rejected_witness :
  (step init
     (Message
        (delivered (Issuer.call_payload 1 (VStr "nope") (VArr []))))).2 =
    [Exception (VNum 1) ("Unknown method " +:+ dquote +:+ "nope" +:+ dquote)] ∧
  (Issuer.step
     (Issuer.run
        (Issuer.callRPC (VStr "nope") (VArr [])
           (Issuer.run Issuer.init
              [Issuer.InitWebSocket; Issuer.ReadyState Issuer.OPEN]).1).1.1
        []).1
     (Issuer.Receive
        (delivered
           (encode
              (Exception (VNum 1)
                 ("Unknown method " +:+ dquote +:+ "nope" +:+ dquote)))))).2 =
    [Issuer.Reject (Issuer.CallPromise (KNum 1))
       ("Unknown method " +:+ dquote +:+ "nope" +:+ dquote)].
Proof.
  destruct (callRPC_of_unknown_method_is_rejected
              [Issuer.InitWebSocket; Issuer.ReadyState Issuer.OPEN] []
              "nope" (VArr []) [] []
              ("Unknown method " +:+ dquote +:+ "nope" +:+ dquote))
    as (Hexception & _ & _ & Hreject).
  - reflexivity.
  - reflexivity.
  - reflexivity.
  - constructor.
  - constructor.
  - split; [exact Hexception|exact Hreject].
Defined.
